(** * LMS: library scan and schema migration

    A shallow embedding of two procedures of the LMS media server:

    - [Database::processAudioFile] and [Database::removeMissingAudioFiles]
      (database/Database.cpp), the per-file scan path and the orphan
      reconciler;
    - [Database::Migration::doDbMigration]
      (libs/services/database/impl/Migration.cpp), the schema migration
      loop.

    Both run against a Wt::Dbo session.  The session is modelled as a
    committed store together with the working copy of the open
    transaction; C++ exceptions are modelled by a state-and-exception
    monad in which the state survives a throw, and the RAII transaction
    object by a combinator that commits on a normal scope exit and rolls
    back while an exception unwinds. *)

From Stdlib Require Import ZArith NArith List Ascii String Bool Lia.
From stdpp Require Import gmap strings list.

Open Scope string_scope.

(** ** Exceptions and the effect monad *)

(** Everything thrown in the modelled code derives from [std::exception];
    [LmsException] is the one the migration raises itself. *)
Inductive exn : Type :=
| LmsException (what : string)
| StdException (what : string).

Inductive Result (A : Type) : Type :=
| Ok (a : A)
| Throw (e : exn).
Arguments Ok {A} a.
Arguments Throw {A} e.

Section Monad.
Context {St : Type}.

Definition M (A : Type) : Type := St -> Result A * St.

Definition ret {A} (a : A) : M A := fun s => (Ok a, s).

Definition bind {A B} (m : M A) (k : A -> M B) : M B :=
  fun s =>
    match m s with
    | (Ok a, s') => k a s'
    | (Throw e, s') => (Throw e, s')
    end.

Definition throw {A} (e : exn) : M A := fun s => (Throw e, s).

(** [try { body } catch (std::exception& e) { handler }] *)
Definition tryCatch {A} (body : M A) (handler : exn -> M A) : M A :=
  fun s =>
    match body s with
    | (Ok a, s') => (Ok a, s')
    | (Throw e, s') => handler e s'
    end.

Definition gets {A} (f : St -> A) : M A := fun s => (Ok (f s), s).

Definition modify (f : St -> St) : M unit := fun s => (Ok tt, f s).
End Monad.
Arguments M : clear implicits.

Declare Scope dbo_scope.
Delimit Scope dbo_scope with dbo.
Notation "x <- m ;; k" := (bind m (fun x => k))
  (at level 100, m at next level, right associativity) : dbo_scope.
Notation "m ;;; k" := (bind m (fun _ => k))
  (at level 100, right associativity) : dbo_scope.

(** ** Wt::Dbo sessions and transactions *)

Section Session.
Context {Store Event : Type}.

(** [committed] is what the database file holds; [transaction] is the
    working copy of the transaction in progress, if any;
    [foreignKeys] is the connection's [PRAGMA foreign_keys], which is
    not transactional; [trace] collects, oldest first, the log lines
    written and the calls made to outside collaborators. *)
Record Session : Type := mkSession {
  committed : Store;
  transaction : option Store;
  foreignKeys : bool;
  trace : list Event
}.

Definition begin_ (s : Session) : Session :=
  {| committed := committed s;
     transaction := Some (committed s);
     foreignKeys := foreignKeys s;
     trace := trace s |}.

Definition commit_ (s : Session) : Session :=
  {| committed := match transaction s with
                  | Some w => w
                  | None => committed s
                  end;
     transaction := None;
     foreignKeys := foreignKeys s;
     trace := trace s |}.

Definition rollback_ (s : Session) : Session :=
  {| committed := committed s;
     transaction := None;
     foreignKeys := foreignKeys s;
     trace := trace s |}.

(** A [Wt::Dbo::Transaction] object living for the scope [body]: its
    destructor commits when the scope is left normally (falling off the
    end or [return]) and rolls back when it is left by an exception. *)
Definition withTransaction {A} (body : M Session A) : M Session A :=
  fun s =>
    match body (begin_ s) with
    | (Ok a, s') => (Ok a, commit_ s')
    | (Throw e, s') => (Throw e, rollback_ s')
    end.

(** [transaction.commit()] called explicitly. *)
Definition commit : M Session unit := modify commit_.

(** Reading and writing mapped objects needs an active transaction. *)
Definition getStore : M Session Store :=
  fun s =>
    match transaction s with
    | Some w => (Ok w, s)
    | None => (Throw (StdException "Dbo: no active transaction"), s)
    end.

Definition putStore (w : Store) : M Session unit :=
  fun s =>
    match transaction s with
    | Some _ => (Ok tt, {| committed := committed s;
                           transaction := Some w;
                           foreignKeys := foreignKeys s;
                           trace := trace s |})
    | None => (Throw (StdException "Dbo: no active transaction"), s)
    end.

(** A session inside a transaction whose working copy is [w]. *)
Definition inTx (c w : Store) (fk : bool) (tr : list Event) : Session :=
  mkSession c (Some w) fk tr.

(** A session at rest on the store [db]: no transaction, foreign keys
    enforced, nothing traced yet. *)
Definition idle (db : Store) : Session := mkSession db None true [].

(** Writing a log line, or recording a call to a collaborator. *)
Definition emit (e : Event) : M Session unit :=
  modify (fun s => {| committed := committed s;
                      transaction := transaction s;
                      foreignKeys := foreignKeys s;
                      trace := trace s ++ [e] |}).
End Session.
Arguments Session : clear implicits.

(** [session.find<C>()] converted to a [ptr<C>]: null when there is no
    row, the row when there is exactly one, and an exception otherwise. *)
Definition findUnique {St A} (rows : list A) : M St (option A) :=
  match rows with
  | [] => ret None
  | [r] => ret (Some r)
  | _ => throw (StdException "Dbo: NoUniqueResultException")
  end.

(** ** The migration engine (Migration.cpp) *)

Module Migration.

(** Modelled from the spec: Migration.hpp is not part of the sources; a
    schema version is an integer, never negative. *)
Definition Version : Type := N.

(** *** SQL statements

    The statements passed to [session.getDboSession().execute(...)],
    as syntax.  A column carries its declaration text and, when
    present, its [DEFAULT] value. *)

Inductive SqlValue : Type :=
| SqlInt (z : Z)
| SqlText (s : string).

Record Column : Type := mkColumn {
  col_name : string;
  col_decl : string;
  col_default : option SqlValue
}.

Definition col (name decl : string) : Column := mkColumn name decl None.
Definition colDefault (name decl : string) (d : SqlValue) : Column :=
  mkColumn name decl (Some d).

(** [constraint "name" foreign key ("column") references "table" ("id")
    on delete cascade deferrable initially deferred] *)
Record ForeignKey : Type := mkForeignKey {
  fk_name : string;
  fk_column : string;
  fk_table : string
}.

Inductive SelectExpr : Type :=
| SelColumn (c : string)
| SelLiteral (v : SqlValue).

Inductive Sql : Type :=
| DeleteFrom (table : string) (where_ : option (string * SqlValue))
| DropTable (table : string)
| AlterTableAdd (table : string) (c : Column)
| AlterTableRename (table newName : string)
| CreateTable (ifNotExists : bool) (table : string)
    (columns : list Column) (constraints : list ForeignKey)
| InsertSelect (into : string) (exprs : list SelectExpr) (from : string).

(** *** Mapped objects *)

(** Modelled from the spec: Migration.hpp is not part of the sources; the
    version record holds the integer schema version. *)
Record VersionInfo : Type := mkVersionInfo { getVersion : Version }.

(** Modelled from the spec: [setVersion] of the same header. *)
Definition setVersion (v : Version) (_ : VersionInfo) : VersionInfo :=
  mkVersionInfo v.

(** Modelled from the spec: ScanSettings.hpp is not part of the sources;
    the singleton holds a [scanVersion] counter and the set of recognized
    audio file extensions. *)
Record ScanSettings : Type := mkScanSettings {
  scanVersion : N;
  audioFileExtensions : gset string
}.

(** Modelled from the spec: ScanSettings.cpp is not part of the sources;
    the counter goes up by one. *)
Definition incScanVersion (s : ScanSettings) : ScanSettings :=
  mkScanSettings (scanVersion s + 1) (audioFileExtensions s).

(** Modelled from the spec: ScanSettings.cpp is not part of the sources;
    the extension joins the set. *)
Definition addAudioFileExtension (ext : string) (s : ScanSettings)
  : ScanSettings :=
  mkScanSettings (scanVersion s) ({[ ext ]} ∪ audioFileExtensions s).

(** Constants of headers that are not part of the sources. *)
Record Constants : Type := mkConstants {
  LMS_DATABASE_VERSION : Version;
  (** the version a default-constructed [VersionInfo] carries *)
  defaultVersion : Version;
  clustersEngineType : Z;
  defaultUITheme : Z;
  defaultSubsonicTranscodeEnable : bool;
  defaultSubsonicTranscodeFormat : Z;
  defaultSubsonicTranscodeBitrate : Z;
  defaultSubsonicArtistListMode : Z;
  defaultScrobbler : Z
}.

Record Store {SqlDb : Type} : Type := mkStore {
  versionInfo : list VersionInfo;
  scanSettings : list ScanSettings;
  tables : SqlDb
}.
Arguments Store : clear implicits.
Arguments mkStore {SqlDb} _ _ _.

(** The lines written through [LMS_LOG]. *)
Inductive LogLine : Type :=
| LogVersions (database binary : Version)
| LogUpToDate (binary : Version)
| LogCannotGetVersion (e : exn)
| LogMigrating (from : Version)
| LogCannotHandle (version : Version).

Definition outdatedMsg : string :=
  "Outdated database, please rebuild it (delete the .db file and restart)".

Definition binaryOutdatedMsg : string :=
  "Server binary outdated, please upgrade it to handle this database".

(** The table layouts that appear more than once. *)
Definition idColumn : Column := col "id" "integer primary key autoincrement".
Definition versionColumn : Column := col "version" "integer not null".

Definition userBackupColumns : list Column :=
  [ idColumn; versionColumn;
    col "type" "integer not null";
    col "login_name" "text not null";
    col "password_salt" "text not null";
    col "password_hash" "text not null";
    col "last_login" "text";
    col "subsonic_transcode_enable" "boolean not null";
    col "subsonic_transcode_format" "integer not null";
    col "subsonic_transcode_bitrate" "integer not null";
    col "subsonic_artist_list_mode" "integer not null";
    col "ui_theme" "integer not null";
    col "cur_playing_track_pos" "integer not null";
    col "repeat_all" "boolean not null";
    col "radio" "boolean not null" ].

Definition trackBackupColumns : list Column :=
  [ idColumn; versionColumn;
    col "scan_version" "integer not null";
    col "track_number" "integer not null";
    col "disc_number" "integer not null";
    col "name" "text not null";
    col "duration" "integer";
    col "date" "integer text";
    col "original_date" "integer text";
    col "file_path" "text not null";
    col "file_last_write" "text";
    col "file_added" "text";
    col "has_cover" "boolean not null";
    col "mbid" "text not null";
    col "copyright" "text not null";
    col "copyright_url" "text not null";
    col "release_id" "bigint";
    colDefault "total_disc" "INTEGER NOT NULL" (SqlInt 0);
    colDefault "total_track" "INTEGER NOT NULL" (SqlInt 0);
    col "track_replay_gain" "REAL";
    col "release_replay_gain" "REAL";
    colDefault "disc_subtitle" "TEXT NOT NULL" (SqlText EmptyString);
    col "recording_mbid" "TEXT" ].

Definition starredColumns (what : string) : list Column :=
  [ idColumn; versionColumn;
    col "scrobbler" "integer not null";
    col "date_time" "text";
    col (what ++ "_id") "bigint";
    col "user_id" "bigint" ].

Definition starredConstraints (what : string) : list ForeignKey :=
  [ mkForeignKey ("fk_starred_" ++ what ++ "_" ++ what) (what ++ "_id") what;
    mkForeignKey ("fk_starred_" ++ what ++ "_user") "user_id" "user" ].

Section Engine.
(** The SQL backend behind the session: the state of the tables that are
    reached through raw statements, and the effect of one statement
    ([None] when the backend rejects it, which Wt::Dbo turns into an
    exception). *)
Context {SqlDb : Type}.
Variable sqlExecute : Sql -> SqlDb -> option SqlDb.
Variable K : Constants.

Definition MM : Type -> Type := M (Session (Store SqlDb) LogLine).

Open Scope dbo_scope.

(** [VersionInfo::getOrCreate] *)
Definition VersionInfo_getOrCreate : MM VersionInfo :=
  w <- getStore ;;
  versionInfo_ <- findUnique (versionInfo w) ;;
  match versionInfo_ with
  | None =>
      let fresh := mkVersionInfo (defaultVersion K) in
      putStore (mkStore [fresh] (scanSettings w) (tables w)) ;;;
      ret fresh
  | Some vi => ret vi
  end.

(** [VersionInfo::get(session).modify()->setVersion(v)]; dereferencing
    a null [ptr] throws. *)
Definition VersionInfo_setVersion (v : Version) : MM unit :=
  w <- getStore ;;
  versionInfo_ <- findUnique (versionInfo w) ;;
  match versionInfo_ with
  | None => throw (StdException "Wt::Dbo::ptr: null dereference")
  | Some vi =>
      putStore (mkStore [setVersion v vi] (scanSettings w) (tables w))
  end.

(** [ScanSettings::get(session).modify()->f()] *)
Definition ScanSettings_modify (f : ScanSettings -> ScanSettings)
  : MM unit :=
  w <- getStore ;;
  settings <- findUnique (scanSettings w) ;;
  match settings with
  | None => throw (StdException "Wt::Dbo::ptr: null dereference")
  | Some st => putStore (mkStore (versionInfo w) [f st] (tables w))
  end.

(** [session.getDboSession().execute(sql)] *)
Definition execute (q : Sql) : MM unit :=
  w <- getStore ;;
  match sqlExecute q (tables w) with
  | Some t => putStore (mkStore (versionInfo w) (scanSettings w) t)
  | None => throw (StdException "Dbo: statement failed")
  end.

(** [_db.executeSql("PRAGMA foreign_keys=...")], outside of any
    transaction. *)
Definition setForeignKeys (b : bool) : MM unit :=
  modify (fun s => mkSession (committed s) (transaction s) b (trace s)).

(** [ScopedNoForeignKeys]: off in the constructor, on again in the
    destructor, whichever way the scope is left. *)
Definition scopedNoForeignKeys {A} (body : MM A) : MM A :=
  fun s =>
    match bind (setForeignKeys false) (fun _ => body) s with
    | (r, s') => (r, snd (setForeignKeys true s'))
    end.

(** The chain of [if (version == n) ... else if ...] of the loop body. *)
Definition migrate (version : Version) : MM unit :=
  if (version =? 5)%N then
    execute (DeleteFrom "auth_token" None)
  else if (version =? 6)%N then
    ScanSettings_modify incScanVersion
  else if (version =? 7)%N then
    execute (DropTable "similarity_settings") ;;;
    execute (DropTable "similarity_settings_feature") ;;;
    execute (AlterTableAdd "scan_settings"
               (colDefault "similarity_engine_type" "INTEGER NOT NULL"
                  (SqlInt (clustersEngineType K))))
  else if (version =? 8)%N then
    ScanSettings_modify incScanVersion
  else if (version =? 9)%N then
    execute (CreateTable true "track_bookmark"
               [ idColumn; versionColumn;
                 col "offset" "integer";
                 col "comment" "text not null";
                 col "track_id" "bigint";
                 col "user_id" "bigint" ]
               [ mkForeignKey "fk_track_bookmark_track" "track_id" "track";
                 mkForeignKey "fk_track_bookmark_user" "user_id" "user" ])
  else if (version =? 10)%N then
    ScanSettings_modify (addAudioFileExtension ".m4b") ;;;
    ScanSettings_modify (addAudioFileExtension ".alac")
  else if (version =? 11)%N then
    ScanSettings_modify incScanVersion
  else if (version =? 12)%N then
    ScanSettings_modify incScanVersion
  else if (version =? 13)%N then
    ScanSettings_modify incScanVersion
  else if (version =? 14)%N then
    ScanSettings_modify incScanVersion
  else if (version =? 15)%N then
    execute (AlterTableAdd "user"
               (colDefault "ui_theme" "INTEGER NOT NULL"
                  (SqlInt (defaultUITheme K))))
  else if (version =? 16)%N then
    execute (AlterTableAdd "track"
               (colDefault "total_disc" "INTEGER NOT NULL" (SqlInt 0))) ;;;
    execute (AlterTableAdd "track"
               (colDefault "total_track" "INTEGER NOT NULL" (SqlInt 0))) ;;;
    ScanSettings_modify incScanVersion
  else if (version =? 17)%N then
    execute (CreateTable false "release_backup"
               [ idColumn; versionColumn;
                 col "name" "text not null";
                 col "mbid" "text not null" ] []) ;;;
    execute (InsertSelect "release_backup"
               (map SelColumn ["id"; "version"; "name"; "mbid"])
               "release") ;;;
    execute (DropTable "release") ;;;
    execute (AlterTableRename "release_backup" "release") ;;;
    ScanSettings_modify incScanVersion
  else if (version =? 18)%N then
    execute (CreateTable true "subsonic_settings"
               [ idColumn; versionColumn;
                 col "api_enabled" "boolean not null";
                 col "artist_list_mode" "integer not null" ] [])
  else if (version =? 19)%N then
    execute (CreateTable false "user_backup" userBackupColumns []) ;;;
    execute (InsertSelect "user_backup"
               (map SelColumn
                  ["id"; "version"; "type"; "login_name"; "password_salt";
                   "password_hash"; "last_login"]
                ++ [ SelLiteral
                       (SqlInt (if defaultSubsonicTranscodeEnable K
                                then 1 else 0));
                     SelLiteral (SqlInt (defaultSubsonicTranscodeFormat K));
                     SelLiteral (SqlInt (defaultSubsonicTranscodeBitrate K));
                     SelLiteral (SqlInt (defaultSubsonicArtistListMode K)) ]
                ++ map SelColumn
                     ["ui_theme"; "cur_playing_track_pos"; "repeat_all";
                      "radio"])
               "user") ;;;
    execute (DropTable "user") ;;;
    execute (AlterTableRename "user_backup" "user")
  else if (version =? 20)%N then
    execute (DropTable "subsonic_settings")
  else if (version =? 21)%N then
    execute (AlterTableAdd "track" (col "track_replay_gain" "REAL")) ;;;
    execute (AlterTableAdd "track" (col "release_replay_gain" "REAL")) ;;;
    ScanSettings_modify incScanVersion
  else if (version =? 22)%N then
    execute (AlterTableAdd "track"
               (colDefault "disc_subtitle" "TEXT NOT NULL" (SqlText EmptyString))) ;;;
    ScanSettings_modify incScanVersion
  else if (version =? 23)%N then
    ScanSettings_modify incScanVersion
  else if (version =? 24)%N then
    execute (AlterTableAdd "user"
               (colDefault "auth_mode" "INTEGER NOT NULL" (SqlInt 0)))
  else if (version =? 25)%N then
    ScanSettings_modify incScanVersion
  else if (version =? 26)%N then
    ScanSettings_modify incScanVersion
  else if (version =? 27)%N then
    ScanSettings_modify incScanVersion
  else if (version =? 28)%N then
    execute (CreateTable false "user_backup" userBackupColumns []) ;;;
    execute (InsertSelect "user_backup"
               (map SelColumn (map col_name userBackupColumns))
               "user") ;;;
    execute (DropTable "user") ;;;
    execute (AlterTableRename "user_backup" "user")
  else if (version =? 29)%N then
    execute (AlterTableAdd "tracklist_entry" (col "date_time" "TEXT")) ;;;
    execute (AlterTableAdd "user" (col "listenbrainz_token" "TEXT")) ;;;
    execute (AlterTableAdd "user"
               (colDefault "scrobbler" "INTEGER NOT NULL"
                  (SqlInt (defaultScrobbler K)))) ;;;
    execute (AlterTableAdd "track" (col "recording_mbid" "TEXT")) ;;;
    execute (DeleteFrom "tracklist"
               (Some ("name", SqlText "__played_tracks__"))) ;;;
    ScanSettings_modify incScanVersion
  else if (version =? 30)%N then
    execute (CreateTable false "track_backup" trackBackupColumns
               [ mkForeignKey "fk_track_release" "release_id" "release" ]) ;;;
    execute (InsertSelect "track_backup"
               (map SelColumn
                  ["id"; "version"; "scan_version"; "track_number";
                   "disc_number"; "name"; "duration"]
                ++ [ SelLiteral (SqlText "1900-01-01");
                     SelLiteral (SqlText "1900-01-01") ]
                ++ map SelColumn
                     ["file_path"; "file_last_write"; "file_added";
                      "has_cover"; "mbid"; "copyright"; "copyright_url";
                      "release_id"; "total_disc"; "total_track";
                      "track_replay_gain"; "release_replay_gain";
                      "disc_subtitle"; "recording_mbid"])
               "track") ;;;
    execute (DropTable "track") ;;;
    execute (AlterTableRename "track_backup" "track") ;;;
    ScanSettings_modify incScanVersion
  else if (version =? 31)%N then
    execute (DropTable "user_artist_starred") ;;;
    execute (DropTable "user_release_starred") ;;;
    execute (DropTable "user_track_starred") ;;;
    execute (CreateTable true "starred_artist"
               (starredColumns "artist") (starredConstraints "artist")) ;;;
    execute (CreateTable true "starred_release"
               (starredColumns "release") (starredConstraints "release")) ;;;
    execute (CreateTable true "starred_track"
               (starredColumns "track") (starredConstraints "track")) ;;;
    execute (CreateTable true "listen"
               [ idColumn; versionColumn;
                 col "date_time" "text";
                 col "scrobbler" "integer not null";
                 col "scrobbling_state" "integer not null";
                 col "track_id" "bigint";
                 col "user_id" "bigint" ]
               [ mkForeignKey "fk_listen_track" "track_id" "track";
                 mkForeignKey "fk_listen_user" "user_id" "user" ])
  else
    emit (LogCannotHandle version) ;;;
    throw (LmsException
             (if (version <? LMS_DATABASE_VERSION K)%N
              then outdatedMsg
              else binaryOutdatedMsg)).

(** How one turn of [while (1)] ends. *)
Inductive LoopExit : Type :=
| LoopReturn
| LoopContinue.

(** The [try] block at the head of the loop body: the version read, and
    whether the block executed its [return]. *)
Definition readVersion : MM (Version * bool) :=
  tryCatch
    (vi <- VersionInfo_getOrCreate ;;
     let version := getVersion vi in
     emit (LogVersions version (LMS_DATABASE_VERSION K)) ;;;
     if (version =? LMS_DATABASE_VERSION K)%N then
       emit (LogUpToDate (LMS_DATABASE_VERSION K)) ;;;
       ret (version, true)
     else
       ret (version, false))
    (fun e =>
       emit (LogCannotGetVersion e) ;;;
       throw (LmsException outdatedMsg)).

(** The body of the loop, inside its transaction. *)
Definition migrationBody : MM LoopExit :=
  r <- readVersion ;;
  let '(version, returned) := r in
  if returned : bool then
    ret LoopReturn
  else
    emit (LogMigrating version) ;;;
    migrate version ;;;
    VersionInfo_setVersion (version + 1)%N ;;;
    ret LoopContinue.

(** One turn: [auto uniqueTransaction {session.createUniqueTransaction()}]
    lives until the end of the turn. *)
Definition migrationTurn : MM LoopExit := withTransaction migrationBody.

(** [while (1)], unrolled at most [fuel] times; [None] when the fuel
    runs out before the loop is left. *)
Fixpoint migrationLoop (fuel : nat) : MM (option unit) :=
  match fuel with
  | O => ret None
  | S fuel' =>
      exit <- migrationTurn ;;
      match exit with
      | LoopReturn => ret (Some tt)
      | LoopContinue => migrationLoop fuel'
      end
  end.

Definition doDbMigration (fuel : nat) : MM (option unit) :=
  scopedNoForeignKeys (migrationLoop fuel).

(** The version a turn reads from the committed store [c], with the
    working copy the read leaves behind (the record is created when
    there is none); nothing when the record cannot be read. *)
Definition versionRead (c : Store SqlDb) : option (Version * Store SqlDb) :=
  match versionInfo c with
  | [] => Some (defaultVersion K,
                mkStore [mkVersionInfo (defaultVersion K)]
                  (scanSettings c) (tables c))
  | [vi] => Some (getVersion vi, c)
  | _ => None
  end.

(** The scan settings are there, once. *)
Definition settingsPresent (w : Store SqlDb) : Prop :=
  exists st, scanSettings w = [st].

(** [m] cannot fail while the scan settings are there. *)
Definition succeeds {A} (m : MM A) : Prop :=
  forall c w fk tr,
    settingsPresent w ->
    exists a w' tr',
      m (inTx c w fk tr) = (Ok a, inTx c w' fk tr') /\ settingsPresent w'.

(** [m] runs inside the transaction: it leaves the committed store and
    the pragma alone, keeps the transaction open, only adds to the trace,
    takes the working copy to one related to it by [R], and neither its
    result nor what it does to the working copy depends on anything but
    the working copy. *)
Definition transactional {A} (R : Store SqlDb -> Store SqlDb -> Prop)
    (m : MM A) : Prop :=
  forall c w fk tr,
    exists r w' evs,
      m (inTx c w fk tr) = (r, inTx c w' fk (tr ++ evs)) /\
      R w w' /\
      forall c2 fk2 tr2,
        m (inTx c2 w fk2 tr2) = (r, inTx c2 w' fk2 (tr2 ++ evs)).

Definition sameVersionInfo : Store SqlDb -> Store SqlDb -> Prop :=
  fun w w' => versionInfo w' = versionInfo w.

End Engine.

(** *** A reference backend

    A backend that keeps, for every table, the names of its columns, and
    rejects a statement that names a missing table or column, creates a
    table or column that exists, or inserts rows of the wrong width.  It
    serves to run the migration on concrete stores. *)

Definition hasColumn (c : string) (columns : list string) : bool :=
  existsb (String.eqb c) columns.

Definition selectable (columns : list string) (e : SelectExpr) : bool :=
  match e with
  | SelColumn c => hasColumn c columns
  | SelLiteral _ => true
  end.

Definition schemaExecute (q : Sql) (db : gmap string (list string))
  : option (gmap string (list string)) :=
  match q with
  | DeleteFrom t where_ =>
      columns ← db !! t;
      match where_ with
      | None => Some db
      | Some (c, _) => if hasColumn c columns then Some db else None
      end
  | DropTable t =>
      _ ← db !! t; Some (delete t db)
  | AlterTableAdd t c =>
      columns ← db !! t;
      if hasColumn (col_name c) columns then None
      else Some (<[t := (columns ++ [col_name c])%list]> db)
  | AlterTableRename t newName =>
      columns ← db !! t;
      match db !! newName with
      | Some _ => None
      | None => Some (<[newName := columns]> (delete t db))
      end
  | CreateTable ifNotExists t columns _ =>
      match db !! t with
      | Some _ => if ifNotExists then Some db else None
      | None => Some (<[t := map col_name columns]> db)
      end
  | InsertSelect into exprs from =>
      target ← db !! into;
      source ← db !! from;
      if (length exprs =? length target)%nat
         && forallb (selectable source) exprs
      then Some db else None
  end.

(** Constants and a version-5 store to run the whole chain on. *)
Definition exampleConstants : Constants :=
  {| LMS_DATABASE_VERSION := 32%N;
     defaultVersion := 32%N;
     clustersEngineType := 0%Z;
     defaultUITheme := 0%Z;
     defaultSubsonicTranscodeEnable := false;
     defaultSubsonicTranscodeFormat := 2%Z;
     defaultSubsonicTranscodeBitrate := 128000%Z;
     defaultSubsonicArtistListMode := 0%Z;
     defaultScrobbler := 0%Z |}.

Definition schemaV5 : gmap string (list string) :=
  list_to_map
    [ ("auth_token", ["id"; "version"; "value"; "expiry"; "user_id"]);
      ("similarity_settings", ["id"; "version"]);
      ("similarity_settings_feature", ["id"; "version"; "name"]);
      ("scan_settings", ["id"; "version"; "scan_version"]);
      ("user",
        ["id"; "version"; "type"; "login_name"; "password_salt";
         "password_hash"; "last_login"; "cur_playing_track_pos";
         "repeat_all"; "radio"]);
      ("track",
        ["id"; "version"; "scan_version"; "track_number"; "disc_number";
         "name"; "duration"; "year"; "original_year"; "file_path";
         "file_last_write"; "file_added"; "has_cover"; "mbid";
         "copyright"; "copyright_url"; "release_id"]);
      ("release",
        ["id"; "version"; "name"; "mbid"; "total_disc"; "total_track"]);
      ("tracklist", ["id"; "version"; "name"; "user_id"]);
      ("tracklist_entry", ["id"; "version"; "track_id"; "tracklist_id"]);
      ("user_artist_starred", ["user_id"; "artist_id"]);
      ("user_release_starred", ["user_id"; "release_id"]);
      ("user_track_starred", ["user_id"; "track_id"]) ].

Definition storeV5 : Store (gmap string (list string)) :=
  mkStore [mkVersionInfo 5%N] [mkScanSettings 0%N {[ ".mp3" ]}] schemaV5.

(** The same store at version 7 once the similarity tables are gone:
    the step of version 7 cannot drop them again. *)
Definition storeV7Broken : Store (gmap string (list string)) :=
  mkStore [mkVersionInfo 7%N] [mkScanSettings 1%N {[ ".mp3" ]}]
    (delete "similarity_settings" schemaV5).

(** Stores whose version has no step: one older than every step, one
    newer than the binary. *)
Definition storeV3 : Store (gmap string (list string)) :=
  mkStore [mkVersionInfo 3%N] [mkScanSettings 0%N {[ ".mp3" ]}] schemaV5.

Definition storeV40 : Store (gmap string (list string)) :=
  mkStore [mkVersionInfo 40%N] [mkScanSettings 0%N {[ ".mp3" ]}] schemaV5.

End Migration.


(** ** The scan path (Database.cpp) *)

Module Scanner.

Definition path : Type := string.

(** A [boost::posix_time::ptime] built by [from_time_t]: seconds since the
    epoch. *)
Definition ptime : Type := Z.

Fixpoint checksum_eqb (a b : list Byte.byte) : bool :=
  match a, b with
  | [], [] => true
  | x :: a', y :: b' => Byte.eqb x y && checksum_eqb a' b'
  | _, _ => false
  end.

Definition ptime_eqb (a b : option ptime) : bool :=
  match a, b with
  | Some x, Some y => (x =? y)%Z
  | None, None => true
  | _, _ => false
  end.

(** [file.filename().string()]: what follows the last separator.  The
    files handed to the scan are directory entries, so their path does
    not end with a separator. *)
Fixpoint filenameFrom (current p : string) : string :=
  match p with
  | EmptyString => current
  | String c rest =>
      if Ascii.eqb c "/"%char
      then filenameFrom EmptyString rest
      else filenameFrom (current ++ String c EmptyString) rest
  end.

Definition filename (p : path) : string := filenameFrom EmptyString p.

(** *** Tables of mapped objects

    A table holds its rows in insertion order, each under the id the
    database gave it; ids are never reused. *)
Record Table (A : Type) : Type := mkTable {
  rows : list (nat * A);
  nextId : nat
}.
Arguments mkTable {A} _ _.
Arguments rows {A} _.
Arguments nextId {A} _.

Definition emptyTable {A} : Table A := mkTable [] 1.

Definition insertRow {A} (a : A) (t : Table A) : nat * Table A :=
  (nextId t, mkTable (rows t ++ [(nextId t, a)])%list (S (nextId t))).

Definition findRow {A} (p : A -> bool) (t : Table A) : option (nat * A) :=
  List.find (fun r => p (snd r)) (rows t).

(** A row as [f] leaves it when it carries the id, untouched otherwise. *)
Definition updated {A} (f : A -> A) (id : nat) (r : nat * A) : nat * A :=
  if (fst r =? id)%nat then (fst r, f (snd r)) else r.

Definition updateRow {A} (id : nat) (f : A -> A) (t : Table A) : Table A :=
  mkTable (List.map (updated f id) (rows t)) (nextId t).

Definition deleteRow {A} (id : nat) (t : Table A) : Table A :=
  mkTable (List.filter (fun r => negb (fst r =? id)%nat) (rows t)) (nextId t).

(** Modelled from the spec: Track.hpp is not part of the sources.  A
    track has a file path, last-write timestamp, content checksum, title,
    track and disc numbers, duration, tag-derived date and a
    [scanVersion], and references one Artist and one Release; the setters
    called by [processAudioFile] give the remaining fields. *)
Record Track : Type := mkTrack {
  track_path : path;
  track_checksum : list Byte.byte;
  track_lastWriteTime : option ptime;
  track_name : string;
  track_genreList : string;
  track_genres : list nat;
  track_artist : nat;
  track_release : nat;
  track_trackNumber : N;
  track_discNumber : N;
  track_duration : Z;
  track_creationTime : option ptime;
  track_scanVersion : N
}.

(** The setters of [Track], one per field. *)
Definition setChecksum (c : list Byte.byte) (t : Track) : Track :=
  mkTrack (track_path t) c (track_lastWriteTime t) (track_name t)
    (track_genreList t) (track_genres t) (track_artist t) (track_release t)
    (track_trackNumber t) (track_discNumber t) (track_duration t)
    (track_creationTime t) (track_scanVersion t).

Definition setLastWriteTime (time : ptime) (t : Track) : Track :=
  mkTrack (track_path t) (track_checksum t) (Some time) (track_name t)
    (track_genreList t) (track_genres t) (track_artist t) (track_release t)
    (track_trackNumber t) (track_discNumber t) (track_duration t)
    (track_creationTime t) (track_scanVersion t).

Definition setName (name : string) (t : Track) : Track :=
  mkTrack (track_path t) (track_checksum t) (track_lastWriteTime t) name
    (track_genreList t) (track_genres t) (track_artist t) (track_release t)
    (track_trackNumber t) (track_discNumber t) (track_duration t)
    (track_creationTime t) (track_scanVersion t).

Definition setGenreList (genreList : string) (t : Track) : Track :=
  mkTrack (track_path t) (track_checksum t) (track_lastWriteTime t)
    (track_name t) genreList (track_genres t) (track_artist t)
    (track_release t) (track_trackNumber t) (track_discNumber t)
    (track_duration t) (track_creationTime t) (track_scanVersion t).

Definition setGenres (genres : list nat) (t : Track) : Track :=
  mkTrack (track_path t) (track_checksum t) (track_lastWriteTime t)
    (track_name t) (track_genreList t) genres (track_artist t)
    (track_release t) (track_trackNumber t) (track_discNumber t)
    (track_duration t) (track_creationTime t) (track_scanVersion t).

Definition setArtist (artist : nat) (t : Track) : Track :=
  mkTrack (track_path t) (track_checksum t) (track_lastWriteTime t)
    (track_name t) (track_genreList t) (track_genres t) artist
    (track_release t) (track_trackNumber t) (track_discNumber t)
    (track_duration t) (track_creationTime t) (track_scanVersion t).

Definition setRelease (release : nat) (t : Track) : Track :=
  mkTrack (track_path t) (track_checksum t) (track_lastWriteTime t)
    (track_name t) (track_genreList t) (track_genres t) (track_artist t)
    release (track_trackNumber t) (track_discNumber t) (track_duration t)
    (track_creationTime t) (track_scanVersion t).

Definition setTrackNumber (n : N) (t : Track) : Track :=
  mkTrack (track_path t) (track_checksum t) (track_lastWriteTime t)
    (track_name t) (track_genreList t) (track_genres t) (track_artist t)
    (track_release t) n (track_discNumber t) (track_duration t)
    (track_creationTime t) (track_scanVersion t).

Definition setDiscNumber (n : N) (t : Track) : Track :=
  mkTrack (track_path t) (track_checksum t) (track_lastWriteTime t)
    (track_name t) (track_genreList t) (track_genres t) (track_artist t)
    (track_release t) (track_trackNumber t) n (track_duration t)
    (track_creationTime t) (track_scanVersion t).

Definition setDuration (d : Z) (t : Track) : Track :=
  mkTrack (track_path t) (track_checksum t) (track_lastWriteTime t)
    (track_name t) (track_genreList t) (track_genres t) (track_artist t)
    (track_release t) (track_trackNumber t) (track_discNumber t) d
    (track_creationTime t) (track_scanVersion t).

Definition setCreationTime (time : ptime) (t : Track) : Track :=
  mkTrack (track_path t) (track_checksum t) (track_lastWriteTime t)
    (track_name t) (track_genreList t) (track_genres t) (track_artist t)
    (track_release t) (track_trackNumber t) (track_discNumber t)
    (track_duration t) (Some time) (track_scanVersion t).

(** Modelled from the spec: Track.cpp is not part of the sources.  A
    track is created when first observed, with its path, artist and
    release; every other field starts from its default. *)
Definition newTrack (file : path) (artist release : nat) : Track :=
  {| track_path := file;
     track_checksum := [];
     track_lastWriteTime := None;
     track_name := EmptyString;
     track_genreList := EmptyString;
     track_genres := [];
     track_artist := artist;
     track_release := release;
     track_trackNumber := 0;
     track_discNumber := 0;
     track_duration := 0;
     track_creationTime := None;
     track_scanVersion := 0 |}.

Record Db : Type := mkDb {
  tracks : Table Track;
  artists : Table string;
  releases : Table string;
  genres : Table string
}.

Definition emptyDb : Db := mkDb emptyTable emptyTable emptyTable emptyTable.

(** The three tables of named entities, addressed uniformly. *)
Inductive Named : Type :=
| ArtistT
| ReleaseT
| GenreT.

Definition namedTable (k : Named) (db : Db) : Table string :=
  match k with
  | ArtistT => artists db
  | ReleaseT => releases db
  | GenreT => genres db
  end.

Definition setNamedTable (k : Named) (t : Table string) (db : Db) : Db :=
  match k with
  | ArtistT => mkDb (tracks db) t (releases db) (genres db)
  | ReleaseT => mkDb (tracks db) (artists db) t (genres db)
  | GenreT => mkDb (tracks db) (artists db) (releases db) t
  end.

Definition setTracks (t : Table Track) (db : Db) : Db :=
  mkDb t (artists db) (releases db) (genres db).

(** Modelled from the spec: the name of the sentinel entity that stands
    for an unspecified artist, release or genre. *)
Definition noneName : string := "<None>".

(** *** What the scan sees of the outside *)

Inductive StreamType : Type :=
| Audio
| Video
| Subtitle.

Definition isAudio (s : StreamType) : bool :=
  match s with
  | Audio => true
  | _ => false
  end.

(** A [Transcode::InputMediaFile]: its elementary streams and
    [getDuration().total_seconds()]. *)
Record InputMediaFile : Type := mkInputMediaFile {
  streams : list StreamType;
  durationSeconds : Z
}.

Definition getAudioStreams (m : InputMediaFile) : list StreamType :=
  List.filter isAudio (streams m).

(** The [MetaData::Items] a parser returns: each recognized tag with a
    value of the type the scan casts it to. *)
Record Items : Type := mkItems {
  itemTitle : option string;
  itemArtist : option string;
  itemAlbum : option string;
  itemGenre : option (list string);
  itemTrackNumber : option N;
  itemDiscNumber : option N;
  itemDuration : option Z;
  itemCreationTime : option ptime
}.

Inductive FileStatus : Type :=
| StatusError
| FileNotFound
| RegularFile
| DirectoryFile
| OtherFile.

(** The filesystem and the collaborators; [None] stands for a call that
    throws. *)
Record World : Type := mkWorld {
  status : path -> FileStatus;
  last_write_time : path -> option Z;
  computeCrc : path -> option (list Byte.byte);
  parse : path -> option Items;
  openMedia : path -> option InputMediaFile
}.

Inductive ScanLine : Type :=
| SkippedLastWriteTime (file : path)
| SkippedChecksum (file : path)
| ParsingFile (file : path)
| SkippedNoAudioStream (file : path)
| SkippedDurationNull (file : path)
| AddingFile (file : path)
| UpdatingFile (file : path)
| GenreListLine (genreList : string)
| ExceptionWhileParsing (file : path) (e : exn)
| RemovingMissingFiles
| RemovingFile (file : path)
| RemovingMissingDone.

Inductive Event : Type :=
| Log (line : ScanLine)
| CallComputeCrc (file : path)
| CallParse (file : path)
| CallOpenMedia (file : path).

(** A [Wt::Dbo::ptr<Track>] that is not null: the id of the row, and the
    object as the query loaded it (the scan reads through a pointer only
    before it writes through it).  After [remove()] the pointer still
    tests as non-null, and what is written through it no longer reaches
    the database. *)
Record TrackPtr : Type := mkTrackPtr {
  ptr_id : nat;
  ptr_obj : Track;
  ptr_removed : bool
}.

Definition loaded (r : nat * Track) : TrackPtr :=
  mkTrackPtr (fst r) (snd r) false.

Definition MS : Type -> Type := M (Session Db Event).

Open Scope dbo_scope.

Definition orThrow {A} (what : string) (o : option A) : MS A :=
  match o with
  | Some a => ret a
  | None => throw (StdException what)
  end.

Definition whenSome {A} (o : option A) (k : A -> MS unit) : MS unit :=
  match o with
  | Some a => k a
  | None => ret tt
  end.

(** Modelled from the spec: Artist.cpp, Release.cpp and Genre.cpp are not
    part of the sources.  [getByName] looks the entity up by its name,
    [create] adds a row, and [getNone] is the shared sentinel, looked up
    and created on first use. *)
Definition Named_getByName (k : Named) (name : string) : MS (option nat) :=
  w <- getStore ;;
  ret (option_map fst (findRow (String.eqb name) (namedTable k w))).

(** Modelled from the spec: [create] of Artist.cpp, Release.cpp and
    Genre.cpp, which are not part of the sources; a row is added under the
    next id. *)
Definition Named_create (k : Named) (name : string) : MS nat :=
  w <- getStore ;;
  let '(id, t) := insertRow name (namedTable k w) in
  putStore (setNamedTable k t w) ;;;
  ret id.

(** Modelled from the spec: [getNone] of the same files; the sentinel is
    shared by all the tracks that lack the tag. *)
Definition Named_getNone (k : Named) : MS nat :=
  found <- Named_getByName k noneName ;;
  match found with
  | Some id => ret id
  | None => Named_create k noneName
  end.

(** Modelled from the spec: Track.cpp is not part of the sources.
    [getByPath] is the lookup by the (unique) file path, [getAll]
    enumerates the table, [create] adds a row. *)
Definition Track_getByPath (file : path) : MS (option TrackPtr) :=
  w <- getStore ;;
  ret (option_map loaded
         (findRow (fun t => String.eqb (track_path t) file) (tracks w))).

(** Modelled from the spec: [Track::getAll], not part of the sources. *)
Definition Track_getAll : MS (list TrackPtr) :=
  w <- getStore ;;
  ret (List.map loaded (rows (tracks w))).

(** Modelled from the spec: [Track::create], not part of the sources. *)
Definition Track_create (file : path) (artist release : nat) : MS TrackPtr :=
  w <- getStore ;;
  let '(id, t) := insertRow (newTrack file artist release) (tracks w) in
  putStore (setTracks t w) ;;;
  ret (loaded (id, newTrack file artist release)).

(** [track.modify()->f(...)] *)
Definition Track_modify (p : TrackPtr) (f : Track -> Track) : MS unit :=
  if ptr_removed p then ret tt
  else
    w <- getStore ;;
    putStore (setTracks (updateRow (ptr_id p) f (tracks w)) w).

(** [track.remove()]: the row goes, the pointer stays. *)
Definition Track_remove (p : TrackPtr) : MS TrackPtr :=
  w <- getStore ;;
  putStore (setTracks (deleteRow (ptr_id p) (tracks w)) w) ;;;
  ret (mkTrackPtr (ptr_id p) (ptr_obj p) true).

(** The loop that joins the genre names with a comma and a space. *)
Definition joinGenres (genreList : list string) : string :=
  fold_left
    (fun acc genre =>
       (if String.eqb acc EmptyString then acc else acc ++ ", ") ++ genre)
    genreList EmptyString.

Section WithWorld.
Variable W : World.

(** [boost::filesystem::exists] and [is_regular]: both throw when the
    status of the path cannot be read. *)
Definition fs_exists (p : path) : MS bool :=
  match status W p with
  | StatusError => throw (StdException "boost::filesystem::status")
  | FileNotFound => ret false
  | _ => ret true
  end.

Definition fs_is_regular (p : path) : MS bool :=
  match status W p with
  | StatusError => throw (StdException "boost::filesystem::status")
  | RegularFile => ret true
  | _ => ret false
  end.

(** The lookup-then-create of one named entity. *)
Definition getOrCreateNamed (k : Named) (name : string) : MS nat :=
  found <- Named_getByName k name ;;
  match found with
  | Some id => ret id
  | None => Named_create k name
  end.

(** [BOOST_FOREACH(const std::string& genre, genreList)], pushing the
    pointers onto [genres]. *)
Fixpoint resolveGenres (genreList : list string) : MS (list nat) :=
  match genreList with
  | [] => ret []
  | genre :: rest =>
      dbGenre <- getOrCreateNamed GenreT genre ;;
      others <- resolveGenres rest ;;
      ret (dbGenre :: others)
  end.

(** What follows the stream checks in [processAudioFile]: the resolution
    of artist, release and genres and the writing of the track. *)
Definition resolveTrack (file : path) (lastWriteTime : ptime)
    (checksum : list Byte.byte) (items : Items) (track : option TrackPtr)
  : MS unit :=
  let title :=
    match itemTitle items with
    | Some t => t
    | None => filename file
    end in
  artist <- match itemArtist items with
            | Some artistName => getOrCreateNamed ArtistT artistName
            | None => Named_getNone ArtistT
            end ;;
  release <- match itemAlbum items with
             | Some albumName => getOrCreateNamed ReleaseT albumName
             | None => Named_getNone ReleaseT
             end ;;
  let genreList :=
    match itemGenre items with
    | Some l => l
    | None => []
    end in
  genres <- resolveGenres genreList ;;
  genres <- match genres with
            | [] => none <- Named_getNone GenreT ;; ret [none]
            | _ => ret genres
            end ;;
  track <- match track with
           | None =>
               created <- Track_create file artist release ;;
               emit (Log (AddingFile file)) ;;;
               ret created
           | Some existing =>
               emit (Log (UpdatingFile file)) ;;;
               ret existing
           end ;;
  Track_modify track (setChecksum checksum) ;;;
  Track_modify track (setLastWriteTime lastWriteTime) ;;;
  Track_modify track (setName title) ;;;
  emit (Log (GenreListLine (joinGenres genreList))) ;;;
  Track_modify track (setGenreList (joinGenres genreList)) ;;;
  Track_modify track (setGenres genres) ;;;
  Track_modify track (setArtist artist) ;;;
  Track_modify track (setRelease release) ;;;
  whenSome (itemTrackNumber items)
    (fun n => Track_modify track (setTrackNumber n)) ;;;
  whenSome (itemDiscNumber items)
    (fun n => Track_modify track (setDiscNumber n)) ;;;
  whenSome (itemDuration items)
    (fun d => Track_modify track (setDuration d)) ;;;
  whenSome (itemCreationTime items)
    (fun t => Track_modify track (setCreationTime t)) ;;;
  commit.

(** The body of the [try] block of [processAudioFile], from the opening
    of the transaction on.  The branches that [return] have written
    nothing when the transaction object goes out of scope; the last one
    commits by hand. *)
Definition processAudioFileBody (file : path) (lastWriteTime : ptime)
  : MS unit :=
  track <- Track_getByPath file ;;
  if match track with
     | Some p =>
         ptime_eqb (track_lastWriteTime (ptr_obj p)) (Some lastWriteTime)
     | None => false
     end
  then
    emit (Log (SkippedLastWriteTime file))
  else
    emit (CallComputeCrc file) ;;;
    checksum <- orThrow "computeCrc" (computeCrc W file) ;;
    if match track with
       | Some p => checksum_eqb (track_checksum (ptr_obj p)) checksum
       | None => false
       end
    then
      emit (Log (SkippedChecksum file))
    else
      emit (Log (ParsingFile file)) ;;;
      emit (CallParse file) ;;;
      items <- orThrow "MetaData::Parser::parse" (parse W file) ;;
      emit (CallOpenMedia file) ;;;
      mediaFile <- orThrow "Transcode::InputMediaFile" (openMedia W file) ;;
      match getAudioStreams mediaFile with
      | [] => emit (Log (SkippedNoAudioStream file))
      | _ =>
          track <- (if (durationSeconds mediaFile =? 0)%Z then
                      emit (Log (SkippedDurationNull file)) ;;;
                      match track with
                      | Some p => removed <- Track_remove p ;; ret (Some removed)
                      | None => ret None
                      end
                    else ret track) ;;
          resolveTrack file lastWriteTime checksum items track
      end.

Definition processAudioFile (file : path) : MS unit :=
  tryCatch
    (lastWriteTime <- orThrow "boost::filesystem::last_write_time"
                        (last_write_time W file) ;;
     withTransaction (processAudioFileBody file lastWriteTime))
    (fun e => emit (Log (ExceptionWhileParsing file e))).

(** The loop of [removeMissingAudioFiles] over the tracks. *)
Fixpoint removeMissing (all : list TrackPtr) : MS unit :=
  match all with
  | [] => ret tt
  | i :: rest =>
      let p := track_path (ptr_obj i) in
      found <- fs_exists p ;;
      missing <- (if found : bool then
                    regular <- fs_is_regular p ;; ret (negb regular)
                  else ret true) ;;
      (if missing : bool then
         Track_remove i ;;;
         emit (Log (RemovingFile p))
       else ret tt) ;;;
      removeMissing rest
  end.

Definition removeMissingAudioFiles : MS unit :=
  emit (Log RemovingMissingFiles) ;;;
  withTransaction
    (all <- Track_getAll ;;
     removeMissing all ;;;
     commit) ;;;
  emit (Log RemovingMissingDone).

End WithWorld.

(** *** What the resolution computes

    The effect of the pieces of [resolveTrack] on the working copy of the
    store, as functions; the properties below relate them to the code
    above. *)

Definition pureGetOrCreate (k : Named) (name : string) (w : Db) : nat * Db :=
  match findRow (String.eqb name) (namedTable k w) with
  | Some r => (fst r, w)
  | None =>
      (nextId (namedTable k w),
       setNamedTable k (snd (insertRow name (namedTable k w))) w)
  end.

Fixpoint pureResolveGenres (genreList : list string) (w : Db)
  : list nat * Db :=
  match genreList with
  | [] => ([], w)
  | genre :: rest =>
      let r1 := pureGetOrCreate GenreT genre w in
      let r2 := pureResolveGenres rest (snd r1) in
      (fst r1 :: fst r2, snd r2)
  end.

Definition modifyDb (p : TrackPtr) (f : Track -> Track) (w : Db) : Db :=
  if ptr_removed p then w
  else setTracks (updateRow (ptr_id p) f (tracks w)) w.

Definition optSet {A} (o : option A) (f : A -> Track -> Track) (t : Track)
  : Track :=
  match o with
  | Some a => f a t
  | None => t
  end.

(** Everything [resolveTrack] writes through the track pointer. *)
Definition writeFields (lastWriteTime : ptime) (checksum : list Byte.byte)
    (title genreList : string) (genres : list nat) (artist release : nat)
    (items : Items) (t : Track) : Track :=
  optSet (itemCreationTime items) setCreationTime
    (optSet (itemDuration items) setDuration
       (optSet (itemDiscNumber items) setDiscNumber
          (optSet (itemTrackNumber items) setTrackNumber
             (setRelease release
                (setArtist artist
                   (setGenres genres
                      (setGenreList genreList
                         (setName title
                            (setLastWriteTime lastWriteTime
                               (setChecksum checksum t)))))))))).

Definition titleOf (file : path) (items : Items) : string :=
  match itemTitle items with
  | Some t => t
  | None => filename file
  end.

Definition genreListOf (items : Items) : list string :=
  match itemGenre items with
  | Some l => l
  | None => []
  end.

Definition nameOr (tag : option string) : string :=
  match tag with
  | Some name => name
  | None => noneName
  end.

(** The store after the artist, the release and the genres are resolved,
    with the ids found. *)
Definition pureResolveNames (items : Items) (w : Db)
  : nat * nat * list nat * Db :=
  let a := pureGetOrCreate ArtistT (nameOr (itemArtist items)) w in
  let r := pureGetOrCreate ReleaseT (nameOr (itemAlbum items)) (snd a) in
  let g := pureResolveGenres (genreListOf items) (snd r) in
  match fst g with
  | [] =>
      let n := pureGetOrCreate GenreT noneName (snd g) in
      (fst a, fst r, [fst n], snd n)
  | _ => (fst a, fst r, fst g, snd g)
  end.

Definition pureResolve (file : path) (lastWriteTime : ptime)
    (checksum : list Byte.byte) (items : Items) (track : option TrackPtr)
    (w : Db) : Db :=
  let '(artist, release, genres, w1) := pureResolveNames items w in
  let write :=
    writeFields lastWriteTime checksum (titleOf file items)
      (joinGenres (genreListOf items)) genres artist release items in
  match track with
  | None =>
      let created := insertRow (newTrack file artist release) (tracks w1) in
      setTracks (updateRow (fst created) write (snd created)) w1
  | Some p => modifyDb p write w1
  end.

(** The events [resolveTrack] adds to the trace. *)
Definition resolveEvents (file : path) (items : Items)
    (track : option TrackPtr) : list Event :=
  [ Log (match track with
         | None => AddingFile file
         | Some _ => UpdatingFile file
         end);
    Log (GenreListLine (joinGenres (genreListOf items))) ].

(** The row stored for a path, and the two tests of the change
    detection on it. *)
Definition stored (c : Db) (file : path) : option (nat * Track) :=
  findRow (fun t => String.eqb (track_path t) file) (tracks c).

Definition skipsOnTime (c : Db) (file : path) (lastWriteTime : ptime)
  : bool :=
  match stored c file with
  | Some r => ptime_eqb (track_lastWriteTime (snd r)) (Some lastWriteTime)
  | None => false
  end.

Definition skipsOnChecksum (c : Db) (file : path)
    (checksum : list Byte.byte) : bool :=
  match stored c file with
  | Some r => checksum_eqb (track_checksum (snd r)) checksum
  | None => false
  end.

Definition caught (file : path) (what : string) : Event :=
  Log (ExceptionWhileParsing file (StdException what)).

(** [processAudioFile] as a function from the committed store to the
    committed store and the events of the run. *)
Definition pureProcess (W : World) (file : path) (c : Db)
  : Db * list Event :=
  match last_write_time W file with
  | None => (c, [caught file "boost::filesystem::last_write_time"])
  | Some lastWriteTime =>
  if skipsOnTime c file lastWriteTime then
    (c, [Log (SkippedLastWriteTime file)])
  else
  match computeCrc W file with
  | None => (c, [CallComputeCrc file; caught file "computeCrc"])
  | Some checksum =>
  if skipsOnChecksum c file checksum then
    (c, [CallComputeCrc file; Log (SkippedChecksum file)])
  else
  let parsing :=
    [CallComputeCrc file; Log (ParsingFile file); CallParse file] in
  match parse W file with
  | None => (c, (parsing ++ [caught file "MetaData::Parser::parse"])%list)
  | Some items =>
  match openMedia W file with
  | None =>
      (c, (parsing ++ [CallOpenMedia file;
                       caught file "Transcode::InputMediaFile"])%list)
  | Some mediaFile =>
  match getAudioStreams mediaFile with
  | [] =>
      (c, (parsing ++ [CallOpenMedia file;
                       Log (SkippedNoAudioStream file)])%list)
  | _ =>
      let track := option_map loaded (stored c file) in
      if (durationSeconds mediaFile =? 0)%Z then
        let removed :=
          option_map (fun p => mkTrackPtr (ptr_id p) (ptr_obj p) true)
            track in
        let w :=
          match track with
          | Some p => setTracks (deleteRow (ptr_id p) (tracks c)) c
          | None => c
          end in
        (pureResolve file lastWriteTime checksum items removed w,
         (parsing ++ [CallOpenMedia file; Log (SkippedDurationNull file)]
          ++ resolveEvents file items removed)%list)
      else
        (pureResolve file lastWriteTime checksum items track c,
         (parsing ++ [CallOpenMedia file]
          ++ resolveEvents file items track)%list)
  end end end end end.

(** No two rows of a table of named entities carry the same name. *)
Definition uniqueNames (t : Table string) : Prop :=
  List.NoDup (List.map snd (rows t)).

Definition rowsNamed (name : string) (t : Table string)
  : list (nat * string) :=
  List.filter (fun r => String.eqb name (snd r)) (rows t).

(** Scanned against the store [c], the file gets as far as the
    resolution of its tags [items] and a track results: nothing throws,
    the change detection does not skip, there is an audio stream and the
    duration is not zero. *)
Definition resolves (W : World) (c : Db) (file : path) (items : Items)
  : Prop :=
  exists lastWriteTime checksum mediaFile,
    last_write_time W file = Some lastWriteTime /\
    computeCrc W file = Some checksum /\
    parse W file = Some items /\
    openMedia W file = Some mediaFile /\
    getAudioStreams mediaFile <> [] /\
    durationSeconds mediaFile <> 0%Z /\
    skipsOnTime c file lastWriteTime = false /\
    skipsOnChecksum c file checksum = false.

(** The events a run added to the trace. *)
Definition newEvents (before after : Session Db Event) : list Event :=
  skipn (length (trace before)) (trace after).

(** A run skipped the file: it neither parsed its metadata nor changed
    the store. *)
Definition skips (W : World) (s : Session Db Event) (file : path) : Prop :=
  let s' := snd (processAudioFile W file s) in
  ~ In (CallParse file) (newEvents s s') /\ committed s' = committed s.

(** The change detector as the specification words it: skip when the
    stored timestamp is the file's and the record's [scanVersion] is
    current, or when the checksum is unchanged and the [scanVersion] is
    current; [current] is the [scanVersion] of the scan settings. *)
Definition spec_skips (current : N) (record : Track)
    (lastWriteTime : ptime) (checksum : list Byte.byte) : bool :=
  (ptime_eqb (track_lastWriteTime record) (Some lastWriteTime)
   && (track_scanVersion record =? current)%N)
  || (checksum_eqb (track_checksum record) checksum
      && (track_scanVersion record =? current)%N).

(** The loop of [removeMissingAudioFiles] on the track table. *)
Definition isRegular (st : FileStatus) : bool :=
  match st with
  | RegularFile => true
  | _ => false
  end.

Definition pureRemoveMissing (W : World) (all : list (nat * Track))
    (t : Table Track) : Table Track :=
  fold_left
    (fun t r =>
       if isRegular (status W (track_path (snd r))) then t
       else deleteRow (fst r) t)
    all t.

(** A row survives the loop over [all] when no entry of [all] that is
    not a regular file carries its id. *)
Definition survives (W : World) (all : list (nat * Track))
    (r : nat * Track) : bool :=
  forallb
    (fun x => isRegular (status W (track_path (snd x)))
              || negb (fst r =? fst x)%nat)
    all.

(** Scanning the same file [n] times in a row. *)
Fixpoint rescans (W : World) (file : path) (n : nat)
    (s : Session Db Event) : Session Db Event :=
  match n with
  | O => s
  | S n' => snd (processAudioFile W file (rescans W file n' s))
  end.

(** The rows of [rs] whose path is an existing regular file. *)
Definition backed (W : World) (rs : list (nat * Track))
  : list (nat * Track) :=
  List.filter (fun r => isRegular (status W (track_path (snd r)))) rs.

(** *** Concrete files and stores *)

(** What the outside reports about one file. *)
Record FileEntry : Type := mkFileEntry {
  entry_path : path;
  entry_status : FileStatus;
  entry_time : Z;
  entry_crc : list Byte.byte;
  entry_items : Items;
  entry_media : InputMediaFile
}.

Definition entryOf (entries : list FileEntry) (p : path) : option FileEntry :=
  List.find (fun e => String.eqb (entry_path e) p) entries.

(** A world made of the listed files; every other path does not exist. *)
Definition worldOf (entries : list FileEntry) : World :=
  {| status := fun p => match entryOf entries p with
                        | Some e => entry_status e
                        | None => FileNotFound
                        end;
     last_write_time := fun p => option_map entry_time (entryOf entries p);
     computeCrc := fun p => option_map entry_crc (entryOf entries p);
     parse := fun p => option_map entry_items (entryOf entries p);
     openMedia := fun p => option_map entry_media (entryOf entries p) |}.

Definition noItems : Items :=
  mkItems None None None None None None None None.

Definition songPath : path := "/music/song.mp3".
Definition otherPath : path := "/music/other.mp3".

(** A file with one audio stream whose probed duration is zero. *)
Definition zeroDurationFile : FileEntry :=
  mkFileEntry songPath RegularFile 200 [Byte.x02] noItems
    (mkInputMediaFile [Audio] 0).

(** A file without any audio stream. *)
Definition noAudioFile : FileEntry :=
  mkFileEntry songPath RegularFile 200 [Byte.x02] noItems
    (mkInputMediaFile [Video] 60).

(** The stored file, untouched since the scan that stored it. *)
Definition unchangedFile : FileEntry :=
  mkFileEntry songPath RegularFile 100 [Byte.x01] noItems
    (mkInputMediaFile [Audio] 180).

(** The stored file touched, its content unchanged. *)
Definition touchedFile : FileEntry :=
  mkFileEntry songPath RegularFile 200 [Byte.x01] noItems
    (mkInputMediaFile [Audio] 180).

(** A playable file tagged with a title and an artist only. *)
Definition taggedFile : FileEntry :=
  mkFileEntry songPath RegularFile 200 [Byte.x02]
    (mkItems (Some "Song") (Some "Band") None None None None None None)
    (mkInputMediaFile [Audio] 180).

Definition otherTaggedFile : FileEntry :=
  mkFileEntry otherPath RegularFile 300 [Byte.x03]
    (mkItems (Some "Other") (Some "Band") (Some "Album") (Some ["Rock"])
       (Some 2%N) None None None)
    (mkInputMediaFile [Audio] 240).

(** The track an earlier scan stored for [songPath]: written at time
    100, with track number 7. *)
Definition storedTrack : Track :=
  {| track_path := songPath;
     track_checksum := [Byte.x01];
     track_lastWriteTime := Some 100%Z;
     track_name := "Old title";
     track_genreList := "Rock";
     track_genres := [1];
     track_artist := 1;
     track_release := 1;
     track_trackNumber := 7;
     track_discNumber := 1;
     track_duration := 180;
     track_creationTime := Some 50%Z;
     track_scanVersion := 0 |}.

Definition storedDb : Db :=
  {| tracks := mkTable [(1, storedTrack)] 2;
     artists := mkTable [(1, "Band")] 2;
     releases := mkTable [(1, "Album")] 2;
     genres := mkTable [(1, "Rock")] 2 |}.

Definition unchangedWorld : World := worldOf [unchangedFile].
Definition touchedWorld : World := worldOf [touchedFile].
Definition taggedWorld : World := worldOf [taggedFile].
Definition twoFilesWorld : World := worldOf [taggedFile; otherTaggedFile].
Definition zeroDurationWorld : World := worldOf [zeroDurationFile].
Definition noAudioWorld : World := worldOf [noAudioFile].

(** A world in which only the other file exists. *)
Definition otherOnlyWorld : World := worldOf [otherTaggedFile].

(** The stored track next to a track for the other file. *)
Definition twoTracksDb : Db :=
  mkDb (mkTable [(1, storedTrack); (2, newTrack otherPath 1 1)] 3)
    (artists storedDb) (releases storedDb) (genres storedDb).

End Scanner.

(** ** What the migration steps leave (Migration.cpp) *)

Module MigrationSteps.
Import Migration.

(** *** What the steps do to the scan settings *)

(** The versions whose step calls [incScanVersion]. *)
Definition forcesRescan (version : Version) : bool :=
  existsb (N.eqb version)
    [6; 8; 11; 12; 13; 14; 16; 17; 21; 22; 23; 25; 26; 27; 29; 30]%N.


(** The scan settings after the step of one version. *)
Definition settingsStep (version : Version) (st : ScanSettings)
  : ScanSettings :=
  if forcesRescan version then incScanVersion st
  else if (version =? 10)%N then
    addAudioFileExtension ".alac" (addAudioFileExtension ".m4b" st)
  else st.

(** The versions [from], [from + 1], ... below [to], whose steps a
    migration from [from] to [to] takes. *)
Definition stepsBetween (from to : Version) : list Version :=
  List.map (fun i => (from + N.of_nat i)%N) (seq 0 (N.to_nat (to - from))).

Definition settingsAfter (steps : list Version) (st : ScanSettings)
  : ScanSettings :=
  fold_left (fun st version => settingsStep version st) steps st.

Definition rescansBetween (from to : Version) : N :=
  N.of_nat (length (List.filter forcesRescan (stepsBetween from to))).

Section Triples.
Context {SqlDb : Type}.

(** Partial correctness inside a transaction: started on a working copy
    that satisfies [P], a run of [m] that ends normally is still inside
    the transaction, with the committed store and the pragma untouched,
    and its result and working copy satisfy [Q]. *)
Definition triple {A} (P : Store SqlDb -> Prop) (m : @MM SqlDb A)
    (Q : A -> Store SqlDb -> Prop) : Prop :=
  forall c w fk tr a s',
    P w -> m (inTx c w fk tr) = (Ok a, s') ->
    exists w' tr', s' = inTx c w' fk tr' /\ Q a w'.

End Triples.

(** Stores to run single cases on: one that holds the target version,
    one without a version record, one with two of them, and one at
    version 6, whose step only touches the scan settings. *)
Definition storeCurrent : Store (gmap string (list string)) :=
  mkStore [mkVersionInfo 32%N] [mkScanSettings 16%N {[ ".mp3" ]}] schemaV5.

Definition storeFresh : Store (gmap string (list string)) :=
  mkStore [] [mkScanSettings 0%N {[ ".mp3" ]}] schemaV5.

Definition storeTwoVersions : Store (gmap string (list string)) :=
  mkStore [mkVersionInfo 31%N; mkVersionInfo 32%N]
    [mkScanSettings 0%N {[ ".mp3" ]}] schemaV5.



End MigrationSteps.

(** ** What a store keeps *)

Module Consistency.
Import Scanner.

(** Ids are given once: no two rows of a table share one, and every id
    in use lies below the next one to be given. *)
Definition distinctIds {A} (t : Table A) : Prop :=
  List.NoDup (List.map fst (rows t)) /\
  Forall (fun r => (fst r < nextId t)%nat) (rows t).

(** No two tracks are stored for one path. *)
Definition onePerPath (t : Table Track) : Prop :=
  List.NoDup (List.map (fun r => track_path (snd r)) (rows t)).

(** The tables of named entities: ids given once, names given once. *)
Definition namedOk (c : Db) : Prop :=
  forall k, distinctIds (namedTable k c) /\ uniqueNames (namedTable k c).

Definition wellFormed (c : Db) : Prop :=
  distinctIds (tracks c) /\ onePerPath (tracks c) /\ namedOk c.

(** A row with the id exists. *)
Definition hasId {A} (id : nat) (t : Table A) : Prop :=
  In id (List.map fst (rows t)).

(** The references of a track lead somewhere: its artist, its release
    and each of its genres are rows of the store, and it has a genre. *)
Definition resolved (c : Db) (t : Track) : Prop :=
  hasId (track_artist t) (artists c) /\
  hasId (track_release t) (releases c) /\
  track_genres t <> [] /\
  Forall (fun g => hasId g (genres c)) (track_genres t).

Definition referencesResolved (c : Db) : Prop :=
  forall r, In r (rows (tracks c)) -> resolved c (snd r).

(** A table that only gained rows, at its end. *)
Definition extends {A} (t t' : Table A) : Prop :=
  exists extra, rows t' = (rows t ++ extra)%list.

End Consistency.

(** ** The library refresh (Database.cpp) *)

Module Library.
Import Scanner.

(** *** Watched directories *)

(** Modelled from the spec: WatchedDirectory is declared in a header that
    is not part of the sources.  A watched root is a path with the kind
    of media looked for under it; [refresh] dispatches on the kinds
    [WatchedDirectory::Audio] and [WatchedDirectory::Video], and asserts
    that there is no other. *)
Inductive WatchedType : Type :=
| WatchedAudio
| WatchedVideo.

Record WatchedDirectory : Type := mkWatchedDirectory {
  getPath : path;
  getType : WatchedType
}.

Section Watched.
(** [operator==] on watched directories, which [std::find] applies to
    each element in turn; it is declared with the class. *)
Variable same : WatchedDirectory -> WatchedDirectory -> bool.

(** [_directories.push_back(directory)] *)
Definition watchDirectory (directory : WatchedDirectory)
    (_directories : list WatchedDirectory) : list WatchedDirectory :=
  (_directories ++ [directory])%list.

(** [std::find] from the front, then [erase] of what it found. *)
Fixpoint unwatchDirectory (directory : WatchedDirectory)
    (_directories : list WatchedDirectory) : list WatchedDirectory :=
  match _directories with
  | [] => []
  | it :: rest =>
      if same it directory then rest
      else it :: unwatchDirectory directory rest
  end.
End Watched.

(** *** The store with its video side *)

(** Modelled from the spec: Path and Video are declared in headers that
    are not part of the sources.  A Path mirrors a filesystem entry,
    directory or file, and may have a parent; a Video belongs to the Path
    of its file. *)
Record Path : Type := mkPath {
  path_filePath : path;
  path_isDirectory : bool;
  path_parent : option nat;
  path_lastWriteTime : option ptime
}.

Record Video : Type := mkVideo {
  video_path : nat;
  video_name : string;
  video_duration : Z
}.

Definition setParent (parent : nat) (p : Path) : Path :=
  mkPath (path_filePath p) (path_isDirectory p) (Some parent)
    (path_lastWriteTime p).

Definition setPathLastWriteTime (time : ptime) (p : Path) : Path :=
  mkPath (path_filePath p) (path_isDirectory p) (path_parent p) (Some time).

Definition setVideoName (name : string) (v : Video) : Video :=
  mkVideo (video_path v) name (video_duration v).

Definition setVideoDuration (d : Z) (v : Video) : Video :=
  mkVideo (video_path v) (video_name v) d.

(** Everything the one session of the database holds. *)
Record Library : Type := mkLibrary {
  audio : Db;
  paths : Table Path;
  videos : Table Video
}.

Definition emptyLibrary : Library := mkLibrary emptyDb emptyTable emptyTable.

Definition setAudio (a : Db) (l : Library) : Library :=
  mkLibrary a (paths l) (videos l).

Definition setPaths (t : Table Path) (l : Library) : Library :=
  mkLibrary (audio l) t (videos l).

Definition setVideos (t : Table Video) (l : Library) : Library :=
  mkLibrary (audio l) (paths l) t.

(** The lines the walks and [processVideoFile] write; the lines whose
    text [processAudioFile] writes too are the [ScanLine]s. *)
Inductive RefreshLine : Type :=
| RefreshingAudioDirectory (p : path)
| RefreshingAudioDirectoryDone (p : path)
| RefreshingVideoDirectory (p : path)
| RefreshingVideoDirectoryDone (p : path)
| SkippedNotRegular (file : path)
| ExceptionWhileAccessing (file : path) (e : exn)
| VideoParsingFile (file : path)
| SkippedNoVideoStream (file : path)
| ExceptionWhileParsingVideo (file : path) (e : exn).

Inductive LibEvent : Type :=
| Scan (e : Event)
| Refresh (line : RefreshLine).

Definition ML : Type -> Type := M (Session Library LibEvent).

(** How a walk ends when nothing is thrown: it went through, or the
    model ran out of [fuel] for the depth of the tree, or an assertion
    failed and the program stopped there. *)
Inductive Outcome : Type :=
| Finished
| OutOfFuel
| Aborted.

Open Scope dbo_scope.

(** A procedure of the scan, which opens its own transaction on the
    audio tables, run in the session of the library: it sees the audio
    side of the store, and what it commits, leaves open and traces
    becomes the audio side of the library's. *)
Definition liftScan {A} (m : MS A) : ML A :=
  fun s =>
    let '(r, s') :=
      m (mkSession (audio (committed s)) (option_map audio (transaction s))
           (foreignKeys s) []) in
    (r,
     mkSession (setAudio (committed s') (committed s))
       (option_map
          (fun w' => setAudio w' match transaction s with
                                 | Some w => w
                                 | None => committed s
                                 end)
          (transaction s'))
       (foreignKeys s')
       (trace s ++ List.map Scan (trace s'))%list).

(** [BOOST_FOREACH] over the entries of a directory, left when the
    program stops. *)
Fixpoint forEach {St A} (body : A -> M St Outcome) (l : list A)
  : M St Outcome :=
  match l with
  | [] => ret Finished
  | a :: rest =>
      r <- body a ;;
      match r with
      | Finished => forEach body rest
      | _ => ret r
      end
  end.

Definition isVideo (s : StreamType) : bool :=
  match s with
  | Scanner.Video => true
  | _ => false
  end.

Definition getVideoStreams (m : InputMediaFile) : list StreamType :=
  List.filter isVideo (streams m).

Section WithWorld.
Variable W : World.

(** [boost::filesystem::directory_iterator(p)] copied into a vector:
    the entries of the directory, or [None] when they cannot be read. *)
Variable directory_iterator : path -> option (list path).

(** [path.parent_path()], or [None] when [has_parent_path()] is
    false. *)
Variable parent_path : path -> option path.

(** Whether assertions are compiled in ([NDEBUG] not defined). *)
Variable assertions : bool.

(** [boost::filesystem::exists], [is_directory] and [is_regular]: all
    three throw when the status of the path cannot be read. *)
Definition exists_ {St} (p : path) : M St bool :=
  match status W p with
  | StatusError => throw (StdException "boost::filesystem::status")
  | FileNotFound => ret false
  | _ => ret true
  end.

Definition is_directory {St} (p : path) : M St bool :=
  match status W p with
  | StatusError => throw (StdException "boost::filesystem::status")
  | DirectoryFile => ret true
  | _ => ret false
  end.

Definition is_regular {St} (p : path) : M St bool :=
  match status W p with
  | StatusError => throw (StdException "boost::filesystem::status")
  | RegularFile => ret true
  | _ => ret false
  end.

Definition listDirectory {St} (p : path) : M St (list path) :=
  match directory_iterator p with
  | Some files => ret files
  | None => throw (StdException "boost::filesystem::directory_iterator")
  end.

(** [Database::refreshAudioDirectory], the recursion unrolled at most
    [fuel] deep. *)
Fixpoint refreshAudioDirectory (fuel : nat) (p : path) : ML Outcome :=
  match fuel with
  | O => ret OutOfFuel
  | S fuel' =>
      emit (Refresh (RefreshingAudioDirectory p)) ;;;
      found <- exists_ p ;;
      isDirectory <- (if found : bool then is_directory p else ret false) ;;
      r <- (if isDirectory : bool then
              files <- listDirectory p ;;
              forEach
                (fun file =>
                   tryCatch
                     (isDirectory <- is_directory file ;;
                      if isDirectory : bool then
                        refreshAudioDirectory fuel' file
                      else
                        isRegular <- is_regular file ;;
                        if isRegular : bool then
                          liftScan (processAudioFile W file) ;;;
                          ret Finished
                        else
                          emit (Refresh (SkippedNotRegular file)) ;;;
                          ret Finished)
                     (fun e =>
                        emit (Refresh (ExceptionWhileAccessing file e)) ;;;
                        ret Finished))
                files
            else ret Finished) ;;
      match r with
      | Finished =>
          emit (Refresh (RefreshingAudioDirectoryDone p)) ;;;
          ret Finished
      | _ => ret r
      end
  end.

(** *** Paths and videos *)

(** Modelled from the spec: Path.cpp and Video.cpp are not part of the
    sources.  [Path::getByPath] looks a node up by its path; a pointer
    to a node is its id, and reading through it reads the row. *)
Definition Path_getByPath (p : path) : ML (option nat) :=
  w <- getStore ;;
  ret (option_map fst
         (findRow (fun r => String.eqb (path_filePath r) p) (paths w))).

Definition Path_read (id : nat) : ML Path :=
  w <- getStore ;;
  match List.find (fun r => (fst r =? id)%nat) (rows (paths w)) with
  | Some r => ret (snd r)
  | None => throw (StdException "Wt::Dbo::ptr: stale object")
  end.

(** Modelled from the spec: [Path::create] registers a node that mirrors
    the filesystem entry, a directory or a file, under its parent if it
    has one. *)
Definition Path_create (p : path) (parent : option nat) : ML nat :=
  isDirectory <- is_directory p ;;
  w <- getStore ;;
  let '(id, t) := insertRow (mkPath p isDirectory parent None) (paths w) in
  putStore (setPaths t w) ;;;
  ret id.

(** Modelled from the spec: [parent.modify()->addChild(child)] makes the
    child subordinate to the parent. *)
Definition Path_addChild (parent child : nat) : ML unit :=
  w <- getStore ;;
  putStore (setPaths (updateRow child (setParent parent) (paths w)) w).

Definition Path_setLastWriteTime (id : nat) (time : ptime) : ML unit :=
  w <- getStore ;;
  putStore (setPaths (updateRow id (setPathLastWriteTime time) (paths w)) w).

(** Modelled from the spec: the Video of a Path is the one that
    references it. *)
Definition Path_getVideo (id : nat) : ML (option nat) :=
  w <- getStore ;;
  ret (option_map fst
         (findRow (fun v => (video_path v =? id)%nat) (videos w))).

(** The ids of the nodes that go with the nodes [ids]: their children,
    and the children of those, [fuel] levels down. *)
Fixpoint cascade (fuel : nat) (ids : list nat) (rs : list (nat * Path))
  : list nat :=
  match fuel with
  | O => ids
  | S fuel' =>
      cascade fuel'
        (ids ++ List.map fst
                  (List.filter
                     (fun r => match path_parent (snd r) with
                               | Some parent => existsb (Nat.eqb parent) ids
                               | None => false
                               end)
                     rs))%list
        rs
  end.

(** Modelled from the spec: deleting a node cascades to the nodes below
    it and to the videos that belong to any of them. *)
Definition withoutPath (id : nat) (w : Library) : Library :=
  let doomed := cascade (length (rows (paths w))) [id] (rows (paths w)) in
  mkLibrary (audio w)
    (mkTable
       (List.filter (fun r => negb (existsb (Nat.eqb (fst r)) doomed))
          (rows (paths w)))
       (nextId (paths w)))
    (mkTable
       (List.filter
          (fun v => negb (existsb (Nat.eqb (video_path (snd v))) doomed))
          (rows (videos w)))
       (nextId (videos w))).

Definition Path_remove (id : nat) : ML unit :=
  w <- getStore ;;
  putStore (withoutPath id w).

(** Modelled from the spec: [Video::create] adds the video of a path;
    its name and duration are set right after. *)
Definition Video_create (dbPath : nat) : ML nat :=
  w <- getStore ;;
  let '(id, t) := insertRow (mkVideo dbPath EmptyString 0) (videos w) in
  putStore (setVideos t w) ;;;
  ret id.

Definition Video_modify (id : nat) (f : Video -> Video) : ML unit :=
  w <- getStore ;;
  putStore (setVideos (updateRow id f (videos w)) w).

(** [Database::getAddPath] *)
Definition getAddPath (p : path) : ML nat :=
  parentDirectory <- match parent_path p with
                     | Some parent => Path_getByPath parent
                     | None => ret None
                     end ;;
  res <- Path_getByPath p ;;
  match res with
  | None => Path_create p parentDirectory
  | Some res =>
      node <- Path_read res ;;
      match parentDirectory, path_parent node with
      | Some parent, None => Path_addChild parent res
      | _, _ => ret tt
      end ;;;
      ret res
  end.

(** The body of the [try] block of [processVideoFile], from the opening
    of the transaction on. *)
Definition processVideoFileBody (file : path) (lastWriteTime : ptime)
  : ML unit :=
  dbPath <- Path_getByPath file ;;
  same <- match dbPath with
          | Some id =>
              node <- Path_read id ;;
              ret (ptime_eqb (path_lastWriteTime node) (Some lastWriteTime))
          | None => ret false
          end ;;
  if same : bool then
    emit (Scan (Log (SkippedLastWriteTime file)))
  else
    emit (Refresh (VideoParsingFile file)) ;;;
    emit (Scan (CallOpenMedia file)) ;;;
    mediaFile <- match openMedia W file with
                 | Some m => ret m
                 | None => throw (StdException "Transcode::InputMediaFile")
                 end ;;
    match getVideoStreams mediaFile with
    | [] =>
        emit (Refresh (SkippedNoVideoStream file)) ;;;
        match dbPath with
        | Some id => Path_remove id
        | None => ret tt
        end
    | _ =>
        if (durationSeconds mediaFile =? 0)%Z then
          emit (Scan (Log (SkippedDurationNull file))) ;;;
          match dbPath with
          | Some id => Path_remove id
          | None => ret tt
          end
        else
          dbPath <- match dbPath with
                    | Some id => ret id
                    | None => getAddPath file
                    end ;;
          Path_setLastWriteTime dbPath lastWriteTime ;;;
          video <- Path_getVideo dbPath ;;
          video <- match video with
                   | None =>
                       created <- Video_create dbPath ;;
                       emit (Scan (Log (AddingFile file))) ;;;
                       ret created
                   | Some existing =>
                       emit (Scan (Log (UpdatingFile file))) ;;;
                       ret existing
                   end ;;
          Video_modify video (setVideoName (filename file)) ;;;
          Video_modify video (setVideoDuration (durationSeconds mediaFile))
    end ;;;
    commit.

(** [Database::processVideoFile] *)
Definition processVideoFile (file : path) : ML unit :=
  tryCatch
    (lastWriteTime <- match last_write_time W file with
                      | Some t => ret t
                      | None =>
                          throw (StdException
                                   "boost::filesystem::last_write_time")
                      end ;;
     withTransaction (processVideoFileBody file lastWriteTime))
    (fun e => emit (Refresh (ExceptionWhileParsingVideo file e))).

(** The block of [refreshVideoDirectory] that registers the directory,
    in its own transaction.  When the assertion fails the program stops:
    nothing of the transaction is committed. *)
Definition registerDirectory (p : path) : ML Outcome :=
  withTransaction
    (pathDirectory <- getAddPath p ;;
     node <- Path_read pathDirectory ;;
     if assertions && negb (path_isDirectory node) then
       modify rollback_ ;;;
       ret Aborted
     else
       commit ;;;
       ret Finished).

(** [Database::refreshVideoDirectory], the recursion unrolled at most
    [fuel] deep. *)
Fixpoint refreshVideoDirectory (fuel : nat) (p : path) : ML Outcome :=
  match fuel with
  | O => ret OutOfFuel
  | S fuel' =>
      emit (Refresh (RefreshingVideoDirectory p)) ;;;
      found <- exists_ p ;;
      isDirectory <- (if found : bool then is_directory p else ret false) ;;
      r <- (if isDirectory : bool then
              registered <- registerDirectory p ;;
              match registered with
              | Finished =>
                  pathChildren <- listDirectory p ;;
                  forEach
                    (fun pathChild =>
                       isDirectory <- is_directory pathChild ;;
                       if isDirectory : bool then
                         refreshVideoDirectory fuel' pathChild
                       else
                         isRegular <- is_regular pathChild ;;
                         if isRegular : bool then
                           processVideoFile pathChild ;;;
                           ret Finished
                         else
                           emit (Refresh (SkippedNotRegular pathChild)) ;;;
                           ret Finished)
                    pathChildren
              | _ => ret registered
              end
            else ret Finished) ;;
      match r with
      | Finished =>
          emit (Refresh (RefreshingVideoDirectoryDone p)) ;;;
          ret Finished
      | _ => ret r
      end
  end.

(** [Database::refresh]: the reconciler, then the walk of each watched
    directory in turn.  The [default] branch of the [switch] asserts
    that a directory is of one of the two kinds. *)
Definition refresh (fuel : nat) (_directories : list WatchedDirectory)
  : ML Outcome :=
  liftScan (removeMissingAudioFiles W) ;;;
  forEach
    (fun directory =>
       match getType directory with
       | WatchedAudio => refreshAudioDirectory fuel (getPath directory)
       | WatchedVideo => refreshVideoDirectory fuel (getPath directory)
       end)
    _directories.

(** *** What the audio walk visits *)

(** The files the walk of [p] hands to [processAudioFile], in order:
    the regular files below [p], a directory being walked where it
    stands among the entries of its parent; a directory whose entries
    cannot be read contributes nothing. *)
Fixpoint audioFiles (fuel : nat) (p : path) : list path :=
  match fuel with
  | O => []
  | S fuel' =>
      match status W p, directory_iterator p with
      | DirectoryFile, Some files =>
          flat_map
            (fun file =>
               match status W file with
               | DirectoryFile => audioFiles fuel' file
               | RegularFile => [file]
               | _ => []
               end)
            files
      | _, _ => []
      end
  end.

(** [fuel] covers the depth of the tree below [p]. *)
Fixpoint fuelSuffices (fuel : nat) (p : path) : bool :=
  match fuel with
  | O => false
  | S fuel' =>
      match status W p, directory_iterator p with
      | DirectoryFile, Some files =>
          forallb
            (fun file =>
               match status W file with
               | DirectoryFile => fuelSuffices fuel' file
               | _ => true
               end)
            files
      | _, _ => true
      end
  end.

(** The root of a walk can be checked and listed. *)
Definition rootReadable (p : path) : bool :=
  match status W p, directory_iterator p with
  | StatusError, _ => false
  | DirectoryFile, None => false
  | _, _ => true
  end.

(** How the walk of [p] ends, whatever lies below [p]. *)
Definition walkResult (p : path) : Result Outcome :=
  match status W p, directory_iterator p with
  | StatusError, _ => Throw (StdException "boost::filesystem::status")
  | DirectoryFile, None =>
      Throw (StdException "boost::filesystem::directory_iterator")
  | _, _ => Ok Finished
  end.

(** The node registered for a path, and the node registered for the
    parent of a path, if any. *)
Definition registered (c : Library) (p : path) : option (nat * Path) :=
  findRow (fun r => String.eqb (path_filePath r) p) (paths c).

Definition registeredParent (c : Library) (p : path) : option nat :=
  match parent_path p with
  | Some parent => option_map fst (registered c parent)
  | None => None
  end.

(** The video that belongs to a node. *)
Definition videoOf (c : Library) (id : nat) : option (nat * Video) :=
  findRow (fun v => (video_path v =? id)%nat) (videos c).

End WithWorld.

(** A procedure that works inside the open transaction: it leaves what
    is committed, the foreign-key setting and the audio side alone, and
    only adds to the trace. *)
Definition keeps {A} (m : ML A) : Prop :=
  forall c w fk tr, exists r w' tr',
    m (inTx c w fk tr) = (r, inTx c w' fk (tr ++ tr')%list)
    /\ audio w' = audio w.

(** A procedure that ends the transaction or leaves it open: when it
    returns, what is or will be committed has the audio side it started
    from; when it throws, nothing was committed. *)
Definition settles {A} (m : ML A) : Prop :=
  forall c w fk tr, exists r s' tr',
    m (inTx c w fk tr) = (r, s')
    /\ foreignKeys s' = fk
    /\ trace s' = (tr ++ tr')%list
    /\ match r with
       | Ok _ => audio (committed (commit_ s')) = audio w
       | Throw _ => committed s' = c
       end.

(** The audio side of a library after the files were scanned in turn. *)
Definition scanned (W : World) (files : list path) (c : Db) : Db :=
  fold_left (fun c file => fst (pureProcess W file c)) files c.

(** *** A directory tree to walk

    [/music] holds a song, a directory that cannot be listed, a special
    file and another song. *)
Definition musicDir : path := "/music".
Definition lockedDir : path := "/music/locked".
Definition fifoPath : path := "/music/fifo".
Definition moviePath : path := "/music/movie.mkv".

Definition directoryEntry (p : path) : FileEntry :=
  mkFileEntry p DirectoryFile 0 [] noItems (mkInputMediaFile [] 0).

Definition treeWorld : World :=
  worldOf [ taggedFile; otherTaggedFile; directoryEntry musicDir;
            directoryEntry lockedDir;
            mkFileEntry fifoPath OtherFile 0 [] noItems
              (mkInputMediaFile [] 0) ].

Definition treeListing (p : path) : option (list path) :=
  if String.eqb p musicDir
  then Some [songPath; lockedDir; fifoPath; otherPath]
  else None.

(** A directory with an entry whose status cannot be read. *)
Definition brokenWorld : World :=
  worldOf [ directoryEntry musicDir;
            mkFileEntry fifoPath StatusError 0 [] noItems
              (mkInputMediaFile [] 0);
            taggedFile ].

Definition brokenListing (p : path) : option (list path) :=
  if String.eqb p musicDir then Some [fifoPath; songPath] else None.

(** A film, and the same path once it holds no video stream any more. *)
Definition movieWorld : World :=
  worldOf [ mkFileEntry moviePath RegularFile 400 [] noItems
              (mkInputMediaFile [Scanner.Video; Audio] 5400) ].

Definition noMovieWorld : World :=
  worldOf [ mkFileEntry moviePath RegularFile 500 [] noItems
              (mkInputMediaFile [Audio] 5400) ].

Definition parentOf (p : path) : option path :=
  if String.eqb p moviePath then Some musicDir else None.

(** The library after the film was stored. *)
Definition movieLibrary : Library :=
  mkLibrary emptyDb
    (mkTable [(1, mkPath moviePath false None (Some 400%Z))] 2)
    (mkTable [(1, mkVideo 1 "movie.mkv" 5400)] 2).

(** Watched directories told apart by their path and kind. *)
Definition sameDirectory (a b : WatchedDirectory) : bool :=
  String.eqb (getPath a) (getPath b)
  && match getType a, getType b with
     | WatchedAudio, WatchedAudio => true
     | WatchedVideo, WatchedVideo => true
     | _, _ => false
     end.

Definition musicWatched : WatchedDirectory :=
  mkWatchedDirectory musicDir WatchedAudio.

Definition filmsWatched : WatchedDirectory :=
  mkWatchedDirectory "/films" WatchedVideo.

(** A world whose files can be looked at but not opened as media. *)
Definition unopenableWorld : World :=
  {| status := fun _ => RegularFile;
     last_write_time := fun _ => Some 500%Z;
     computeCrc := fun _ => None;
     parse := fun _ => None;
     openMedia := fun _ => None |}.

(** The library with the film and a track. *)
Definition filmAndSongLibrary : Library := setAudio storedDb movieLibrary.

(** Two watched directories: [/more] with one song, [/music] with two;
    and a library that holds a track for the first song of [/music] and
    a track whose file is gone. *)
Definition moreDir : path := "/more".
Definition thirdPath : path := "/more/third.mp3".
Definition gonePath : path := "/music/gone.mp3".

Definition thirdTaggedFile : FileEntry :=
  mkFileEntry thirdPath RegularFile 400 [Byte.x04]
    (mkItems (Some "Third") (Some "Band") None None None None None None)
    (mkInputMediaFile [Audio] 200).

Definition twoDirsWorld : World :=
  worldOf [ taggedFile; otherTaggedFile; thirdTaggedFile;
            directoryEntry musicDir; directoryEntry moreDir ].

Definition twoDirsListing (p : path) : option (list path) :=
  if String.eqb p musicDir then Some [songPath; otherPath]
  else if String.eqb p moreDir then Some [thirdPath]
  else None.

Definition moreWatched : WatchedDirectory :=
  mkWatchedDirectory moreDir WatchedAudio.

Definition staleLibrary : Library :=
  setAudio
    (mkDb (mkTable [(1, storedTrack); (2, newTrack gonePath 1 1)] 3)
       (artists storedDb) (releases storedDb) (genres storedDb))
    emptyLibrary.

(** A library with a track whose path cannot be checked. *)
Definition unreadableWorld : World :=
  worldOf [ mkFileEntry songPath StatusError 0 [] noItems
              (mkInputMediaFile [] 0);
            directoryEntry musicDir ].

End Library.

(** * Properties *)

Open Scope list_scope.

(** ** The effect monad *)

Lemma bind_ok {St A B} (m : M St A) (k : A -> M St B) s a s' :
  m s = (Ok a, s') -> bind m k s = k a s'.
Proof. intros H. unfold bind. now rewrite H. Qed.

Lemma bind_throw {St A B} (m : M St A) (k : A -> M St B) s e s' :
  m s = (Throw e, s') -> bind m k s = (Throw e, s').
Proof. intros H. unfold bind. now rewrite H. Qed.

Lemma bind_assoc {St A B C} (m : M St A) (f : A -> M St B)
    (g : B -> M St C) s :
  bind (bind m f) g s = bind m (fun a => bind (f a) g) s.
Proof. unfold bind. now destruct (m s) as [[a|e] s']. Qed.

Lemma bind_ret {St A B} (a : A) (k : A -> M St B) s :
  bind (ret a) k s = k a s.
Proof. reflexivity. Qed.

(** ** The migration engine *)

Module MigrationFacts.
Import Migration.

Section Engine.
Context {SqlDb : Type}.
Variable sqlExecute : Sql -> SqlDb -> option SqlDb.
Variable K : Constants.

Abbreviation MM := (MM (SqlDb := SqlDb)).
Abbreviation migrate := (migrate sqlExecute K).
Abbreviation migrationTurn := (migrationTurn sqlExecute K).
Abbreviation migrationLoop := (migrationLoop sqlExecute K).
Abbreviation doDbMigration := (doDbMigration sqlExecute K).
Abbreviation versionRead := (versionRead (SqlDb := SqlDb) K).
Abbreviation sameVersionInfo := (sameVersionInfo (SqlDb := SqlDb)).
Abbreviation succeeds := (succeeds (SqlDb := SqlDb)).
Abbreviation settingsPresent := (settingsPresent (SqlDb := SqlDb)).

Section Relation.
Variable R : Store SqlDb -> Store SqlDb -> Prop.
Hypothesis R_refl : forall w, R w w.
Hypothesis R_trans : forall a b c, R a b -> R b c -> R a c.

Lemma transactional_ret {A} (a : A) : transactional R (ret a).
Proof.
  intros c w fk tr. exists (Ok a), w, []. unfold ret, inTx.
  repeat split; intros; auto; now rewrite app_nil_r.
Qed.

Lemma transactional_throw {A} e : transactional R (throw (A := A) e).
Proof.
  intros c w fk tr. exists (Throw e), w, []. unfold throw, inTx.
  repeat split; intros; auto; now rewrite app_nil_r.
Qed.

Lemma transactional_emit l : transactional R (emit l).
Proof.
  intros c w fk tr. exists (Ok tt), w, [l]. repeat split; auto.
Qed.

Lemma transactional_getStore : transactional R getStore.
Proof.
  intros c w fk tr. exists (Ok w), w, []. unfold getStore, inTx. cbn.
  repeat split; intros; auto; now rewrite app_nil_r.
Qed.

Lemma transactional_bind {A B} (m : MM A) (k : A -> MM B) :
  transactional R m -> (forall a, transactional R (k a)) ->
  transactional R (bind m k).
Proof.
  intros Hm Hk c w fk tr.
  destruct (Hm c w fk tr) as (r & w1 & evs1 & E1 & R1 & I1).
  destruct r as [a|e].
  - destruct (Hk a c w1 fk (tr ++ evs1)) as (r2 & w2 & evs2 & E2 & R2 & I2).
    exists r2, w2, (evs1 ++ evs2). repeat split; eauto.
    + rewrite (bind_ok _ _ _ _ _ E1), E2. now rewrite app_assoc.
    + intros c2 fk2 tr2. rewrite (bind_ok _ _ _ _ _ (I1 c2 fk2 tr2)).
      rewrite I2. now rewrite app_assoc.
  - exists (Throw e), w1, evs1. repeat split; auto.
    + now rewrite (bind_throw _ _ _ _ _ E1).
    + intros c2 fk2 tr2. now rewrite (bind_throw _ _ _ _ _ (I1 c2 fk2 tr2)).
Qed.

Lemma transactional_tryCatch {A} (m : MM A) (h : exn -> MM A) :
  transactional R m -> (forall e, transactional R (h e)) ->
  transactional R (tryCatch m h).
Proof.
  intros Hm Hh c w fk tr.
  destruct (Hm c w fk tr) as (r & w1 & evs1 & E1 & R1 & I1).
  destruct r as [a|e].
  - exists (Ok a), w1, evs1. unfold tryCatch. rewrite E1.
    repeat split; auto. intros c2 fk2 tr2. now rewrite I1.
  - destruct (Hh e c w1 fk (tr ++ evs1)) as (r2 & w2 & evs2 & E2 & R2 & I2).
    exists r2, w2, (evs1 ++ evs2). unfold tryCatch. rewrite E1, E2.
    repeat split; eauto; [now rewrite app_assoc|].
    intros c2 fk2 tr2. rewrite I1, I2. now rewrite app_assoc.
Qed.

Lemma transactional_findUnique {A} (rows : list A) :
  transactional R (findUnique rows).
Proof.
  destruct rows as [|r [|r' rows]]; cbn;
    auto using transactional_ret, transactional_throw.
Qed.

End Relation.

Lemma sameVersionInfo_refl w : sameVersionInfo w w.
Proof. reflexivity. Qed.

Lemma sameVersionInfo_trans a b c :
  sameVersionInfo a b -> sameVersionInfo b c -> sameVersionInfo a c.
Proof. unfold Migration.sameVersionInfo. congruence. Qed.

(** Goes through a computation built from the pieces above. *)
Ltac transactional_steps R Hrefl Htrans :=
  repeat first
    [ match goal with
      | H : context [transactional] |- _ => simple apply H
      end
    | simple apply (transactional_bind R Htrans); [ | intros ]
    | simple apply (transactional_tryCatch R Htrans); [ | intros ]
    | simple apply (transactional_ret R Hrefl)
    | simple apply (transactional_throw R Hrefl)
    | simple apply (transactional_emit R Hrefl)
    | simple apply (transactional_findUnique R Hrefl)
    | simple apply (transactional_getStore R Hrefl)
    | match goal with
      | |- transactional _ (match ?x with _ => _ end) => destruct x
      end ].

(** A statement leaves the version record alone. *)
Lemma transactional_execute q :
  transactional sameVersionInfo (execute sqlExecute q).
Proof.
  intros c w fk tr. unfold execute, bind, getStore, putStore, inTx. cbn.
  destruct (sqlExecute q (tables w)) as [t|]; cbn.
  - exists (Ok tt), (mkStore (versionInfo w) (scanSettings w) t), [].
    repeat split; intros; now rewrite ?app_nil_r.
  - exists (Throw (StdException "Dbo: statement failed")), w, [].
    repeat split; intros; now rewrite ?app_nil_r.
Qed.

(** So does a change of the scan settings. *)
Lemma transactional_ScanSettings_modify f :
  transactional sameVersionInfo (ScanSettings_modify f).
Proof.
  intros c w fk tr.
  unfold ScanSettings_modify, bind, getStore, putStore, inTx. cbn.
  destruct (scanSettings w) as [|st [|st' rest]]; cbn.
  - exists (Throw (StdException "Wt::Dbo::ptr: null dereference")), w, [].
    repeat split; intros; now rewrite ?app_nil_r.
  - exists (Ok tt), (mkStore (versionInfo w) [f st] (tables w)), [].
    repeat split; intros; now rewrite ?app_nil_r.
  - exists (Throw (StdException "Dbo: NoUniqueResultException")), w, [].
    repeat split; intros; now rewrite ?app_nil_r.
Qed.

Lemma transactional_migrate v : transactional sameVersionInfo (migrate v).
Proof.
  pose proof transactional_execute as He.
  pose proof transactional_ScanSettings_modify as Hs.
  unfold Migration.migrate.
  repeat match goal with
         | |- transactional _ (if ?b then _ else _) => destruct b
         end;
    transactional_steps (@Migration.sameVersionInfo SqlDb)
      sameVersionInfo_refl sameVersionInfo_trans.
Qed.

(** No step is registered below 5 or above 31: the chain ends in its
    final [else]. *)
Lemma migrate_unregistered v s :
  (v < 5 \/ 31 < v)%N ->
  migrate v s =
    (Throw (LmsException (if (v <? LMS_DATABASE_VERSION K)%N
                          then outdatedMsg else binaryOutdatedMsg)),
     snd (emit (LogCannotHandle v) s)).
Proof.
  intros H. unfold Migration.migrate.
  repeat match goal with
         | |- context [(v =? ?k)%N] => destruct (N.eqb_spec v k); [lia|]
         end.
  reflexivity.
Qed.

(** *** Steps that cannot fail *)

Lemma succeeds_bind {A B} (m : MM A) (k : A -> MM B) :
  succeeds m -> (forall a, succeeds (k a)) -> succeeds (bind m k).
Proof.
  intros Hm Hk c w fk tr Hw.
  destruct (Hm c w fk tr Hw) as (a & w1 & tr1 & E1 & Hw1).
  destruct (Hk a c w1 fk tr1 Hw1) as (b & w2 & tr2 & E2 & Hw2).
  exists b, w2, tr2. split; [|assumption].
  now rewrite (bind_ok _ _ _ _ _ E1).
Qed.

Lemma succeeds_ScanSettings_modify f : succeeds (ScanSettings_modify f).
Proof.
  intros c w fk tr [st Hst].
  exists tt, (mkStore (versionInfo w) [f st] (tables w)), tr.
  unfold ScanSettings_modify, bind, getStore, putStore, inTx. cbn.
  rewrite Hst. cbn. split; [reflexivity|]. now exists (f st).
Qed.

Section TotalBackend.
Hypothesis sqlTotal : forall q t, exists t', sqlExecute q t = Some t'.

Lemma succeeds_execute q : succeeds (execute sqlExecute q).
Proof.
  intros c w fk tr Hw. destruct (sqlTotal q (tables w)) as [t Ht].
  exists tt, (mkStore (versionInfo w) (scanSettings w) t), tr.
  unfold execute, bind, getStore, putStore, inTx. cbn.
  rewrite Ht. cbn. split; [reflexivity|]. exact Hw.
Qed.

Lemma succeeds_migrate v : (5 <= v <= 31)%N -> succeeds (migrate v).
Proof.
  intros Hv. unfold Migration.migrate.
  repeat match goal with
         | |- context [(v =? ?k)%N] => destruct (N.eqb_spec v k)
         end;
    try lia;
    repeat first
      [ simple apply succeeds_execute
      | simple apply succeeds_ScanSettings_modify
      | simple apply succeeds_bind; [ | intros ] ].
Qed.

End TotalBackend.

(** *** One turn of the loop *)

Lemma versionRead_versionInfo c v w :
  versionRead c = Some (v, w) -> versionInfo w = [mkVersionInfo v].
Proof.
  unfold Migration.versionRead. destruct (versionInfo c) as [|[v0] [|]] eqn:E;
    intros [= <- <-]; cbn; congruence.
Qed.

Lemma migrationTurn_unreadable c fk tr :
  versionRead c = None ->
  exists evs,
    migrationTurn (mkSession c None fk tr)
    = (Throw (LmsException outdatedMsg), mkSession c None fk (tr ++ evs)).
Proof.
  unfold Migration.versionRead. intros H.
  destruct (versionInfo c) as [|vi [|vi' rest]] eqn:E; try discriminate.
  eexists. unfold Migration.migrationTurn, withTransaction, migrationBody,
    readVersion, VersionInfo_getOrCreate, tryCatch, bind, getStore, begin_.
  cbn. rewrite E. cbn. reflexivity.
Qed.

Lemma migrationTurn_current c fk tr v w :
  versionRead c = Some (v, w) ->
  v = LMS_DATABASE_VERSION K ->
  exists evs,
    migrationTurn (mkSession c None fk tr)
    = (Ok LoopReturn, mkSession w None fk (tr ++ evs)).
Proof.
  unfold Migration.versionRead. intros H Hv.
  unfold Migration.migrationTurn, withTransaction, migrationBody,
    readVersion, VersionInfo_getOrCreate, tryCatch, bind, getStore, begin_.
  cbn.
  destruct (versionInfo c) as [|vi [|vi' rest]] eqn:E; try discriminate;
    injection H as <- <-; cbn; rewrite Hv, N.eqb_refl; cbn;
    eexists; rewrite <- app_assoc; reflexivity.
Qed.

Lemma migrationTurn_migrate c fk tr v w :
  versionRead c = Some (v, w) ->
  v <> LMS_DATABASE_VERSION K ->
  exists r w' evs tr',
    (forall c2 fk2 tr2,
        migrate v (inTx c2 w fk2 tr2) = (r, inTx c2 w' fk2 (tr2 ++ evs))) /\
    versionInfo w' = versionInfo w /\
    migrationTurn (mkSession c None fk tr)
    = match r with
      | Ok _ =>
          (Ok LoopContinue,
           mkSession (mkStore [mkVersionInfo (v + 1)%N] (scanSettings w')
                        (tables w')) None fk tr')
      | Throw e => (Throw e, mkSession c None fk tr')
      end.
Proof.
  intros H Hv.
  destruct (transactional_migrate v c w fk tr) as (r & w' & evs & _ & HR & I).
  pose proof (versionRead_versionInfo _ _ _ H) as Hw.
  red in HR. rewrite Hw in HR.
  exists r, w', evs.
  exists (((tr ++ [LogVersions v (LMS_DATABASE_VERSION K)])
            ++ [LogMigrating v]) ++ evs).
  split; [exact I|]. split; [congruence|].
  apply N.eqb_neq in Hv.
  unfold inTx in I.
  unfold Migration.versionRead in H.
  unfold Migration.migrationTurn, withTransaction, migrationBody,
    readVersion, VersionInfo_getOrCreate, VersionInfo_setVersion,
    tryCatch, bind, getStore, begin_.
  cbn -[Migration.migrate].
  destruct (versionInfo c) as [|vi [|vi' rest]] eqn:E; try discriminate;
    injection H as <- <-; cbn -[Migration.migrate]; rewrite Hv;
    cbn -[Migration.migrate]; rewrite I; destruct r as [[]|e];
    cbn; rewrite ?HR; cbn; reflexivity.
Qed.

(** *** The loop *)

Lemma doDbMigration_run fuel c fk tr :
  doDbMigration fuel (mkSession c None fk tr)
  = (fst (migrationLoop fuel (mkSession c None false tr)),
     let s' := snd (migrationLoop fuel (mkSession c None false tr)) in
     mkSession (committed s') (transaction s') true (trace s')).
Proof.
  unfold Migration.doDbMigration, scopedNoForeignKeys, bind, setForeignKeys,
    modify. cbn.
  now destruct (Migration.migrationLoop _ _ _ _) as [r s'].
Qed.

Lemma versionRead_singleton c v :
  versionInfo c = [mkVersionInfo v] -> versionRead c = Some (v, c).
Proof. unfold Migration.versionRead. now intros ->. Qed.

Lemma migrationLoop_registered fuel :
  forall c fk tr v,
    versionInfo c = [mkVersionInfo v] ->
    (5 <= v <= LMS_DATABASE_VERSION K)%N ->
    (N.to_nat (LMS_DATABASE_VERSION K - v) < fuel)%nat ->
    exists r s',
      migrationLoop fuel (mkSession c None fk tr) = (r, s') /\
      r <> Ok None /\
      (r = Ok (Some tt) ->
       versionInfo (committed s') = [mkVersionInfo (LMS_DATABASE_VERSION K)]) /\
      ((LMS_DATABASE_VERSION K <= 32)%N ->
       (forall q t, exists t', sqlExecute q t = Some t') ->
       settingsPresent c -> r = Ok (Some tt)).
Proof.
  induction fuel as [|fuel IH]; intros c fk tr v Hc Hv Hfuel; [lia|].
  pose proof (versionRead_singleton _ _ Hc) as Hread.
  cbn [Migration.migrationLoop].
  destruct (N.eq_dec v (LMS_DATABASE_VERSION K)) as [Heq|Hne].
  - destruct (migrationTurn_current c fk tr v c Hread Heq) as [evs E].
    rewrite (bind_ok _ _ _ _ _ E). cbn.
    eexists _, _. split; [reflexivity|]. cbn.
    repeat split; try congruence.
  - destruct (migrationTurn_migrate c fk tr v c Hread Hne)
      as (r & w' & evs & tr' & I & Hw' & E).
    destruct r as [[]|e].
    + rewrite (bind_ok _ _ _ _ _ E).
      set (c' := mkStore [mkVersionInfo (v + 1)%N] (scanSettings w') (tables w')).
      destruct (IH c' fk tr' (v + 1)%N) as (r & s' & E' & Hnone & Hret & Htot);
        [reflexivity|lia|lia|].
      exists r, s'. repeat split; auto.
      intros HT Hsql Hsp. apply Htot; [exact HT|exact Hsql|].
      destruct (succeeds_migrate Hsql v ltac:(lia) c c fk tr Hsp)
        as ([] & w'' & tr'' & E'' & Hsp'').
      rewrite I in E''. injection E'' as -> _. exact Hsp''.
    + rewrite (bind_throw _ _ _ _ _ E).
      eexists _, _. split; [reflexivity|].
      repeat split; try congruence.
      intros HT Hsql Hsp.
      destruct (succeeds_migrate Hsql v ltac:(lia) c c fk tr Hsp)
        as ([] & w'' & tr'' & E'' & Hsp'').
      rewrite I in E''. discriminate.
Qed.

(** Whatever the store holds, the loop is left: a version outside 5..31
    ends it at once, and from a version inside at most 27 steps remain. *)
Lemma migrationLoop_terminates fuel :
  forall c fk tr,
    (0 < fuel)%nat ->
    (forall v w, versionRead c = Some (v, w) -> (5 <= v <= 31)%N ->
                 (N.to_nat (32 - v) < fuel)%nat) ->
    fst (migrationLoop fuel (mkSession c None fk tr)) <> Ok None.
Proof.
  induction fuel as [|fuel IH]; intros c fk tr Hpos Hfuel; [lia|].
  cbn [Migration.migrationLoop].
  destruct (versionRead c) as [[v w]|] eqn:Hread.
  - destruct (N.eq_dec v (LMS_DATABASE_VERSION K)) as [Heq|Hne].
    + destruct (migrationTurn_current c fk tr v w Hread Heq) as [evs E].
      rewrite (bind_ok _ _ _ _ _ E). cbn. discriminate.
    + destruct (migrationTurn_migrate c fk tr v w Hread Hne)
        as (r & w' & evs & tr' & I & Hw' & E).
      destruct r as [[]|e].
      * rewrite (bind_ok _ _ _ _ _ E).
        assert (Hv : (5 <= v <= 31)%N).
        { destruct (N.le_gt_cases 5 v), (N.le_gt_cases v 31); try lia;
            specialize (I c fk tr);
            rewrite (migrate_unregistered v _ ltac:(lia)) in I;
            discriminate. }
        specialize (Hfuel v w eq_refl Hv).
        apply IH; [lia|].
        intros v' w0 Hread' Hv'. cbn in Hread'.
        injection Hread' as <- _. lia.
      * rewrite (bind_throw _ _ _ _ _ E). cbn. discriminate.
  - destruct (migrationTurn_unreadable c fk tr Hread) as [evs E].
    rewrite (bind_throw _ _ _ _ _ E). cbn. discriminate.
Qed.

(** Twenty-nine turns are enough for every store. *)
Lemma doDbMigration_terminates s :
  transaction s = None ->
  fst (doDbMigration 29 s) <> Ok None.
Proof.
  destruct s as [c [w|] fk tr]; cbn [transaction]; [discriminate|].
  intros _. rewrite doDbMigration_run. cbn [fst].
  apply migrationLoop_terminates; [lia|]. intros v w _ Hv. lia.
Qed.

(** *** The claims about the migration *)

(** C3.  From every version [v] that has a step and lies at or below the
    target, [doDbMigration] leaves its loop within [target - v + 1] turns,
    and when it returns the committed version record holds the target.
    The steps are those of versions 5 to 31: when the target is at most
    32, no statement is rejected and the scan settings exist, it does
    return. *)
Theorem doDbMigration_reaches_target s v fuel :
  transaction s = None ->
  versionInfo (committed s) = [mkVersionInfo v] ->
  (5 <= v <= LMS_DATABASE_VERSION K)%N ->
  (N.to_nat (LMS_DATABASE_VERSION K - v) < fuel)%nat ->
  exists r s',
    doDbMigration fuel s = (r, s') /\
    r <> Ok None /\
    (r = Ok (Some tt) ->
     versionInfo (committed s') = [mkVersionInfo (LMS_DATABASE_VERSION K)]) /\
    ((LMS_DATABASE_VERSION K <= 32)%N ->
     (forall q t, exists t', sqlExecute q t = Some t') ->
     settingsPresent (committed s) -> r = Ok (Some tt)).
Proof.
  destruct s as [c [w|] fk tr]; cbn [transaction committed]; [discriminate|].
  intros _ Hc Hv Hfuel.
  destruct (migrationLoop_registered fuel c false tr v Hc Hv Hfuel)
    as (r & s' & E & Hnone & Hret & Htot).
  rewrite doDbMigration_run, E. cbn.
  eexists _, _. split; [reflexivity|]. cbn. auto.
Qed.

(** C4.  One turn of the loop is all or nothing.  When the turn throws,
    the committed store is the one the turn started from, version
    included, and a later turn started from it throws the same way again
    without committing anything.  When the turn goes on, what is
    committed is the working copy the step left, with the version record
    at the version read plus one.  The transaction is closed in every
    case. *)
Theorem migrationTurn_atomic s r s' :
  transaction s = None ->
  migrationTurn s = (r, s') ->
  transaction s' = None /\
  match r with
  | Throw e =>
      committed s' = committed s /\
      forall s2,
        transaction s2 = None -> committed s2 = committed s' ->
        exists s2',
          migrationTurn s2 = (Throw e, s2') /\ committed s2' = committed s2
  | Ok LoopReturn =>
      versionRead (committed s)
      = Some (LMS_DATABASE_VERSION K, committed s')
  | Ok LoopContinue =>
      exists v w w',
        versionRead (committed s) = Some (v, w) /\
        v <> LMS_DATABASE_VERSION K /\
        (forall c2 fk2 tr2, exists tr2',
            migrate v (inTx c2 w fk2 tr2) = (Ok tt, inTx c2 w' fk2 tr2')) /\
        committed s'
        = mkStore [mkVersionInfo (v + 1)%N] (scanSettings w') (tables w')
  end.
Proof.
  destruct s as [c [w|] fk tr]; cbn [transaction committed]; [discriminate|].
  intros _ E.
  destruct (versionRead c) as [[v w]|] eqn:Hread.
  - destruct (N.eq_dec v (LMS_DATABASE_VERSION K)) as [Heq|Hne].
    + destruct (migrationTurn_current c fk tr v w Hread Heq) as [evs E'].
      rewrite E' in E. injection E as <- <-. cbn. now subst v.
    + destruct (migrationTurn_migrate c fk tr v w Hread Hne)
        as (r0 & w' & evs & tr' & I & Hw' & E').
      rewrite E' in E. destruct r0 as [[]|e]; injection E as <- <-; cbn.
      * split; [reflexivity|]. exists v, w, w'. repeat split; auto.
        intros c2 fk2 tr2. eexists. apply I.
      * repeat split.
        intros [c2 [w2|] fk2 tr2]; cbn [transaction committed];
          [discriminate|]. intros _ ->.
        destruct (migrationTurn_migrate c fk2 tr2 v w Hread Hne)
          as (r2 & w2' & evs2 & tr2' & I2 & _ & E2).
        specialize (I c fk tr). rewrite (I2 c fk tr) in I.
        injection I as -> _ _.
        eexists. split; [exact E2|reflexivity].
  - destruct (migrationTurn_unreadable c fk tr Hread) as [evs E'].
    rewrite E' in E. injection E as <- <-. cbn. repeat split.
    intros [c2 [w2|] fk2 tr2]; cbn [transaction committed];
      [discriminate|]. intros _ ->.
    destruct (migrationTurn_unreadable c fk2 tr2 Hread) as [evs2 E2].
    eexists. split; [exact E2|reflexivity].
Qed.

(** C5.  When the version read has no step and is not the target,
    [doDbMigration] throws on its first turn and the committed store is
    untouched; the message is the outdated-database one when the target
    exceeds the version and the outdated-binary one otherwise, and the
    two differ. *)
Theorem doDbMigration_unknown_version s v w fuel :
  transaction s = None ->
  versionRead (committed s) = Some (v, w) ->
  (v < 5 \/ 31 < v)%N ->
  v <> LMS_DATABASE_VERSION K ->
  (0 < fuel)%nat ->
  exists s',
    doDbMigration fuel s
    = (Throw (LmsException (if (v <? LMS_DATABASE_VERSION K)%N
                            then outdatedMsg else binaryOutdatedMsg)), s') /\
    committed s' = committed s /\
    transaction s' = None /\
    outdatedMsg <> binaryOutdatedMsg.
Proof.
  destruct s as [c [w0|] fk tr]; cbn [transaction committed]; [discriminate|].
  intros _ Hread Hv Hne Hfuel.
  destruct fuel as [|fuel]; [lia|].
  destruct (migrationTurn_migrate c false tr v w Hread Hne)
    as (r & w' & evs & tr' & I & _ & E).
  specialize (I c false tr). rewrite (migrate_unregistered v _ Hv) in I.
  injection I as <- _ _.
  rewrite doDbMigration_run. cbn [Migration.migrationLoop].
  rewrite (bind_throw _ _ _ _ _ E). cbn.
  eexists. split; [reflexivity|]. cbn. repeat split. discriminate.
Qed.

End Engine.

(** A turn that fails on a concrete store: version 7, with one of the
    tables its step drops already gone. *)
Lemma migrationTurn_atomic_witness :
  transaction (idle storeV7Broken : Session _ LogLine) = None /\
  fst (migrationTurn schemaExecute exampleConstants (idle storeV7Broken))
  = Throw (StdException "Dbo: statement failed") /\
  committed
    (snd (migrationTurn schemaExecute exampleConstants (idle storeV7Broken)))
  = storeV7Broken.
Proof.
  pose proof (migrationTurn_atomic schemaExecute exampleConstants
                (idle storeV7Broken) _ _ eq_refl
                (surjective_pairing
                   (migrationTurn schemaExecute exampleConstants
                      (idle storeV7Broken)))) as [_ H].
  assert (E : fst (migrationTurn schemaExecute exampleConstants
                     (idle storeV7Broken))
              = Throw (StdException "Dbo: statement failed"))
    by (vm_compute; reflexivity).
  rewrite E in H. destruct H as [H _].
  split; [reflexivity|]. split; [exact E|exact H].
Defined.

(** The whole chain on a concrete store at version 5. *)
Lemma doDbMigration_reaches_target_witness :
  transaction (idle storeV5 : Session _ LogLine) = None /\
  versionInfo storeV5 = [mkVersionInfo 5%N] /\
  (5 <= 5 <= LMS_DATABASE_VERSION exampleConstants)%N /\
  (N.to_nat (LMS_DATABASE_VERSION exampleConstants - 5) < 28)%nat /\
  exists r s',
    doDbMigration schemaExecute exampleConstants 28 (idle storeV5) = (r, s') /\
    r <> Ok None /\
    (r = Ok (Some tt) -> versionInfo (committed s') = [mkVersionInfo 32%N]) /\
    ((LMS_DATABASE_VERSION exampleConstants <= 32)%N ->
     (forall q t, exists t', schemaExecute q t = Some t') ->
     settingsPresent storeV5 -> r = Ok (Some tt)).
Proof.
  assert (H1 : (5 <= 5 <= LMS_DATABASE_VERSION exampleConstants)%N)
    by (cbn; lia).
  assert (H2 : (N.to_nat (LMS_DATABASE_VERSION exampleConstants - 5) < 28)%nat)
    by (cbn; lia).
  split; [reflexivity|]. split; [reflexivity|].
  split; [exact H1|]. split; [exact H2|].
  exact (doDbMigration_reaches_target schemaExecute exampleConstants
           (idle storeV5) 5%N 28 eq_refl eq_refl H1 H2).
Defined.

Example migration_from_version_5 :
  fst (doDbMigration schemaExecute exampleConstants 28 (idle storeV5))
  = Ok (Some tt) /\
  versionInfo
    (committed
       (snd (doDbMigration schemaExecute exampleConstants 28 (idle storeV5))))
  = [mkVersionInfo 32%N] /\
  foreignKeys
    (snd (doDbMigration schemaExecute exampleConstants 28 (idle storeV5)))
  = true.
Proof. vm_compute. repeat split. Qed.

(** A store newer than the binary. *)
Lemma doDbMigration_unknown_version_witness :
  transaction (idle storeV40 : Session _ LogLine) = None /\
  versionRead exampleConstants storeV40 = Some (40%N, storeV40) /\
  (40 < 5 \/ 31 < 40)%N /\
  40%N <> LMS_DATABASE_VERSION exampleConstants /\
  exists s',
    doDbMigration schemaExecute exampleConstants 1 (idle storeV40)
    = (Throw (LmsException binaryOutdatedMsg), s') /\
    committed s' = storeV40 /\
    transaction s' = None /\
    outdatedMsg <> binaryOutdatedMsg.
Proof.
  assert (H1 : (40 < 5 \/ 31 < 40)%N) by (right; lia).
  assert (H2 : 40%N <> LMS_DATABASE_VERSION exampleConstants) by (cbn; lia).
  split; [reflexivity|]. split; [reflexivity|].
  split; [exact H1|]. split; [exact H2|].
  exact (doDbMigration_unknown_version schemaExecute exampleConstants
           (idle storeV40) 40%N storeV40 1 eq_refl eq_refl H1 H2
           (Nat.lt_0_succ 0)).
Defined.

Example migration_from_version_3 :
  fst (doDbMigration schemaExecute exampleConstants 1 (idle storeV3))
  = Throw (LmsException outdatedMsg).
Proof. vm_compute. reflexivity. Qed.

End MigrationFacts.

(** ** The scan path *)

Module ScannerFacts.
Import Scanner.

Abbreviation idle := (idle (Store := Db) (Event := Event)).

(** *** Running the pieces inside a transaction *)

Lemma emit_run {Store Event} (e : Event) (c w : Store) fk tr :
  emit e (inTx c w fk tr) = (Ok tt, inTx c w fk (tr ++ [e])).
Proof. reflexivity. Qed.

Lemma getOrCreateNamed_run k name c w fk tr :
  getOrCreateNamed k name (inTx c w fk tr)
  = (Ok (fst (pureGetOrCreate k name w)),
     inTx c (snd (pureGetOrCreate k name w)) fk tr).
Proof.
  unfold getOrCreateNamed, Named_getByName, Named_create, pureGetOrCreate,
    bind, getStore, putStore, ret, inTx. cbn.
  destruct (findRow (String.eqb name) (namedTable k w)) as [r|]; reflexivity.
Qed.

Lemma Named_getNone_run k c w fk tr :
  Named_getNone k (inTx c w fk tr)
  = (Ok (fst (pureGetOrCreate k noneName w)),
     inTx c (snd (pureGetOrCreate k noneName w)) fk tr).
Proof. exact (getOrCreateNamed_run k noneName c w fk tr). Qed.

Lemma resolveGenres_run genreList :
  forall c w fk tr,
    resolveGenres genreList (inTx c w fk tr)
    = (Ok (fst (pureResolveGenres genreList w)),
       inTx c (snd (pureResolveGenres genreList w)) fk tr).
Proof.
  induction genreList as [|genre rest IH]; intros c w fk tr; [reflexivity|].
  cbn [resolveGenres pureResolveGenres].
  rewrite (bind_ok _ _ _ _ _ (getOrCreateNamed_run _ _ _ _ _ _)).
  rewrite (bind_ok _ _ _ _ _ (IH _ _ _ _)).
  reflexivity.
Qed.

Lemma Track_create_run file artist release c w fk tr :
  Track_create file artist release (inTx c w fk tr)
  = (Ok (loaded (nextId (tracks w), newTrack file artist release)),
     inTx c (setTracks (snd (insertRow (newTrack file artist release)
                               (tracks w))) w) fk tr).
Proof. reflexivity. Qed.

Lemma Track_modify_run p f c w fk tr :
  Track_modify p f (inTx c w fk tr) = (Ok tt, inTx c (modifyDb p f w) fk tr).
Proof.
  unfold Track_modify, modifyDb. destruct (ptr_removed p); reflexivity.
Qed.

Lemma whenSome_modify_run {A} (o : option A) p (f : A -> Track -> Track)
    c w fk tr :
  whenSome o (fun a => Track_modify p (f a)) (inTx c w fk tr)
  = (Ok tt, inTx c (modifyDb p (optSet o f) w) fk tr).
Proof.
  destruct o as [a|]; cbn [whenSome].
  - apply Track_modify_run.
  - unfold modifyDb, optSet, updateRow, setTracks, ret.
    destruct (ptr_removed p); [reflexivity|].
    f_equal. unfold inTx. f_equal. f_equal. destruct w as [[rs n] ? ? ?]. cbn.
    f_equal. f_equal. rewrite <- (map_id rs) at 1.
    apply map_ext. intros [i t]. unfold updated. cbn.
    now destruct (i =? ptr_id p)%nat.
Qed.

Lemma Track_remove_run p c w fk tr :
  Track_remove p (inTx c w fk tr)
  = (Ok (mkTrackPtr (ptr_id p) (ptr_obj p) true),
     inTx c (setTracks (deleteRow (ptr_id p) (tracks w)) w) fk tr).
Proof. reflexivity. Qed.

Lemma commit_run (c w : Db) fk (tr : list Event) :
  commit (inTx c w fk tr) = (Ok tt, mkSession w None fk tr).
Proof. reflexivity. Qed.

(** Successive writes through one pointer amount to one write. *)
Lemma modifyDb_modifyDb p f g w :
  modifyDb p g (modifyDb p f w) = modifyDb p (fun t => g (f t)) w.
Proof.
  unfold modifyDb. destruct (ptr_removed p); [reflexivity|].
  unfold setTracks, updateRow. cbn. f_equal. f_equal.
  rewrite map_map. apply map_ext. intros [i t]. unfold updated. cbn.
  destruct (i =? ptr_id p)%nat eqn:E; cbn; now rewrite E.
Qed.

Ltac run_step :=
  first
    [ rewrite bind_assoc
    | rewrite bind_ret
    | rewrite (bind_ok _ _ _ _ _ (getOrCreateNamed_run _ _ _ _ _ _))
    | rewrite (bind_ok _ _ _ _ _ (Named_getNone_run _ _ _ _ _))
    | rewrite (bind_ok _ _ _ _ _ (resolveGenres_run _ _ _ _ _))
    | rewrite (bind_ok _ _ _ _ _ (Track_create_run _ _ _ _ _ _ _))
    | rewrite (bind_ok _ _ _ _ _ (Track_modify_run _ _ _ _ _ _))
    | rewrite (bind_ok _ _ _ _ _ (whenSome_modify_run _ _ _ _ _ _ _))
    | rewrite (bind_ok _ _ _ _ _ (Track_remove_run _ _ _ _ _))
    | rewrite (bind_ok _ _ _ _ _ (emit_run _ _ _ _ _)) ].

Lemma named_tag_run (tag : option string) k :
  match tag with
  | Some name => getOrCreateNamed k name
  | None => Named_getNone k
  end = getOrCreateNamed k (nameOr tag).
Proof. now destruct tag. Qed.

Lemma resolveTrack_run file lastWriteTime checksum items track c w fk tr :
  resolveTrack file lastWriteTime checksum items track (inTx c w fk tr)
  = (Ok tt,
     mkSession (pureResolve file lastWriteTime checksum items track w)
       None fk (tr ++ resolveEvents file items track)).
Proof.
  unfold resolveTrack, pureResolve, pureResolveNames, resolveEvents.
  rewrite !named_tag_run.
  fold (genreListOf items). fold (titleOf file items).
  repeat run_step.
  set (a := pureGetOrCreate ArtistT _ w).
  set (r := pureGetOrCreate ReleaseT _ (snd a)).
  set (g := pureResolveGenres _ (snd r)).
  destruct (fst g) as [|g1 gs] eqn:Hg.
  - set (n := pureGetOrCreate GenreT noneName (snd g)).
    destruct track as [p|]; repeat run_step;
      rewrite commit_run; rewrite <- !app_assoc; cbn [app];
      rewrite !modifyDb_modifyDb; reflexivity.
  - destruct track as [p|]; repeat run_step;
      rewrite commit_run; rewrite <- !app_assoc; cbn [app];
      rewrite !modifyDb_modifyDb; reflexivity.
Qed.

(** *** The whole of [processAudioFile] *)

Ltac finish_run :=
  unfold emit, modify, bind, throw, rollback_, commit_, inTx, caught;
  cbn; rewrite <- ?app_assoc; reflexivity.

Section WithWorld.
Variable W : World.

Lemma orThrow_some {A} what (a : A) (s : Session Db Event) :
  orThrow what (Some a) s = (Ok a, s).
Proof. reflexivity. Qed.

Lemma Track_getByPath_run file c w fk tr :
  Track_getByPath file (inTx c w fk tr)
  = (Ok (option_map loaded (stored w file)), inTx c w fk tr).
Proof. reflexivity. Qed.

Lemma processAudioFile_run file c fk tr :
  processAudioFile W file (mkSession c None fk tr)
  = (Ok tt,
     mkSession (fst (pureProcess W file c)) None fk
       (tr ++ snd (pureProcess W file c))).
Proof.
  unfold processAudioFile, pureProcess, tryCatch.
  destruct (last_write_time W file) as [lastWriteTime|]; [|reflexivity].
  cbn [orThrow]. rewrite bind_ret.
  unfold withTransaction, begin_, processAudioFileBody. cbn [committed
    transaction foreignKeys trace].
  fold (inTx c c fk tr).
  rewrite (bind_ok _ _ _ _ _ (Track_getByPath_run _ _ _ _ _)).
  unfold skipsOnTime, skipsOnChecksum.
  destruct (stored c file) as [r|] eqn:Hstored;
    cbn [option_map ptr_obj ptr_id loaded];
    [destruct (ptime_eqb _ _); [reflexivity|]|];
    (run_step; destruct (computeCrc W file) as [checksum|];
     [|finish_run]; cbn [orThrow]; rewrite bind_ret);
    [destruct (checksum_eqb _ _); [finish_run|]|];
    (repeat run_step;
     destruct (parse W file) as [items|]; [|finish_run];
     cbn [orThrow]; repeat run_step;
     destruct (openMedia W file) as [mediaFile|]; [|finish_run];
     cbn [orThrow]; rewrite bind_ret;
     destruct (getAudioStreams mediaFile) as [|st sts]; [finish_run|];
     destruct (durationSeconds mediaFile =? 0)%Z;
     repeat run_step; rewrite resolveTrack_run; finish_run).
Qed.

End WithWorld.

(** *** Change detection *)

Lemma ptime_eqb_eq a t : ptime_eqb a (Some t) = true <-> a = Some t.
Proof.
  destruct a as [x|]; cbn; [|split; discriminate].
  rewrite Z.eqb_eq. split; congruence.
Qed.

Lemma checksum_eqb_eq a : forall b, checksum_eqb a b = true <-> a = b.
Proof.
  induction a as [|x a IH]; intros [|y b]; cbn; try (split; congruence).
  rewrite andb_true_iff, IH. split.
  - intros [H ->]. now rewrite (Byte.byte_dec_bl _ _ H).
  - intros [= -> ->]. split; [now apply Byte.byte_dec_lb|reflexivity].
Qed.

Section Detection.
Variable W : World.

Lemma processAudioFile_spec file s :
  transaction s = None ->
  processAudioFile W file s
  = (Ok tt,
     mkSession (fst (pureProcess W file (committed s))) None (foreignKeys s)
       (trace s ++ snd (pureProcess W file (committed s)))).
Proof.
  destruct s as [c [w|] fk tr]; cbn; [discriminate|].
  intros _. apply processAudioFile_run.
Qed.

Lemma newEvents_run file s :
  transaction s = None ->
  newEvents s (snd (processAudioFile W file s))
  = snd (pureProcess W file (committed s)).
Proof.
  intros H. rewrite (processAudioFile_spec file s H). unfold newEvents. cbn.
  rewrite skipn_app, skipn_all, Nat.sub_diag. reflexivity.
Qed.

Lemma committed_run file s :
  transaction s = None ->
  committed (snd (processAudioFile W file s))
  = fst (pureProcess W file (committed s)).
Proof. intros H. now rewrite (processAudioFile_spec file s H). Qed.

(** Past the two tests, the run parses the file. *)
Lemma pureProcess_parses file c lastWriteTime checksum :
  last_write_time W file = Some lastWriteTime ->
  computeCrc W file = Some checksum ->
  skipsOnTime c file lastWriteTime = false ->
  skipsOnChecksum c file checksum = false ->
  In (CallParse file) (snd (pureProcess W file c)).
Proof.
  intros Ht Hc Hst Hsc. unfold pureProcess. rewrite Ht, Hst, Hc, Hsc.
  destruct (parse W file) as [items|]; [|cbn; auto].
  destruct (openMedia W file) as [mediaFile|]; [|cbn; auto].
  destruct (getAudioStreams mediaFile); [cbn; auto|].
  destruct (durationSeconds mediaFile =? 0)%Z; cbn; auto.
Qed.

(** C2, as amended.  For a file with a stored record, whose timestamp
    and checksum can be read, the run skips (no metadata parse, store
    unchanged) exactly when the stored last-write timestamp equals the
    file's or the stored checksum equals the file's; in every other case
    the metadata are parsed.  No [scanVersion] enters the decision. *)
Theorem change_detection_skips s file r lastWriteTime checksum :
  transaction s = None ->
  stored (committed s) file = Some r ->
  last_write_time W file = Some lastWriteTime ->
  computeCrc W file = Some checksum ->
  skips W s file <->
  track_lastWriteTime (snd r) = Some lastWriteTime \/
  track_checksum (snd r) = checksum.
Proof.
  intros Hs Hr Ht Hc. unfold skips.
  rewrite (newEvents_run file s Hs), (committed_run file s Hs).
  assert (Hst : skipsOnTime (committed s) file lastWriteTime = true <->
                track_lastWriteTime (snd r) = Some lastWriteTime)
    by (unfold skipsOnTime; rewrite Hr; apply ptime_eqb_eq).
  assert (Hsc : skipsOnChecksum (committed s) file checksum = true <->
                track_checksum (snd r) = checksum)
    by (unfold skipsOnChecksum; rewrite Hr; apply checksum_eqb_eq).
  destruct (skipsOnTime (committed s) file lastWriteTime) eqn:E1.
  - unfold pureProcess. rewrite Ht, E1. cbn. intuition congruence.
  - destruct (skipsOnChecksum (committed s) file checksum) eqn:E2.
    + unfold pureProcess. rewrite Ht, E1, Hc, E2. cbn. intuition congruence.
    + pose proof (pureProcess_parses file _ _ _ Ht Hc E1 E2).
      intuition congruence.
Qed.

End Detection.

(** The stored track, its file untouched: the run skips on the
    timestamp. *)
Lemma change_detection_skips_witness :
  transaction (idle storedDb) = None /\
  stored storedDb songPath = Some (1, storedTrack) /\
  last_write_time unchangedWorld songPath = Some 100%Z /\
  computeCrc unchangedWorld songPath = Some [Byte.x01] /\
  (skips unchangedWorld (idle storedDb) songPath <->
   track_lastWriteTime storedTrack = Some 100%Z \/
   track_checksum storedTrack = [Byte.x01]).
Proof.
  do 4 (split; [reflexivity|]).
  exact (change_detection_skips unchangedWorld (idle storedDb) songPath
           (1, storedTrack) 100%Z [Byte.x01]
           eq_refl eq_refl eq_refl eq_refl).
Defined.

(** C2, as stated, fails: a record whose timestamp matches is skipped
    although its [scanVersion] (0) is not the current one (1). *)
Lemma change_detection_ignores_scanVersion :
  ~ (forall (current : N) W s file r lastWriteTime checksum,
        transaction s = None ->
        stored (committed s) file = Some r ->
        last_write_time W file = Some lastWriteTime ->
        computeCrc W file = Some checksum ->
        skips W s file <->
        spec_skips current (snd r) lastWriteTime checksum = true).
Proof.
  intros H.
  specialize (H 1%N unchangedWorld (idle storedDb) songPath
                (1, storedTrack) 100%Z [Byte.x01]
                eq_refl eq_refl eq_refl eq_refl).
  assert (Hskip : skips unchangedWorld (idle storedDb) songPath).
  { split; [|reflexivity]. vm_compute. intros [[=]|[]]. }
  apply H in Hskip. vm_compute in Hskip. discriminate.
Qed.

(** *** Touched but unmodified files *)

(** C10.  When the stored checksum is the file's but the stored
    timestamp is not, the run returns normally and leaves the store, and
    so the track and its timestamp, as they were; every further scan of
    the file therefore computes the checksum again and skips on it. *)
Theorem checksum_skip_keeps_timestamp W s file r lastWriteTime checksum n :
  transaction s = None ->
  stored (committed s) file = Some r ->
  last_write_time W file = Some lastWriteTime ->
  computeCrc W file = Some checksum ->
  track_checksum (snd r) = checksum ->
  track_lastWriteTime (snd r) <> Some lastWriteTime ->
  fst (processAudioFile W file s) = Ok tt /\
  committed (rescans W file n s) = committed s /\
  stored (committed (rescans W file n s)) file = Some r /\
  trace (rescans W file n s)
  = trace s
    ++ concat (repeat [CallComputeCrc file; Log (SkippedChecksum file)] n).
Proof.
  intros Hs Hr Ht Hc Hsum Htime.
  assert (Hpure : pureProcess W file (committed s)
                  = (committed s,
                     [CallComputeCrc file; Log (SkippedChecksum file)])).
  { unfold pureProcess, skipsOnTime, skipsOnChecksum. rewrite Ht, Hr, Hc.
    destruct (ptime_eqb _ _) eqn:E1; [now apply ptime_eqb_eq in E1|].
    destruct (checksum_eqb _ _) eqn:E2; [reflexivity|].
    apply checksum_eqb_eq in Hsum. congruence. }
  split; [now rewrite (processAudioFile_spec W file s Hs)|].
  assert (Hn : transaction (rescans W file n s) = None /\
               committed (rescans W file n s) = committed s /\
               trace (rescans W file n s)
               = trace s
                 ++ concat (repeat [CallComputeCrc file;
                                    Log (SkippedChecksum file)] n)).
  { induction n as [|n (IH1 & IH2 & IH3)].
    - cbn. now rewrite app_nil_r.
    - cbn [rescans].
      rewrite (processAudioFile_spec W file _ IH1), IH2, Hpure, IH3. cbn.
      repeat split.
      rewrite <- app_assoc. f_equal.
      change [CallComputeCrc file; Log (SkippedChecksum file)]
        with (concat (repeat [CallComputeCrc file;
                              Log (SkippedChecksum file)] 1)).
      rewrite <- !concat_app, <- !repeat_app. now rewrite Nat.add_comm. }
  destruct Hn as (_ & H2 & H3). rewrite H2. auto.
Qed.

(** The stored track, its file touched: three scans, three checksums. *)
Lemma checksum_skip_keeps_timestamp_witness :
  transaction (idle storedDb) = None /\
  stored storedDb songPath = Some (1, storedTrack) /\
  last_write_time touchedWorld songPath = Some 200%Z /\
  computeCrc touchedWorld songPath = Some [Byte.x01] /\
  track_checksum storedTrack = [Byte.x01] /\
  track_lastWriteTime storedTrack <> Some 200%Z /\
  fst (processAudioFile touchedWorld songPath (idle storedDb)) = Ok tt /\
  committed (rescans touchedWorld songPath 3 (idle storedDb)) = storedDb /\
  stored (committed (rescans touchedWorld songPath 3 (idle storedDb)))
    songPath
  = Some (1, storedTrack) /\
  trace (rescans touchedWorld songPath 3 (idle storedDb))
  = [CallComputeCrc songPath; Log (SkippedChecksum songPath);
     CallComputeCrc songPath; Log (SkippedChecksum songPath);
     CallComputeCrc songPath; Log (SkippedChecksum songPath)].
Proof.
  assert (Htime : track_lastWriteTime storedTrack <> Some 200%Z)
    by (cbn; discriminate).
  do 6 (split; [first [reflexivity|exact Htime]|]).
  exact (checksum_skip_keeps_timestamp touchedWorld (idle storedDb) songPath
           (1, storedTrack) 200%Z [Byte.x01] 3
           eq_refl eq_refl eq_refl eq_refl eq_refl Htime).
Defined.

(** *** Files that are not audio *)

(** C1, on a concrete file.  A file with an audio stream and a probed
    duration of zero, seen for the first time: the run logs that it skips
    the file and then adds a track for it all the same. *)
Theorem zero_duration_file_gets_a_track :
  durationSeconds (entry_media zeroDurationFile) = 0%Z /\
  stored emptyDb songPath = None /\
  In (Log (SkippedDurationNull songPath))
    (trace (snd (processAudioFile zeroDurationWorld songPath (idle emptyDb))))
  /\
  In (Log (AddingFile songPath))
    (trace (snd (processAudioFile zeroDurationWorld songPath (idle emptyDb))))
  /\
  exists t,
    stored
      (committed
         (snd (processAudioFile zeroDurationWorld songPath (idle emptyDb))))
      songPath
    = Some (1, t).
Proof. vm_compute. intuition eauto. Qed.

(** When a track was stored for the path, it is removed. *)
Example zero_duration_file_loses_its_track :
  stored
    (committed
       (snd (processAudioFile zeroDurationWorld songPath (idle storedDb))))
    songPath
  = None.
Proof. vm_compute. reflexivity. Qed.

(** C7, on a concrete file.  A file without an audio stream, for which
    an earlier scan stored a track: the run returns after the log line and
    the stale track stays. *)
Theorem no_audio_stream_keeps_the_track :
  getAudioStreams (entry_media noAudioFile) = [] /\
  stored storedDb songPath = Some (1, storedTrack) /\
  In (Log (SkippedNoAudioStream songPath))
    (trace (snd (processAudioFile noAudioWorld songPath (idle storedDb)))) /\
  stored
    (committed (snd (processAudioFile noAudioWorld songPath (idle storedDb))))
    songPath
  = Some (1, storedTrack).
Proof. vm_compute. intuition eauto. Qed.

(** *** Tables *)

Section Tables.
Context {A : Type}.
Variable P : A -> bool.
Variable f : A -> A.
Hypothesis P_f : forall a, P (f a) = P a.

Lemma P_updated id r : P (snd (updated f id r)) = P (snd r).
Proof. unfold updated. destruct (fst r =? id)%nat; cbn; auto. Qed.

(** A row found by [P] is found again after an update, either as it
    was or written by [f]. *)
Lemma find_updated id (rs extra : list (nat * A)) r :
  List.find (fun r => P (snd r)) rs = Some r ->
  List.find (fun r => P (snd r)) (List.map (updated f id) (rs ++ extra))
  = Some (updated f id r).
Proof.
  induction rs as [|x rs IH]; cbn; [discriminate|].
  rewrite P_updated. destruct (P (snd x)); [now intros [= ->]|exact IH].
Qed.

Lemma find_updated_nil id (rs : list (nat * A)) r :
  List.find (fun r => P (snd r)) rs = Some r ->
  List.find (fun r => P (snd r)) (List.map (updated f id) rs)
  = Some (updated f id r).
Proof.
  intros H. rewrite <- (app_nil_r rs) at 1. now apply find_updated.
Qed.

Lemma rows_updateRow id (t : Table A) :
  rows (updateRow id f t) = List.map (updated f id) (rows t).
Proof. reflexivity. Qed.

Lemma find_updated_none id (rs : list (nat * A)) :
  List.find (fun r => P (snd r)) rs = None ->
  List.find (fun r => P (snd r)) (List.map (updated f id) rs) = None.
Proof.
  induction rs as [|x rs IH]; cbn; [reflexivity|].
  rewrite P_updated. destruct (P (snd x)); [discriminate|exact IH].
Qed.

Lemma find_app_none (rs extra : list (nat * A)) :
  List.find (fun r => P (snd r)) rs = None ->
  List.find (fun r => P (snd r)) (rs ++ extra)
  = List.find (fun r => P (snd r)) extra.
Proof.
  induction rs as [|x rs IH]; cbn; [reflexivity|].
  destruct (P (snd x)); [discriminate|exact IH].
Qed.

End Tables.

(** *** Named entities *)

Lemma uniqueNames_same_id (t : Table string) i j name :
  uniqueNames t -> In (i, name) (rows t) -> In (j, name) (rows t) -> i = j.
Proof.
  unfold uniqueNames. destruct t as [rs n]. cbn.
  induction rs as [|[k m] rs IH]; cbn; [tauto|].
  intros Hnd [Hi|Hi] [Hj|Hj]; inversion Hnd as [|? ? Hnotin Hnd']; subst.
  - congruence.
  - injection Hi as -> ->. exfalso. apply Hnotin.
    now apply (in_map snd) in Hj.
  - injection Hj as -> ->. exfalso. apply Hnotin.
    now apply (in_map snd) in Hi.
  - auto.
Qed.

Lemma rowsNamed_unique (t : Table string) i name :
  uniqueNames t -> In (i, name) (rows t) -> rowsNamed name t = [(i, name)].
Proof.
  unfold uniqueNames, rowsNamed. destruct t as [rs n]. cbn.
  induction rs as [|[k m] rs IH]; cbn; [tauto|].
  intros Hnd Hin. inversion Hnd as [|? ? Hnotin Hnd']; subst.
  destruct Hin as [Hin|Hin].
  - injection Hin as -> ->. rewrite String.eqb_refl. f_equal.
    clear IH Hnd Hnd'. induction rs as [|[k m] rs IH]; cbn; [reflexivity|].
    cbn in Hnotin. destruct (String.eqb_spec name m); [subst; tauto|].
    apply IH. tauto.
  - destruct (String.eqb_spec name m) as [->|Hne].
    + exfalso. apply Hnotin. now apply (in_map snd) in Hin.
    + auto.
Qed.

(** What [pureGetOrCreate] does to the store. *)
Lemma pureGetOrCreate_spec k name w :
  let r := pureGetOrCreate k name w in
  In (fst r, name) (rows (namedTable k (snd r))) /\
  incl (rows (namedTable k w)) (rows (namedTable k (snd r))) /\
  (uniqueNames (namedTable k w) -> uniqueNames (namedTable k (snd r))) /\
  (forall k', k' <> k -> namedTable k' (snd r) = namedTable k' w) /\
  tracks (snd r) = tracks w.
Proof.
  unfold pureGetOrCreate, findRow.
  destruct (List.find _ _) as [[i m]|] eqn:E; cbn.
  - apply find_some in E. destruct E as [Hin Heq]. cbn in Heq.
    apply String.eqb_eq in Heq. subst m.
    repeat split; auto. apply incl_refl.
  - assert (Hnot : ~ In name (List.map snd (rows (namedTable k w)))).
    { intros Hin. apply in_map_iff in Hin. destruct Hin as ([i m] & Hm & Hin).
      cbn in Hm. subst m.
      pose proof (find_none _ _ E _ Hin) as H. cbn in H.
      now rewrite String.eqb_refl in H. }
    destruct k, w as [tr ar re ge]; cbn in *;
      (repeat split;
       [ apply in_or_app; right; now left
       | apply incl_appl, incl_refl
       | unfold uniqueNames; cbn; rewrite map_app; cbn; intros Hnd;
         apply List.NoDup_app; auto;
         [ constructor; [intros []|constructor]
         | intros x Hx [<-|[]]; exact (Hnot Hx) ]
       | intros [] Hk; try reflexivity; now destruct Hk ]).
Qed.

Lemma pureResolveGenres_frame genreList :
  forall w,
    let r := pureResolveGenres genreList w in
    artists (snd r) = artists w /\ releases (snd r) = releases w /\
    tracks (snd r) = tracks w.
Proof.
  induction genreList as [|genre rest IH]; intros w; cbn; [auto|].
  destruct (pureGetOrCreate_spec GenreT genre w) as (_ & _ & _ & Hk & Ht).
  destruct (IH (snd (pureGetOrCreate GenreT genre w))) as (Ha & Hr & Ht').
  rewrite Ha, Hr, Ht', Ht.
  pose proof (Hk ArtistT ltac:(discriminate)) as H1.
  pose proof (Hk ReleaseT ltac:(discriminate)) as H2.
  cbn in H1, H2. auto.
Qed.

(** What the resolution of the names does to the artists, the releases
    and the tracks. *)
Lemma pureResolveNames_spec items w :
  let '(artist, release, genres, w1) := pureResolveNames items w in
  In (artist, nameOr (itemArtist items)) (rows (artists w1)) /\
  incl (rows (artists w)) (rows (artists w1)) /\
  (uniqueNames (artists w) -> uniqueNames (artists w1)) /\
  tracks w1 = tracks w /\
  In (release, nameOr (itemAlbum items)) (rows (releases w1)).
Proof.
  unfold pureResolveNames.
  set (a := pureGetOrCreate ArtistT _ w).
  set (r := pureGetOrCreate ReleaseT _ (snd a)).
  set (g := pureResolveGenres _ (snd r)).
  set (n := pureGetOrCreate GenreT noneName (snd g)).
  destruct (pureGetOrCreate_spec ArtistT (nameOr (itemArtist items)) w)
    as (Ha1 & Ha2 & Ha3 & _ & Ha5). fold a in Ha1, Ha2, Ha3, Ha5.
  destruct (pureGetOrCreate_spec ReleaseT (nameOr (itemAlbum items)) (snd a))
    as (Hr1 & _ & _ & Hr4 & Hr5). fold r in Hr1, Hr4, Hr5.
  specialize (Hr4 ArtistT ltac:(discriminate)).
  cbn in Hr1, Hr4, Ha1, Ha2, Ha3.
  destruct (pureResolveGenres_frame (genreListOf items) (snd r))
    as (Hg1 & Hg2 & Hg3). fold g in Hg1, Hg2, Hg3.
  destruct (pureGetOrCreate_spec GenreT noneName (snd g))
    as (_ & _ & _ & Hn4 & Hn5). fold n in Hn4, Hn5.
  pose proof (Hn4 ArtistT ltac:(discriminate)) as Hn4a.
  pose proof (Hn4 ReleaseT ltac:(discriminate)) as Hn4r.
  cbn in Hn4a, Hn4r.
  destruct (fst g) as [|g1 gs].
  - rewrite Hn4a, Hn4r, Hg1, Hg2, Hr4, Hn5, Hg3, Hr5, Ha5. auto.
  - rewrite Hg1, Hg2, Hr4, Hg3, Hr5, Ha5. auto.
Qed.

(** The genres found or created for a list of names: one id per name,
    in the order of the names, each the id of a row of that name. *)
Lemma pureResolveGenres_ids genreList :
  forall w,
    let r := pureResolveGenres genreList w in
    Forall2 (fun id name => In (id, name) (rows (genres (snd r))))
      (fst r) genreList /\
    incl (rows (genres w)) (rows (genres (snd r))).
Proof.
  induction genreList as [|genre rest IH]; intros w; cbn.
  - split; [constructor|apply incl_refl].
  - destruct (pureGetOrCreate_spec GenreT genre w) as (Hin & Hincl & _).
    cbn in Hin, Hincl.
    destruct (IH (snd (pureGetOrCreate GenreT genre w))) as (Hf & Hi).
    split.
    + constructor; [apply Hi, Hin|exact Hf].
    + eapply incl_tran; eassumption.
Qed.

(** The genres of the tags, or else the sentinel, are what the
    resolution of the names hands to the track. *)
Lemma pureResolveNames_genres items w :
  let '(artist, release, genreIds, w1) := pureResolveNames items w in
  Forall2 (fun id name => In (id, name) (rows (genres w1))) genreIds
    match genreListOf items with
    | [] => [noneName]
    | names => names
    end.
Proof.
  unfold pureResolveNames.
  set (a := pureGetOrCreate ArtistT _ w).
  set (r := pureGetOrCreate ReleaseT _ (snd a)).
  destruct (pureResolveGenres_ids (genreListOf items) (snd r)) as (Hf & _).
  destruct (genreListOf items) as [|name names].
  - cbn.
    destruct (pureGetOrCreate_spec GenreT noneName (snd r)) as (Hin & _).
    constructor; [exact Hin|constructor].
  - cbn [pureResolveGenres fst snd] in *. exact Hf.
Qed.

(** Past the resolution of the names, only the tracks are written. *)
Lemma pureResolve_names file lastWriteTime checksum items track c :
  let '(artist, release, genreIds, w1) := pureResolveNames items c in
  releases (pureResolve file lastWriteTime checksum items track c)
  = releases w1 /\
  genres (pureResolve file lastWriteTime checksum items track c)
  = genres w1.
Proof.
  unfold pureResolve.
  destruct (pureResolveNames items c) as [[[artist release] genreIds] w1].
  destruct track as [p|]; [unfold modifyDb; destruct (ptr_removed p)|];
    destruct w1; split; reflexivity.
Qed.

(** *** What is written to the track *)

Lemma writeFields_fields lastWriteTime checksum title genreList genres
    artist release items t :
  writeFields lastWriteTime checksum title genreList genres artist release
    items t
  = {| track_path := track_path t;
       track_checksum := checksum;
       track_lastWriteTime := Some lastWriteTime;
       track_name := title;
       track_genreList := genreList;
       track_genres := genres;
       track_artist := artist;
       track_release := release;
       track_trackNumber := default (track_trackNumber t)
                              (itemTrackNumber items);
       track_discNumber := default (track_discNumber t)
                             (itemDiscNumber items);
       track_duration := default (track_duration t) (itemDuration items);
       track_creationTime := match itemCreationTime items with
                             | Some time => Some time
                             | None => track_creationTime t
                             end;
       track_scanVersion := track_scanVersion t |}.
Proof.
  unfold writeFields, optSet.
  destruct (itemTrackNumber items), (itemDiscNumber items),
    (itemDuration items), (itemCreationTime items); reflexivity.
Qed.

Lemma writeFields_path lastWriteTime checksum title genreList genres
    artist release items file t :
  String.eqb (track_path (writeFields lastWriteTime checksum title genreList
                            genres artist release items t)) file
  = String.eqb (track_path t) file.
Proof. now rewrite writeFields_fields. Qed.

(** The row written by [pureResolve] for the file itself: the stored row
    rewritten in place, or a new row. *)
Lemma stored_pureResolve file lastWriteTime checksum items c :
  let c' := pureResolve file lastWriteTime checksum items
              (option_map loaded (stored c file)) c in
  let '(artist, release, genres, w1) := pureResolveNames items c in
  let write := writeFields lastWriteTime checksum (titleOf file items)
                 (joinGenres (genreListOf items)) genres artist release
                 items in
  artists c' = artists w1 /\
  stored c' file
  = Some match stored c file with
         | Some r => (fst r, write (snd r))
         | None => (nextId (tracks c), write (newTrack file artist release))
         end.
Proof.
  unfold pureResolve.
  pose proof (pureResolveNames_spec items c) as Hn.
  destruct (pureResolveNames items c) as [[[artist release] genres] w1].
  destruct Hn as (_ & _ & _ & Ht & _).
  set (write := writeFields _ _ _ _ _ _ _ _).
  pose proof (writeFields_path lastWriteTime checksum (titleOf file items)
                (joinGenres (genreListOf items)) genres artist release items
                file) as Hpath.
  fold write in Hpath.
  unfold stored in *.
  destruct (findRow _ (tracks c)) as [r|] eqn:E; cbn [option_map].
  - unfold modifyDb, loaded. cbn [ptr_removed ptr_id fst snd].
    split; [now destruct w1|].
    unfold findRow in *. cbn [tracks setTracks].
    rewrite rows_updateRow, Ht.
    rewrite (find_updated_nil (fun t => String.eqb (track_path t) file)
               write Hpath (fst r) _ r E).
    unfold updated. now rewrite Nat.eqb_refl.
  - split; [now destruct w1|].
    unfold findRow in *. cbn [tracks setTracks].
    rewrite rows_updateRow, Ht. unfold insertRow. cbn [fst snd rows].
    rewrite List.map_app.
    rewrite (find_app_none (fun t => String.eqb (track_path t) file)).
    + cbn. unfold updated. cbn. rewrite Nat.eqb_refl. cbn.
      rewrite Hpath. cbn. now rewrite String.eqb_refl.
    + now apply (find_updated_none (fun t => String.eqb (track_path t) file)
                   write Hpath).
Qed.

(** The row stored for another path is still there, as it was or
    written by the same [write]. *)
Lemma stored_pureResolve_other file other lastWriteTime checksum items c r :
  stored c other = Some r ->
  let c' := pureResolve file lastWriteTime checksum items
              (option_map loaded (stored c file)) c in
  let '(artist, release, genres, w1) := pureResolveNames items c in
  let write := writeFields lastWriteTime checksum (titleOf file items)
                 (joinGenres (genreListOf items)) genres artist release
                 items in
  stored c' other = Some r \/ stored c' other = Some (fst r, write (snd r)).
Proof.
  intros Hr. unfold pureResolve.
  pose proof (pureResolveNames_spec items c) as Hn.
  destruct (pureResolveNames items c) as [[[artist release] genres] w1].
  destruct Hn as (_ & _ & _ & Ht & _).
  set (write := writeFields _ _ _ _ _ _ _ _).
  pose proof (writeFields_path lastWriteTime checksum (titleOf file items)
                (joinGenres (genreListOf items)) genres artist release items
                other) as Hpath.
  fold write in Hpath.
  assert (Hupd : forall id extra,
             List.find (fun r => String.eqb (track_path (snd r)) other)
               (List.map (updated write id) (rows (tracks c) ++ extra))
             = Some (updated write id r)).
  { intros id extra.
    now apply (find_updated (fun t => String.eqb (track_path t) other)
                 write Hpath). }
  clear Hr.
  assert (Hcase : forall id, updated write id r = r \/
                             updated write id r = (fst r, write (snd r))).
  { intros id. unfold updated. destruct (fst r =? id)%nat; auto. }
  destruct (stored c file) as [r0|]; cbn [option_map]; unfold stored.
  - unfold modifyDb, loaded. cbn [ptr_removed ptr_id fst snd].
    unfold findRow. cbn [tracks setTracks].
    rewrite rows_updateRow, Ht.
    specialize (Hupd (fst r0) []). rewrite app_nil_r in Hupd.
    rewrite Hupd.
    destruct (Hcase (fst r0)) as [->| ->]; auto.
  - unfold findRow. cbn [tracks setTracks].
    rewrite rows_updateRow, Ht. unfold insertRow. cbn [fst snd rows].
    rewrite Hupd.
    destruct (Hcase (nextId (tracks c))) as [->| ->]; auto.
Qed.

(** *** Re-processing a stored track *)

Section Resolution.
Variable W : World.

Lemma resolves_pure c file items :
  resolves W c file items ->
  exists lastWriteTime checksum,
    last_write_time W file = Some lastWriteTime /\
    computeCrc W file = Some checksum /\
    skipsOnTime c file lastWriteTime = false /\
    skipsOnChecksum c file checksum = false /\
    fst (pureProcess W file c)
    = pureResolve file lastWriteTime checksum items
        (option_map loaded (stored c file)) c.
Proof.
  intros (lastWriteTime & checksum & mediaFile & Ht & Hc & Hp & Hm & Ha & Hd
          & Hst & Hsc).
  exists lastWriteTime, checksum. repeat split; auto.
  unfold pureProcess. rewrite Ht, Hst, Hc, Hsc, Hp, Hm.
  destruct (getAudioStreams mediaFile); [congruence|].
  apply Z.eqb_neq in Hd. now rewrite Hd.
Qed.

(** C6, as amended.  When a stored track is re-processed (the file
    changed, has an audio stream and a duration that is not zero), its
    row keeps its id and path; checksum, last-write timestamp, title (the
    tag, or else the file name), genre list, genres, artist and release
    (those of the tags, or else the sentinels) are overwritten whatever
    the tags hold: the artist and the release written are rows that carry
    the name of the tag, or else the sentinel name, and the genres
    written are, name for name and in order, rows that carry the genre
    names of the tag, or else the one sentinel row.  Track number, disc
    number, duration and creation time are overwritten when their tag is
    present and keep the value of the previous scan when it is absent. *)
Theorem reprocess_overwrites s file items r :
  transaction s = None ->
  stored (committed s) file = Some r ->
  resolves W (committed s) file items ->
  exists lastWriteTime checksum genreIds artist release,
    let c' := committed (snd (processAudioFile W file s)) in
    last_write_time W file = Some lastWriteTime /\
    computeCrc W file = Some checksum /\
    In (artist, nameOr (itemArtist items)) (rows (artists c')) /\
    In (release, nameOr (itemAlbum items)) (rows (releases c')) /\
    Forall2 (fun id name => In (id, name) (rows (genres c'))) genreIds
      match genreListOf items with
      | [] => [noneName]
      | names => names
      end /\
    stored c' file
    = Some (fst r,
            {| track_path := track_path (snd r);
               track_checksum := checksum;
               track_lastWriteTime := Some lastWriteTime;
               track_name := titleOf file items;
               track_genreList := joinGenres (genreListOf items);
               track_genres := genreIds;
               track_artist := artist;
               track_release := release;
               track_trackNumber := default (track_trackNumber (snd r))
                                      (itemTrackNumber items);
               track_discNumber := default (track_discNumber (snd r))
                                     (itemDiscNumber items);
               track_duration := default (track_duration (snd r))
                                   (itemDuration items);
               track_creationTime :=
                 match itemCreationTime items with
                 | Some time => Some time
                 | None => track_creationTime (snd r)
                 end;
               track_scanVersion := track_scanVersion (snd r) |}).
Proof.
  intros Hs Hr Hres.
  destruct (resolves_pure _ _ _ Hres)
    as (lastWriteTime & checksum & Ht & Hc & _ & _ & Hpure).
  pose proof (stored_pureResolve file lastWriteTime checksum items
                (committed s)) as Hst.
  pose proof (pureResolveNames_spec items (committed s)) as Hn.
  pose proof (pureResolveNames_genres items (committed s)) as Hg.
  pose proof (pureResolve_names file lastWriteTime checksum items
                (option_map loaded (stored (committed s) file))
                (committed s)) as Hk.
  destruct (pureResolveNames items (committed s))
    as [[[artist release] genreIds] w1].
  destruct Hn as (Hin & _ & _ & _ & Hrel). destruct Hk as [Hkr Hkg].
  cbv zeta in Hst. destruct Hst as [Ha Hst].
  rewrite Hr in Hst. rewrite writeFields_fields in Hst.
  exists lastWriteTime, checksum, genreIds, artist, release. cbv zeta.
  rewrite (committed_run W file s Hs), Hpure, Ha, Hkr, Hkg.
  split; [exact Ht|]. split; [exact Hc|]. split; [exact Hin|].
  split; [exact Hrel|]. split; [exact Hg|].
  now rewrite Hr.
Qed.

End Resolution.

(** The stored track re-processed from a file tagged with a title and an
    artist only. *)
Lemma taggedFile_resolves :
  resolves taggedWorld storedDb songPath (entry_items taggedFile).
Proof.
  exists 200%Z, [Byte.x02], (entry_media taggedFile).
  repeat split; try reflexivity; discriminate.
Defined.

Lemma reprocess_overwrites_witness :
  transaction (idle storedDb) = None /\
  stored storedDb songPath = Some (1, storedTrack) /\
  resolves taggedWorld storedDb songPath (entry_items taggedFile) /\
  track_genres storedTrack = [1] /\
  track_release storedTrack = 1 /\
  exists t,
    stored
      (committed (snd (processAudioFile taggedWorld songPath (idle storedDb))))
      songPath
    = Some (1, t) /\
    track_name t = "Song" /\ track_checksum t = [Byte.x02] /\
    track_lastWriteTime t = Some 200%Z /\
    track_trackNumber t = 7%N /\ track_discNumber t = 1%N /\
    track_artist t = 1 /\ track_release t = 2 /\ track_genres t = [2] /\
    rows (releases
            (committed
               (snd (processAudioFile taggedWorld songPath (idle storedDb)))))
    = [(1, "Album"); (2, noneName)] /\
    rows (genres
            (committed
               (snd (processAudioFile taggedWorld songPath (idle storedDb)))))
    = [(1, "Rock"); (2, noneName)].
Proof.
  split; [reflexivity|]. split; [reflexivity|].
  split; [exact taggedFile_resolves|].
  split; [reflexivity|]. split; [reflexivity|].
  destruct (reprocess_overwrites taggedWorld (idle storedDb) songPath
              (entry_items taggedFile) (1, storedTrack) eq_refl eq_refl
              taggedFile_resolves)
    as (lastWriteTime & checksum & genreIds & artist & release & Ht & Hc
        & Hartist & Hrelease & Hgenres & Hst).
  injection Ht as <-. injection Hc as <-.
  assert (Ha : artist = 1).
  { vm_compute in Hartist. destruct Hartist as [H|[]]. now inversion H. }
  assert (Hr : release = 2).
  { vm_compute in Hrelease.
    destruct Hrelease as [H|[H|[]]]; now inversion H. }
  assert (Hg : genreIds = [2]).
  { vm_compute in Hgenres.
    inversion Hgenres as [|id name ids names Hid Hrest]; subst.
    inversion Hrest; subst.
    destruct Hid as [H|[H|[]]]; now inversion H. }
  subst artist release genreIds.
  eexists. split; [exact Hst|]. cbn.
  do 8 (split; [reflexivity|]). split; vm_compute; reflexivity.
Defined.

(** C6, as stated, fails: the file carries no track number, and the
    re-processed track still has the 7 of the previous scan instead of
    the 0 of a track without that tag. *)
Lemma reprocess_keeps_untagged_fields :
  ~ (forall W s file items r r',
        transaction s = None ->
        stored (committed s) file = Some r ->
        resolves W (committed s) file items ->
        itemTrackNumber items = None ->
        stored (committed (snd (processAudioFile W file s))) file = Some r' ->
        track_trackNumber (snd r') = track_trackNumber (newTrack file 0 0)).
Proof.
  intros H.
  specialize (H taggedWorld (idle storedDb) songPath
                (entry_items taggedFile) (1, storedTrack)
                (1, writeFields 200%Z [Byte.x02] "Song" EmptyString [2] 1 2
                      (entry_items taggedFile) storedTrack)
                eq_refl eq_refl taggedFile_resolves eq_refl).
  vm_compute in H. specialize (H eq_refl). discriminate.
Qed.

(** *** Files the scan calls skipped *)

Section Skipped.
Variable W : World.

(** Without an audio stream the run ends after its log line: whatever
    was stored stays. *)
Lemma no_audio_stream_store_unchanged s file :
  transaction s = None ->
  (exists mediaFile,
      openMedia W file = Some mediaFile /\
      getAudioStreams mediaFile = []) ->
  committed (snd (processAudioFile W file s)) = committed s.
Proof.
  intros Hs (mediaFile & Hm & Ha).
  rewrite (committed_run W file s Hs). unfold pureProcess.
  destruct (last_write_time W file); [|reflexivity].
  destruct (skipsOnTime _ _ _); [reflexivity|].
  destruct (computeCrc W file); [|reflexivity].
  destruct (skipsOnChecksum _ _ _); [reflexivity|].
  destruct (parse W file); [|reflexivity].
  now rewrite Hm, Ha.
Qed.

(** A file seen for the first time, with an audio stream and a duration
    of zero, gets a track. *)
Lemma zero_duration_new_file_stored s file lastWriteTime checksum items
    mediaFile :
  transaction s = None ->
  stored (committed s) file = None ->
  last_write_time W file = Some lastWriteTime ->
  computeCrc W file = Some checksum ->
  parse W file = Some items ->
  openMedia W file = Some mediaFile ->
  getAudioStreams mediaFile <> [] ->
  durationSeconds mediaFile = 0%Z ->
  exists t,
    stored (committed (snd (processAudioFile W file s))) file
    = Some (nextId (tracks (committed s)), t).
Proof.
  intros Hs Hst Ht Hc Hp Hm Ha Hd.
  rewrite (committed_run W file s Hs).
  unfold pureProcess, skipsOnTime, skipsOnChecksum.
  rewrite Ht, Hst, Hc, Hp, Hm, Hd.
  destruct (getAudioStreams mediaFile); [congruence|]. cbn [Z.eqb fst option_map].
  pose proof (stored_pureResolve file lastWriteTime checksum items
                (committed s)) as H.
  rewrite Hst in H. cbn [option_map] in H.
  destruct (pureResolveNames items (committed s))
    as [[[artist release] genres] w1].
  destruct H as [_ H]. eexists. exact H.
Qed.

End Skipped.

(** *** Artists are not duplicated *)

Section Deduplication.
Variable W : World.

Lemma writeFields_artist lastWriteTime checksum title genreList genres
    artist release items t :
  track_artist (writeFields lastWriteTime checksum title genreList genres
                  artist release items t) = artist.
Proof. now rewrite writeFields_fields. Qed.

(** One file resolved: the artists stay unique, none is lost, and the
    track of the file references the row that carries its artist tag. *)
Lemma resolve_artist c file items name :
  resolves W c file items ->
  itemArtist items = Some name ->
  uniqueNames (artists c) ->
  let c' := fst (pureProcess W file c) in
  uniqueNames (artists c') /\
  incl (rows (artists c)) (rows (artists c')) /\
  exists id r,
    In (id, name) (rows (artists c')) /\
    stored c' file = Some r /\ track_artist (snd r) = id.
Proof.
  intros Hres Hname Huniq.
  destruct (resolves_pure W _ _ _ Hres)
    as (lastWriteTime & checksum & _ & _ & _ & _ & Hpure).
  cbv zeta. rewrite Hpure.
  pose proof (stored_pureResolve file lastWriteTime checksum items c) as Hst.
  pose proof (pureResolveNames_spec items c) as Hn.
  destruct (pureResolveNames items c) as [[[artist release] genres] w1].
  destruct Hn as (Hin & Hincl & Hu & _). cbv zeta in Hst.
  destruct Hst as [Ha Hst]. rewrite Ha, Hname in *. cbn [nameOr] in Hin.
  repeat split; auto.
  exists artist. eexists. split; [exact Hin|]. split; [exact Hst|].
  destruct (stored c file); cbn [snd]; apply writeFields_artist.
Qed.

(** The track of a file resolved earlier still references that row. *)
Lemma resolve_artist_other c file items name other id r :
  resolves W c file items ->
  itemArtist items = Some name ->
  uniqueNames (artists c) ->
  In (id, name) (rows (artists c)) ->
  stored c other = Some r ->
  track_artist (snd r) = id ->
  exists r',
    stored (fst (pureProcess W file c)) other = Some r' /\
    track_artist (snd r') = id.
Proof.
  intros Hres Hname Huniq Hid Hr Hart.
  destruct (resolves_pure W _ _ _ Hres)
    as (lastWriteTime & checksum & _ & _ & _ & _ & Hpure).
  rewrite Hpure.
  pose proof (stored_pureResolve_other file other lastWriteTime checksum
                items c r Hr) as Hst.
  pose proof (pureResolveNames_spec items c) as Hn.
  destruct (pureResolveNames items c) as [[[artist release] genres] w1].
  destruct Hn as (Hin & Hincl & Hu & _). cbv zeta in Hst.
  rewrite Hname in Hin. cbn [nameOr] in Hin.
  destruct Hst as [Hst|Hst]; eexists; (split; [exact Hst|]); [exact Hart|].
  cbn [snd]. rewrite writeFields_artist.
  apply (uniqueNames_same_id (artists w1) artist id name); auto.
Qed.

(** C8.  Two files that carry the same artist tag, each resolved when it
    is scanned, in a store whose artists have distinct names: afterwards
    exactly one Artist row carries that name, the artists still have
    distinct names, and the tracks of both files reference that row. *)
Theorem same_artist_one_row s file1 file2 items1 items2 name :
  transaction s = None ->
  uniqueNames (artists (committed s)) ->
  let s1 := snd (processAudioFile W file1 s) in
  let s2 := snd (processAudioFile W file2 s1) in
  resolves W (committed s) file1 items1 ->
  resolves W (committed s1) file2 items2 ->
  itemArtist items1 = Some name ->
  itemArtist items2 = Some name ->
  exists id r1 r2,
    rowsNamed name (artists (committed s2)) = [(id, name)] /\
    uniqueNames (artists (committed s2)) /\
    stored (committed s2) file1 = Some r1 /\ track_artist (snd r1) = id /\
    stored (committed s2) file2 = Some r2 /\ track_artist (snd r2) = id.
Proof.
  intros Hs Huniq s1 s2 Hres1 Hres2 Hname1 Hname2.
  assert (Hs1 : transaction s1 = None)
    by (unfold s1; now rewrite (processAudioFile_spec W file1 s Hs)).
  unfold s2. rewrite (committed_run W file2 s1 Hs1).
  unfold s1 in *. rewrite (committed_run W file1 s Hs) in *.
  destruct (resolve_artist _ _ _ _ Hres1 Hname1 Huniq)
    as (Hu1 & _ & id & r1 & Hid1 & Hst1 & Hart1).
  destruct (resolve_artist _ _ _ _ Hres2 Hname2 Hu1)
    as (Hu2 & Hincl2 & id2 & r2 & Hid2 & Hst2 & Hart2).
  destruct (resolve_artist_other _ _ _ _ file1 id r1 Hres2 Hname2 Hu1 Hid1
              Hst1 Hart1) as (r1' & Hst1' & Hart1').
  assert (id2 = id) as ->
    by (apply (uniqueNames_same_id _ id2 id name Hu2); auto).
  exists id, r1', r2. repeat split; auto.
  apply rowsNamed_unique; auto.
Qed.

End Deduplication.

(** Two files tagged with the artist of name Band, scanned into an empty
    store. *)
Lemma same_artist_one_row_witness :
  transaction (idle emptyDb) = None /\
  uniqueNames (artists emptyDb) /\
  resolves twoFilesWorld emptyDb songPath (entry_items taggedFile) /\
  resolves twoFilesWorld
    (committed (snd (processAudioFile twoFilesWorld songPath (idle emptyDb))))
    otherPath (entry_items otherTaggedFile) /\
  exists id r1 r2,
    rowsNamed "Band"
      (artists
         (committed
            (snd (processAudioFile twoFilesWorld otherPath
                    (snd (processAudioFile twoFilesWorld songPath
                            (idle emptyDb))))))) = [(id, "Band")] /\
    uniqueNames
      (artists
         (committed
            (snd (processAudioFile twoFilesWorld otherPath
                    (snd (processAudioFile twoFilesWorld songPath
                            (idle emptyDb))))))) /\
    stored
      (committed
         (snd (processAudioFile twoFilesWorld otherPath
                 (snd (processAudioFile twoFilesWorld songPath
                         (idle emptyDb)))))) songPath = Some r1 /\
    track_artist (snd r1) = id /\
    stored
      (committed
         (snd (processAudioFile twoFilesWorld otherPath
                 (snd (processAudioFile twoFilesWorld songPath
                         (idle emptyDb)))))) otherPath = Some r2 /\
    track_artist (snd r2) = id.
Proof.
  assert (Hu : uniqueNames (artists emptyDb)) by constructor.
  assert (Hres1 : resolves twoFilesWorld emptyDb songPath
                    (entry_items taggedFile)).
  { exists 200%Z, [Byte.x02], (entry_media taggedFile).
    repeat split; try reflexivity; discriminate. }
  assert (Hres2 : resolves twoFilesWorld
                    (committed (snd (processAudioFile twoFilesWorld songPath
                                       (idle emptyDb))))
                    otherPath (entry_items otherTaggedFile)).
  { exists 300%Z, [Byte.x03], (entry_media otherTaggedFile).
    repeat split; try reflexivity; discriminate. }
  do 4 (split; [first [reflexivity|assumption]|]).
  exact (same_artist_one_row twoFilesWorld (idle emptyDb) songPath otherPath
           _ _ "Band" eq_refl Hu Hres1 Hres2 eq_refl eq_refl).
Defined.

Example two_files_one_artist :
  rows
    (artists
       (committed
          (snd (processAudioFile twoFilesWorld otherPath
                  (snd (processAudioFile twoFilesWorld songPath
                          (idle emptyDb))))))) = [(1, "Band")] /\
  List.map (fun r => (track_path (snd r), track_artist (snd r)))
    (rows
       (tracks
          (committed
             (snd (processAudioFile twoFilesWorld otherPath
                     (snd (processAudioFile twoFilesWorld songPath
                             (idle emptyDb))))))))
  = [(songPath, 1); (otherPath, 1)].
Proof. vm_compute. split; reflexivity. Qed.

(** *** The orphan reconciler *)

Section Reconciler.
Variable W : World.

Lemma setTracks_tracks w : setTracks (tracks w) w = w.
Proof. now destruct w. Qed.

Lemma filter_filter {A} (g h : A -> bool) (l : list A) :
  List.filter h (List.filter g l) = List.filter (fun a => g a && h a) l.
Proof.
  induction l as [|a l IH]; cbn; [reflexivity|].
  destruct (g a); cbn; [destruct (h a)|]; now rewrite IH.
Qed.

Lemma pureRemoveMissing_cons x all t :
  pureRemoveMissing W (x :: all) t
  = pureRemoveMissing W all
      (if isRegular (status W (track_path (snd x))) then t
       else deleteRow (fst x) t).
Proof. reflexivity. Qed.

Lemma pureRemoveMissing_rows all :
  forall t,
    rows (pureRemoveMissing W all t) = List.filter (survives W all) (rows t) /\
    nextId (pureRemoveMissing W all t) = nextId t.
Proof.
  induction all as [|x all IH]; intros t.
  - cbn. split; [|reflexivity]. induction (rows t) as [|r rs IHr]; cbn;
      [reflexivity|now rewrite <- IHr].
  - rewrite pureRemoveMissing_cons.
    destruct (isRegular (status W (track_path (snd x)))) eqn:E.
    + destruct (IH t) as [H1 H2]. split; [|exact H2]. rewrite H1.
      apply filter_ext. intros r. cbn. now rewrite E.
    + destruct (IH (deleteRow (fst x) t)) as [H1 H2]. split; [|exact H2].
      rewrite H1. cbn [deleteRow rows]. rewrite filter_filter.
      apply filter_ext. intros r. cbn. now rewrite E.
Qed.

Lemma same_id_same_row {A} (l : list (nat * A)) x y :
  List.NoDup (List.map fst l) -> In x l -> In y l -> fst x = fst y -> x = y.
Proof.
  induction l as [|z l IH]; cbn; [tauto|].
  intros Hnd Hx Hy Heq. inversion Hnd as [|? ? Hnotin Hnd']; subst.
  destruct Hx as [->|Hx], Hy as [->|Hy]; auto.
  - exfalso. apply Hnotin. rewrite Heq. now apply in_map.
  - exfalso. apply Hnotin. rewrite <- Heq. now apply in_map.
Qed.

(** With distinct ids, the rows that survive the loop over the whole
    table are those backed by a regular file. *)
Lemma survivors_backed (rs : list (nat * Track)) :
  List.NoDup (List.map fst rs) ->
  List.filter (survives W rs) rs = backed W rs.
Proof.
  intros Hnd. apply filter_ext_in. intros r Hr. unfold survives.
  destruct (isRegular (status W (track_path (snd r)))) eqn:E.
  - apply forallb_forall. intros x Hx.
    destruct (isRegular (status W (track_path (snd x)))) eqn:Ex;
      [reflexivity|]. cbn.
    destruct (Nat.eqb_spec (fst r) (fst x)) as [Heq|]; [|reflexivity].
    rewrite (same_id_same_row rs r x Hnd Hr Hx Heq) in E. congruence.
  - apply not_true_is_false. intros H.
    pose proof (proj1 (forallb_forall _ _) H r Hr) as Hr'. cbn in Hr'.
    now rewrite E, Nat.eqb_refl in Hr'.
Qed.

(** The loop: it stays inside the transaction; when it ends normally
    the working track table is the one [pureRemoveMissing] computes; and
    it ends normally when every status can be read. *)
Lemma removeMissing_run all :
  forall c w fk tr,
    exists r w' tr',
      removeMissing W (List.map loaded all) (inTx c w fk tr)
      = (r, inTx c w' fk tr') /\
      (r = Ok tt -> w' = setTracks (pureRemoveMissing W all (tracks w)) w) /\
      ((forall row, In row all ->
                    status W (track_path (snd row)) <> StatusError) ->
       r = Ok tt).
Proof.
  induction all as [|x all IH]; intros c w fk tr.
  - exists (Ok tt), w, tr. cbn. repeat split; auto.
    intros _. now rewrite setTracks_tracks.
  - cbn [List.map removeMissing loaded ptr_obj].
    unfold fs_exists, fs_is_regular.
    rewrite pureRemoveMissing_cons.
    destruct (status W (track_path (snd x))) eqn:E; cbn [isRegular].
    + exists (Throw (StdException "boost::filesystem::status")), w, tr.
      repeat split; try discriminate.
      intros H. exfalso. apply (H x); [now left|exact E].
    + repeat first [run_step | progress cbn [negb]].
      destruct (IH c (setTracks (deleteRow (fst x) (tracks w)) w) fk
                  (tr ++ [Log (RemovingFile (track_path (snd x)))]))
        as (r & w' & tr' & Hrun & Hok & Hall).
      exists r, w', tr'. cbn [ptr_id loaded]. rewrite Hrun. repeat split.
      * intros Hr. rewrite (Hok Hr). now destruct w.
      * intros H. apply Hall. intros row Hrow. apply H. now right.
    + repeat first [run_step | progress cbn [negb]].
      destruct (IH c w fk tr) as (r & w' & tr' & Hrun & Hok & Hall).
      exists r, w', tr'. rewrite Hrun. repeat split; auto.
      intros H. apply Hall. intros row Hrow. apply H. now right.
    + repeat first [run_step | progress cbn [negb]].
      destruct (IH c (setTracks (deleteRow (fst x) (tracks w)) w) fk
                  (tr ++ [Log (RemovingFile (track_path (snd x)))]))
        as (r & w' & tr' & Hrun & Hok & Hall).
      exists r, w', tr'. cbn [ptr_id loaded]. rewrite Hrun. repeat split.
      * intros Hr. rewrite (Hok Hr). now destruct w.
      * intros H. apply Hall. intros row Hrow. apply H. now right.
    + repeat first [run_step | progress cbn [negb]].
      destruct (IH c (setTracks (deleteRow (fst x) (tracks w)) w) fk
                  (tr ++ [Log (RemovingFile (track_path (snd x)))]))
        as (r & w' & tr' & Hrun & Hok & Hall).
      exists r, w', tr'. cbn [ptr_id loaded]. rewrite Hrun. repeat split.
      * intros Hr. rewrite (Hok Hr). now destruct w.
      * intros H. apply Hall. intros row Hrow. apply H. now right.
Qed.

Lemma emit_idle (e : Event) (c : Db) fk tr :
  emit e (mkSession c None fk tr) = (Ok tt, mkSession c None fk (tr ++ [e])).
Proof. reflexivity. Qed.

Lemma withTransaction_run {A} (body : MS A) c fk tr :
  withTransaction body (mkSession c None fk tr)
  = match body (inTx c c fk tr) with
    | (Ok a, s') => (Ok a, commit_ s')
    | (Throw e, s') => (Throw e, rollback_ s')
    end.
Proof. reflexivity. Qed.

Lemma Track_getAll_run c w fk tr :
  Track_getAll (inTx c w fk tr)
  = (Ok (List.map loaded (rows (tracks w))), inTx c w fk tr).
Proof. reflexivity. Qed.

(** C9.  In a store whose tracks have distinct ids, the reconciler runs
    in one transaction of its own: when it returns, the track table
    holds exactly the rows whose path is an existing regular file, each
    as it was and in the same order, and nothing else in the store has
    changed; when a status cannot be read it throws and the store is as
    before; and it returns whenever every status can be read. *)
Theorem removeMissingAudioFiles_reconciles s :
  transaction s = None ->
  List.NoDup (List.map fst (rows (tracks (committed s)))) ->
  exists r s',
    removeMissingAudioFiles W s = (r, s') /\
    transaction s' = None /\
    match r with
    | Ok _ =>
        committed s'
        = setTracks
            (mkTable (backed W (rows (tracks (committed s))))
               (nextId (tracks (committed s))))
            (committed s)
    | Throw _ => committed s' = committed s
    end /\
    ((forall row, In row (rows (tracks (committed s))) ->
                  status W (track_path (snd row)) <> StatusError) ->
     r = Ok tt).
Proof.
  destruct s as [c [w|] fk tr]; cbn [transaction committed]; [discriminate|].
  intros _ Hnd.
  unfold removeMissingAudioFiles.
  rewrite (bind_ok _ _ _ _ _ (emit_idle _ _ _ _)).
  set (tr1 := tr ++ [Log RemovingMissingFiles]).
  destruct (removeMissing_run (rows (tracks c)) c c fk tr1)
    as (r & w' & tr' & Hrun & Hok & Hall).
  destruct r as [[]|e].
  - erewrite bind_ok.
    2:{ rewrite withTransaction_run.
        rewrite (bind_ok _ _ _ _ _ (Track_getAll_run _ _ _ _)).
        rewrite (bind_ok _ _ _ _ _ Hrun), commit_run. reflexivity. }
    eexists _, _. split; [reflexivity|]. cbn. repeat split.
    rewrite (Hok eq_refl). f_equal.
    destruct (pureRemoveMissing_rows (rows (tracks c)) (tracks c)) as [H1 H2].
    rewrite survivors_backed in H1 by exact Hnd.
    destruct (pureRemoveMissing W _ _). cbn in *. now subst.
  - erewrite bind_throw.
    2:{ rewrite withTransaction_run.
        rewrite (bind_ok _ _ _ _ _ (Track_getAll_run _ _ _ _)).
        rewrite (bind_throw _ _ _ _ _ Hrun). reflexivity. }
    eexists _, _. split; [reflexivity|]. cbn. repeat split. exact Hall.
Qed.

End Reconciler.

(** Two stored tracks, the file of the first one gone. *)
Lemma removeMissingAudioFiles_reconciles_witness :
  transaction (idle twoTracksDb) = None /\
  List.NoDup (List.map fst (rows (tracks twoTracksDb))) /\
  exists r s',
    removeMissingAudioFiles otherOnlyWorld (idle twoTracksDb) = (r, s') /\
    transaction s' = None /\
    match r with
    | Ok _ =>
        committed s'
        = setTracks
            (mkTable (backed otherOnlyWorld (rows (tracks twoTracksDb)))
               (nextId (tracks twoTracksDb)))
            twoTracksDb
    | Throw _ => committed s' = twoTracksDb
    end /\
    ((forall row, In row (rows (tracks twoTracksDb)) ->
                  status otherOnlyWorld (track_path (snd row))
                  <> StatusError) ->
     r = Ok tt).
Proof.
  assert (Hnd : List.NoDup (List.map fst (rows (tracks twoTracksDb)))).
  { cbn. constructor; [intros [H|[]]; discriminate H|].
    constructor; [intros []|constructor]. }
  split; [reflexivity|]. split; [exact Hnd|].
  exact (removeMissingAudioFiles_reconciles otherOnlyWorld (idle twoTracksDb)
           eq_refl Hnd).
Defined.

Example reconcile_two_tracks :
  List.map fst
    (rows
       (tracks
          (committed
             (snd (removeMissingAudioFiles otherOnlyWorld
                     (idle twoTracksDb))))))
  = [2].
Proof. vm_compute. reflexivity. Qed.

End ScannerFacts.

(** ** The migration, step by step *)

Module MigrationProperties.
Import Migration MigrationSteps MigrationFacts.

Section Engine.
Context {SqlDb : Type}.
Variable sqlExecute : Sql -> SqlDb -> option SqlDb.
Variable K : Constants.

Abbreviation MM := (MM (SqlDb := SqlDb)).
Abbreviation migrate := (migrate sqlExecute K).
Abbreviation migrationTurn := (migrationTurn sqlExecute K).
Abbreviation migrationLoop := (migrationLoop sqlExecute K).
Abbreviation doDbMigration := (doDbMigration sqlExecute K).
Abbreviation versionRead := (versionRead (SqlDb := SqlDb) K).
Abbreviation target := (LMS_DATABASE_VERSION K).

(** *** Triples *)

Lemma triple_ret {A} (P : Store SqlDb -> Prop) (a : A) :
  triple P (ret a : MM A) (fun _ w => P w).
Proof.
  intros c w fk tr a' s' HP [= <- <-]. now exists w, tr.
Qed.

Lemma triple_bind {A B} (P : Store SqlDb -> Prop) (Q : A -> Store SqlDb -> Prop)
    (R : B -> Store SqlDb -> Prop) (m : MM A) (k : A -> MM B) :
  triple P m Q -> (forall a, triple (Q a) (k a) R) -> triple P (bind m k) R.
Proof.
  intros Hm Hk c w fk tr b s' HP E. unfold bind in E.
  destruct (m (inTx c w fk tr)) as [[a|e] s1] eqn:E1; [|discriminate].
  destruct (Hm _ _ _ _ _ _ HP E1) as (w1 & tr1 & -> & HQ).
  exact (Hk a _ _ _ _ _ _ HQ E).
Qed.

Lemma triple_weaken {A} (P : Store SqlDb -> Prop)
    (Q Q' : A -> Store SqlDb -> Prop) (m : MM A) :
  triple P m Q -> (forall a w, Q a w -> Q' a w) -> triple P m Q'.
Proof.
  intros Hm HQ c w fk tr a s' HP E.
  destruct (Hm _ _ _ _ _ _ HP E) as (w1 & tr1 & -> & H). eauto.
Qed.

(** A statement changes the tables only. *)
Lemma triple_execute q st vi :
  triple (fun w => scanSettings w = st /\ versionInfo w = vi)
    (execute sqlExecute q)
    (fun _ w => scanSettings w = st /\ versionInfo w = vi).
Proof.
  intros c w fk tr [] s' HP E.
  unfold execute, bind, getStore, putStore, inTx in E. cbn in E.
  destruct (sqlExecute q (tables w)) as [t|]; cbn in E; [|discriminate].
  injection E as <-. eexists _, tr. split; [reflexivity|]. exact HP.
Qed.

(** [ScanSettings::get(session).modify()] changes the one settings row. *)
Lemma triple_ScanSettings_modify f st vi :
  triple (fun w : Store SqlDb => scanSettings w = [st] /\ versionInfo w = vi)
    (ScanSettings_modify f)
    (fun _ w => scanSettings w = [f st] /\ versionInfo w = vi).
Proof.
  intros c w fk tr [] s' [HP HV] E.
  unfold ScanSettings_modify, bind, getStore, putStore, inTx in E. cbn in E.
  rewrite HP in E. cbn in E.
  injection E as <-. eexists _, tr. split; [reflexivity|]. now cbn.
Qed.

Lemma triple_emit (P : Store SqlDb -> Prop) l :
  triple P (emit l : MM unit) (fun _ w => P w).
Proof.
  intros c w fk tr [] s' HP [= <-]. eexists w, _. split; [reflexivity|exact HP].
Qed.

Lemma triple_throw {A} (P : Store SqlDb -> Prop) (Q : A -> Store SqlDb -> Prop)
    e :
  triple P (throw e : MM A) Q.
Proof. intros c w fk tr a s' _ [=]. Qed.

Ltac triple_steps :=
  repeat (cbv beta;
          first
            [ simple apply triple_ScanSettings_modify
            | simple apply triple_execute
            | simple apply triple_throw
            | eapply triple_bind; [ | intros ] ]).

(** What the step of one version does to the scan settings when it ends
    normally; it never touches the version record. *)
Lemma triple_migrate v st vi :
  triple (fun w : Store SqlDb => scanSettings w = [st] /\ versionInfo w = vi)
    (migrate v)
    (fun _ w => scanSettings w = [settingsStep v st] /\ versionInfo w = vi).
Proof.
  unfold Migration.migrate.
  repeat match goal with
         | |- context [(v =? ?k)%N] =>
             destruct (N.eqb_spec v k);
             [ subst v;
               cbv [settingsStep forcesRescan existsb N.eqb Pos.eqb orb];
               triple_steps | ]
         end.
  eapply triple_bind; [apply triple_emit|intros; apply triple_throw].
Qed.

(** *** Turns *)

Lemma migrationTurn_rest c fk tr :
  exists r c' tr',
    migrationTurn (mkSession c None fk tr) = (r, mkSession c' None fk tr').
Proof.
  destruct (versionRead c) as [[v w]|] eqn:Hread.
  - destruct (N.eq_dec v target) as [Heq|Hne].
    + destruct (migrationTurn_current sqlExecute K c fk tr v w Hread Heq)
        as [evs E]. eauto.
    + destruct (migrationTurn_migrate sqlExecute K c fk tr v w Hread Hne)
        as (r & w' & evs & tr' & _ & _ & E).
      destruct r as [[]|e]; eauto.
  - destruct (migrationTurn_unreadable sqlExecute K c fk tr Hread) as [evs E].
    eauto.
Qed.

(** A turn on a store that holds the target version: two log lines. *)
Lemma migrationTurn_current_run c fk tr :
  versionInfo c = [mkVersionInfo target] ->
  migrationTurn (mkSession c None fk tr)
  = (Ok LoopReturn,
     mkSession c None fk
       (tr ++ [LogVersions target target; LogUpToDate target])).
Proof.
  intros Hc.
  unfold Migration.migrationTurn, withTransaction, migrationBody,
    readVersion, VersionInfo_getOrCreate, tryCatch, bind, getStore, begin_.
  cbn. rewrite Hc. cbn. rewrite N.eqb_refl. cbn.
  now rewrite <- app_assoc.
Qed.

(** A turn that goes on, from a store with its one settings row. *)
Lemma migrationTurn_continue c fk tr v st s' :
  versionInfo c = [mkVersionInfo v] ->
  scanSettings c = [st] ->
  migrationTurn (mkSession c None fk tr) = (Ok LoopContinue, s') ->
  v <> target /\
  exists t tr',
    s' = mkSession (mkStore [mkVersionInfo (v + 1)%N] [settingsStep v st] t)
           None fk tr'.
Proof.
  intros Hc Hst E.
  pose proof (versionRead_singleton K c v Hc) as Hread.
  destruct (N.eq_dec v target) as [Heq|Hne].
  - subst v. rewrite (migrationTurn_current_run c fk tr Hc) in E.
    discriminate.
  - split; [exact Hne|].
    destruct (migrationTurn_migrate sqlExecute K c fk tr v c Hread Hne)
      as (r & w' & evs & tr' & I & _ & E').
    rewrite E' in E. destruct r as [[]|e]; [|discriminate].
    injection E as <-.
    destruct (triple_migrate v st (versionInfo c) c c fk tr tt _
                (conj Hst eq_refl) (I c fk tr))
      as (w2 & tr2 & Heq & Hs & _).
    injection Heq as <- _. rewrite Hs. eauto.
Qed.

(** *** The loop *)

(** What every turn keeps, the loop keeps; and the loop leaves the
    session at rest, the pragma as it found it. *)
Lemma migrationLoop_invariant (I : Store SqlDb -> Prop) :
  (forall c fk tr r s',
      I c -> migrationTurn (mkSession c None fk tr) = (r, s') ->
      I (committed s')) ->
  forall fuel c fk tr,
    I c ->
    exists r c' tr',
      migrationLoop fuel (mkSession c None fk tr)
      = (r, mkSession c' None fk tr') /\ I c'.
Proof.
  intros Hturn. induction fuel as [|fuel IH]; intros c fk tr Hc.
  - exists (Ok None), c, tr. split; [reflexivity|exact Hc].
  - cbn [Migration.migrationLoop].
    destruct (migrationTurn_rest c fk tr) as (r & c' & tr' & E).
    pose proof (Hturn _ _ _ _ _ Hc E) as Hc'. cbn in Hc'.
    destruct r as [[]|e].
    + rewrite (bind_ok _ _ _ _ _ E). cbn. eauto.
    + rewrite (bind_ok _ _ _ _ _ E). apply IH. exact Hc'.
    + rewrite (bind_throw _ _ _ _ _ E). eauto.
Qed.

(** When the loop returns, the version record holds the target. *)
Lemma migrationLoop_returns fuel :
  forall c fk tr s',
    migrationLoop fuel (mkSession c None fk tr) = (Ok (Some tt), s') ->
    versionInfo (committed s') = [mkVersionInfo target].
Proof.
  induction fuel as [|fuel IH]; intros c fk tr s' E; [discriminate|].
  cbn [Migration.migrationLoop] in E.
  destruct (versionRead c) as [[v w]|] eqn:Hread.
  - destruct (N.eq_dec v target) as [Heq|Hne].
    + destruct (migrationTurn_current sqlExecute K c fk tr v w Hread Heq)
        as [evs E'].
      rewrite (bind_ok _ _ _ _ _ E') in E. injection E as <-. cbn.
      subst v. exact (versionRead_versionInfo K _ _ _ Hread).
    + destruct (migrationTurn_migrate sqlExecute K c fk tr v w Hread Hne)
        as (r & w' & evs & tr' & _ & _ & E').
      destruct r as [[]|e].
      * rewrite (bind_ok _ _ _ _ _ E') in E. exact (IH _ _ _ _ E).
      * rewrite (bind_throw _ _ _ _ _ E') in E. discriminate.
  - destruct (migrationTurn_unreadable sqlExecute K c fk tr Hread) as [evs E'].
    rewrite (bind_throw _ _ _ _ _ E') in E. discriminate.
Qed.

Lemma stepsBetween_nil v : stepsBetween v v = [].
Proof. unfold stepsBetween. now rewrite N.sub_diag. Qed.

Lemma stepsBetween_cons v t :
  (v < t)%N -> stepsBetween v t = v :: stepsBetween (v + 1)%N t.
Proof.
  intros H. unfold stepsBetween.
  replace (N.to_nat (t - v)) with (S (N.to_nat (t - (v + 1)))) by lia.
  cbn [seq List.map]. rewrite N.add_0_r. f_equal.
  rewrite <- seq_shift, List.map_map. apply List.map_ext. intros i. lia.
Qed.

(** The scan settings the loop leaves when it returns. *)
Lemma migrationLoop_settings fuel :
  forall c fk tr v st s',
    versionInfo c = [mkVersionInfo v] ->
    scanSettings c = [st] ->
    (v <= target)%N ->
    migrationLoop fuel (mkSession c None fk tr) = (Ok (Some tt), s') ->
    scanSettings (committed s')
    = [settingsAfter (stepsBetween v target) st].
Proof.
  induction fuel as [|fuel IH]; intros c fk tr v st s' Hc Hst Hv E;
    [discriminate|].
  cbn [Migration.migrationLoop] in E.
  destruct (migrationTurn_rest c fk tr) as (r & c' & tr' & E').
  destruct r as [[]|e].
  - rewrite (bind_ok _ _ _ _ _ E') in E. injection E as <-. cbn.
    destruct (N.eq_dec v target) as [Heq|Hne].
    + subst v. rewrite (migrationTurn_current_run c fk tr Hc) in E'.
      injection E' as <- _. now rewrite stepsBetween_nil.
    + pose proof (versionRead_singleton K c v Hc) as Hread.
      destruct (migrationTurn_migrate sqlExecute K c fk tr v c Hread Hne)
        as (r & w' & evs & tr2 & _ & _ & E2).
      rewrite E2 in E'. destruct r as [[]|e]; discriminate.
  - rewrite (bind_ok _ _ _ _ _ E') in E.
    destruct (migrationTurn_continue c fk tr v st _ Hc Hst E')
      as (Hne & t & tr2 & Heq).
    injection Heq as -> _.
    rewrite (stepsBetween_cons v target) by lia. cbn [settingsAfter fold_left].
    apply (fun H1 H2 H3 => IH _ _ _ (v + 1)%N (settingsStep v st) s'
                               H1 H2 H3 E); [reflexivity|reflexivity|lia].
  - rewrite (bind_throw _ _ _ _ _ E') in E. discriminate.
Qed.

Lemma settingsAfter_scanVersion steps :
  forall st,
    scanVersion (settingsAfter steps st)
    = (scanVersion st
       + N.of_nat (length (List.filter forcesRescan steps)))%N.
Proof.
  induction steps as [|v steps IH]; intros st; cbn [settingsAfter fold_left].
  - cbn. lia.
  - fold (settingsAfter steps (settingsStep v st)). rewrite IH.
    cbn [List.filter]. unfold settingsStep.
    destruct (forcesRescan v); cbn [length scanVersion incScanVersion];
      [lia|].
    destruct (v =? 10)%N; cbn; lia.
Qed.

Lemma settingsAfter_extensions steps :
  forall st ext,
    ext ∈ audioFileExtensions (settingsAfter steps st) <->
    ext ∈ audioFileExtensions st \/
    (In 10%N steps /\ (ext = ".m4b" \/ ext = ".alac")).
Proof.
  induction steps as [|v steps IH]; intros st ext;
    cbn [settingsAfter fold_left].
  - cbn. tauto.
  - fold (settingsAfter steps (settingsStep v st)). rewrite IH.
    cbn [In]. unfold settingsStep.
    destruct (forcesRescan v) eqn:Hf.
    + assert (v <> 10%N) by (intros ->; discriminate Hf).
      cbn. intuition congruence.
    + destruct (N.eqb_spec v 10) as [->|Hne].
      * cbn. rewrite !elem_of_union, !elem_of_singleton. tauto.
      * intuition congruence.
Qed.

Lemma In_stepsBetween x v t :
  In x (stepsBetween v t) <-> (v <= x < t)%N.
Proof.
  unfold stepsBetween. rewrite in_map_iff. split.
  - intros (i & <- & Hi). apply in_seq in Hi. lia.
  - intros H. exists (N.to_nat (x - v)). split; [lia|].
    apply in_seq. lia.
Qed.

(** *** Properties of the migration *)

(** X1.  [ScopedNoForeignKeys] runs what is in its scope with the
    enforcement of foreign keys off and switches it on again however the
    scope is left: whatever the body, it is run on the session with the
    pragma off (a body that reads the pragma reads it off), and the
    session handed back is the one the body left, with the pragma on, be
    it after a return or after a throw.  [doDbMigration] is its loop in
    that scope: the loop starts with the pragma off, ends with the pragma
    off and no transaction open, and [doDbMigration] hands back that
    very session with the pragma on. *)
Theorem doDbMigration_restores_foreign_keys s fuel :
  transaction s = None ->
  (forall A (body : MM A) r s',
      body (mkSession (committed s) None false (trace s)) = (r, s') ->
      scopedNoForeignKeys body s
      = (r, mkSession (committed s') (transaction s') true (trace s'))) /\
  fst (scopedNoForeignKeys (gets foreignKeys) s) = Ok false /\
  exists r c' tr',
    migrationLoop fuel (mkSession (committed s) None false (trace s))
    = (r, mkSession c' None false tr') /\
    doDbMigration fuel s = (r, mkSession c' None true tr').
Proof.
  destruct s as [c [w|] fk tr]; cbn [transaction committed trace];
    [discriminate|]. intros _. split; [|split].
  - intros A body r s' E.
    unfold scopedNoForeignKeys, bind, setForeignKeys, modify. cbn.
    now rewrite E.
  - reflexivity.
  - destruct (migrationLoop_invariant (fun _ => True) ltac:(auto) fuel c
                false tr I) as (r & c' & tr' & E & _).
    exists r, c', tr'. split; [exact E|].
    rewrite doDbMigration_run, E. reflexivity.
Qed.

(** X2.  A second run changes nothing: once [doDbMigration] has returned,
    the version record holds the target, and every further run returns
    on its first turn after two log lines, with the committed store
    untouched. *)
Theorem doDbMigration_idempotent s fuel s' fuel' :
  transaction s = None ->
  doDbMigration fuel s = (Ok (Some tt), s') ->
  (0 < fuel')%nat ->
  versionInfo (committed s') = [mkVersionInfo target] /\
  doDbMigration fuel' s'
  = (Ok (Some tt),
     mkSession (committed s') None true
       (trace s' ++ [LogVersions target target; LogUpToDate target])).
Proof.
  destruct s as [c [w|] fk tr]; cbn [transaction]; [discriminate|].
  intros _ E Hfuel. rewrite doDbMigration_run in E.
  destruct (migrationLoop_invariant (fun _ => True) ltac:(auto) fuel c false
              tr I) as (r & c' & tr' & E' & _).
  rewrite E' in E. cbn in E. injection E as -> <-.
  pose proof (migrationLoop_returns _ _ _ _ _ E') as Hv. cbn in Hv.
  cbn [committed trace]. split; [exact Hv|].
  destruct fuel' as [|fuel']; [lia|].
  rewrite doDbMigration_run. cbn [Migration.migrationLoop].
  rewrite (bind_ok _ _ _ _ _ (migrationTurn_current_run c' false tr' Hv)).
  reflexivity.
Qed.

(** X3.  When the version record cannot be read (there is more than one
    row), [doDbMigration] logs the failure and throws [LmsException]
    with the outdated-database message on its first turn; nothing is
    committed and the pragma is back on. *)
Theorem doDbMigration_unreadable_version s vi1 vi2 others fuel :
  transaction s = None ->
  versionInfo (committed s) = vi1 :: vi2 :: others ->
  (0 < fuel)%nat ->
  doDbMigration fuel s
  = (Throw (LmsException outdatedMsg),
     mkSession (committed s) None true
       (trace s
        ++ [LogCannotGetVersion
              (StdException "Dbo: NoUniqueResultException")])).
Proof.
  destruct s as [c [w|] fk tr]; cbn [transaction committed trace];
    [discriminate|]. intros _ Hc Hfuel.
  destruct fuel as [|fuel]; [lia|].
  rewrite doDbMigration_run. cbn [Migration.migrationLoop].
  unfold Migration.migrationTurn, withTransaction, migrationBody,
    readVersion, VersionInfo_getOrCreate, tryCatch, bind, getStore, begin_.
  cbn. rewrite Hc. reflexivity.
Qed.

(** X4.  On a store without a version record, the record is created on
    the first read with the version of a new [VersionInfo]; when that
    is the target, [doDbMigration] returns at once and the record is
    committed, the rest of the store being as it was. *)
Theorem doDbMigration_creates_version_record s fuel :
  transaction s = None ->
  versionInfo (committed s) = [] ->
  defaultVersion K = target ->
  (0 < fuel)%nat ->
  doDbMigration fuel s
  = (Ok (Some tt),
     mkSession
       (mkStore [mkVersionInfo target] (scanSettings (committed s))
          (tables (committed s)))
       None true
       (trace s ++ [LogVersions target target; LogUpToDate target])).
Proof.
  destruct s as [c [w|] fk tr]; cbn [transaction committed trace];
    [discriminate|]. intros _ Hc Hd Hfuel.
  destruct fuel as [|fuel]; [lia|].
  rewrite doDbMigration_run. cbn [Migration.migrationLoop].
  unfold Migration.migrationTurn, withTransaction, migrationBody,
    readVersion, VersionInfo_getOrCreate, tryCatch, bind, getStore, putStore,
    begin_.
  cbn. rewrite Hc. cbn. rewrite Hd, N.eqb_refl. cbn.
  now rewrite <- app_assoc.
Qed.



(** X6.  The steps that force a rescan are counted: when [doDbMigration]
    returns from a store at version [v] with its settings row, the
    [scanVersion] has gone up by the number of versions from [v] up to
    the target whose step calls [incScanVersion], and the audio file
    extensions are those it had, with [.m4b] and [.alac] if the step of
    version 10 was among them. *)
Theorem doDbMigration_scan_settings s v st fuel s' :
  transaction s = None ->
  versionInfo (committed s) = [mkVersionInfo v] ->
  scanSettings (committed s) = [st] ->
  (v <= target)%N ->
  doDbMigration fuel s = (Ok (Some tt), s') ->
  exists st',
    scanSettings (committed s') = [st'] /\
    scanVersion st' = (scanVersion st + rescansBetween v target)%N /\
    forall ext,
      ext ∈ audioFileExtensions st' <->
      ext ∈ audioFileExtensions st \/
      ((v <= 10 < target)%N /\ (ext = ".m4b" \/ ext = ".alac")).
Proof.
  destruct s as [c [w|] fk tr]; cbn [transaction committed];
    [discriminate|]. intros _ Hc Hst Hv E.
  rewrite doDbMigration_run in E.
  destruct (Migration.migrationLoop _ _ _ _) as [r s1] eqn:E1.
  cbn in E. injection E as -> <-. cbn [committed].
  pose proof (migrationLoop_settings _ _ _ _ _ _ _ Hc Hst Hv E1) as Hs.
  exists (settingsAfter (stepsBetween v target) st).
  split; [exact Hs|]. split.
  - apply settingsAfter_scanVersion.
  - intros ext. rewrite settingsAfter_extensions, In_stepsBetween.
    reflexivity.
Qed.


End Engine.

(** The store at version 7 whose step fails: the run throws, and the
    pragma is back on. *)
Lemma doDbMigration_restores_foreign_keys_witness :
  transaction (idle storeV7Broken : Session _ LogLine) = None /\
  fst (doDbMigration schemaExecute exampleConstants 28 (idle storeV7Broken))
  = Throw (StdException "Dbo: statement failed") /\
  foreignKeys
    (snd (doDbMigration schemaExecute exampleConstants 28
            (idle storeV7Broken)))
  = true /\
  (forall A (body : M (Session (Store (gmap string (list string))) LogLine) A)
          r s',
      body (mkSession storeV7Broken None false []) = (r, s') ->
      scopedNoForeignKeys body (idle storeV7Broken)
      = (r, mkSession (committed s') (transaction s') true (trace s'))) /\
  fst (scopedNoForeignKeys (gets foreignKeys)
         (idle storeV7Broken : Session _ LogLine))
  = Ok false /\
  exists r c' tr',
    migrationLoop schemaExecute exampleConstants 28
      (mkSession storeV7Broken None false [])
    = (r, mkSession c' None false tr') /\
    doDbMigration schemaExecute exampleConstants 28 (idle storeV7Broken)
    = (r, mkSession c' None true tr').
Proof.
  split; [reflexivity|]. split; [vm_compute; reflexivity|].
  split; [vm_compute; reflexivity|].
  exact (doDbMigration_restores_foreign_keys schemaExecute exampleConstants
           (idle storeV7Broken) 28 eq_refl).
Defined.

(** A store that holds the target version, migrated twice. *)
Lemma doDbMigration_idempotent_witness :
  transaction (idle storeCurrent : Session _ LogLine) = None /\
  doDbMigration schemaExecute exampleConstants 1 (idle storeCurrent)
  = (Ok (Some tt),
     mkSession storeCurrent None true
       [LogVersions 32%N 32%N; LogUpToDate 32%N]) /\
  (0 < 1)%nat /\
  versionInfo storeCurrent = [mkVersionInfo 32%N] /\
  doDbMigration schemaExecute exampleConstants 1
    (mkSession storeCurrent None true [LogVersions 32%N 32%N; LogUpToDate 32%N])
  = (Ok (Some tt),
     mkSession storeCurrent None true
       [LogVersions 32%N 32%N; LogUpToDate 32%N;
        LogVersions 32%N 32%N; LogUpToDate 32%N]).
Proof.
  split; [reflexivity|]. split; [reflexivity|]. split; [lia|].
  exact (doDbMigration_idempotent schemaExecute exampleConstants
           (idle storeCurrent) 1
           (mkSession storeCurrent None true
              [LogVersions 32%N 32%N; LogUpToDate 32%N])
           1 eq_refl eq_refl (Nat.lt_0_succ 0)).
Defined.

(** A store with two version records. *)
Lemma doDbMigration_unreadable_version_witness :
  transaction (idle storeTwoVersions : Session _ LogLine) = None /\
  versionInfo storeTwoVersions = [mkVersionInfo 31%N; mkVersionInfo 32%N] /\
  (0 < 1)%nat /\
  doDbMigration schemaExecute exampleConstants 1 (idle storeTwoVersions)
  = (Throw (LmsException outdatedMsg),
     mkSession storeTwoVersions None true
       [LogCannotGetVersion (StdException "Dbo: NoUniqueResultException")]).
Proof.
  split; [reflexivity|]. split; [reflexivity|]. split; [lia|].
  exact (doDbMigration_unreadable_version schemaExecute exampleConstants
           (idle storeTwoVersions) _ _ [] 1 eq_refl eq_refl
           (Nat.lt_0_succ 0)).
Defined.

(** A store without a version record. *)
Lemma doDbMigration_creates_version_record_witness :
  transaction (idle storeFresh : Session _ LogLine) = None /\
  versionInfo storeFresh = [] /\
  defaultVersion exampleConstants = LMS_DATABASE_VERSION exampleConstants /\
  (0 < 1)%nat /\
  doDbMigration schemaExecute exampleConstants 1 (idle storeFresh)
  = (Ok (Some tt),
     mkSession
       (mkStore [mkVersionInfo 32%N] (scanSettings storeFresh)
          (tables storeFresh))
       None true [LogVersions 32%N 32%N; LogUpToDate 32%N]).
Proof.
  split; [reflexivity|]. split; [reflexivity|]. split; [reflexivity|].
  split; [lia|].
  exact (doDbMigration_creates_version_record schemaExecute exampleConstants
           (idle storeFresh) 1 eq_refl eq_refl eq_refl (Nat.lt_0_succ 0)).
Defined.


Lemma storeV5_migrates :
  doDbMigration schemaExecute exampleConstants 28 (idle storeV5)
  = (Ok (Some tt),
     snd (doDbMigration schemaExecute exampleConstants 28 (idle storeV5))).
Proof.
  assert (H : fst (doDbMigration schemaExecute exampleConstants 28
                     (idle storeV5)) = Ok (Some tt))
    by (vm_compute; reflexivity).
  destruct (doDbMigration _ _ _ _) as [r s']. cbn in *. now subst r.
Qed.

(** The whole chain from version 5: sixteen of its steps force a
    rescan. *)
Lemma doDbMigration_scan_settings_witness :
  transaction (idle storeV5 : Session _ LogLine) = None /\
  versionInfo storeV5 = [mkVersionInfo 5%N] /\
  scanSettings storeV5 = [mkScanSettings 0%N {[ ".mp3" ]}] /\
  (5 <= LMS_DATABASE_VERSION exampleConstants)%N /\
  rescansBetween 5%N (LMS_DATABASE_VERSION exampleConstants) = 16%N /\
  exists st',
    scanSettings
      (committed
         (snd (doDbMigration schemaExecute exampleConstants 28
                 (idle storeV5))))
    = [st'] /\
    scanVersion st'
    = (0 + rescansBetween 5%N (LMS_DATABASE_VERSION exampleConstants))%N /\
    forall ext,
      ext ∈ audioFileExtensions st' <->
      ext ∈ ({[ ".mp3" ]} : gset string) \/
      ((5 <= 10 < LMS_DATABASE_VERSION exampleConstants)%N /\
       (ext = ".m4b" \/ ext = ".alac")).
Proof.
  assert (H : (5 <= LMS_DATABASE_VERSION exampleConstants)%N) by (cbn; lia).
  split; [reflexivity|]. split; [reflexivity|]. split; [reflexivity|].
  split; [exact H|]. split; [reflexivity|].
  exact (doDbMigration_scan_settings schemaExecute exampleConstants
           (idle storeV5) 5%N (mkScanSettings 0%N {[ ".mp3" ]}) 28 _
           eq_refl eq_refl eq_refl H storeV5_migrates).
Defined.


End MigrationProperties.

(** ** What the scan keeps *)

Module ScannerProperties.
Import Scanner Consistency ScannerFacts.

Lemma Named_eq_dec (k k' : Named) : {k = k'} + {k <> k'}.
Proof. decide equality. Qed.

(** *** The shape of a run *)

(** What [pureResolve] leaves: the named tables are those the resolution
    of the names leaves, and the track table is the one it found with the
    row of the file written. *)
Lemma pureResolve_shape file lastWriteTime checksum items track w :
  let '(artist, release, genres, w1) := pureResolveNames items w in
  let write := writeFields lastWriteTime checksum (titleOf file items)
                 (joinGenres (genreListOf items)) genres artist release
                 items in
  let c' := pureResolve file lastWriteTime checksum items track w in
  (forall k, namedTable k c' = namedTable k w1) /\
  tracks c'
  = match track with
    | None =>
        updateRow (nextId (tracks w)) write
          (snd (insertRow (newTrack file artist release) (tracks w)))
    | Some p =>
        if ptr_removed p then tracks w
        else updateRow (ptr_id p) write (tracks w)
    end.
Proof.
  unfold pureResolve.
  pose proof (pureResolveNames_spec items w) as Hn.
  destruct (pureResolveNames items w) as [[[artist release] genres] w1].
  destruct Hn as (_ & _ & _ & Ht & _). cbv zeta.
  destruct track as [p|].
  - unfold modifyDb. destruct (ptr_removed p).
    + split; [reflexivity|exact Ht].
    + split; [intros []; reflexivity|]. cbn. now rewrite Ht.
  - split; [intros []; reflexivity|]. cbn. now rewrite Ht.
Qed.

(** The three ways a run of [processAudioFile] ends: the store is as it
    was; the file was resolved against the store; or the stored track
    was removed for its duration of zero, and the names of the file were
    resolved all the same. *)
Lemma pureProcess_cases W file c :
  fst (pureProcess W file c) = c \/
  (exists lastWriteTime checksum items,
      last_write_time W file = Some lastWriteTime /\
      fst (pureProcess W file c)
      = pureResolve file lastWriteTime checksum items
          (option_map loaded (stored c file)) c) \/
  (exists lastWriteTime checksum items r,
      stored c file = Some r /\
      fst (pureProcess W file c)
      = pureResolve file lastWriteTime checksum items
          (Some (mkTrackPtr (fst r) (snd r) true))
          (setTracks (deleteRow (fst r) (tracks c)) c)).
Proof.
  unfold pureProcess.
  destruct (last_write_time W file) as [lastWriteTime|]; [|now left].
  destruct (skipsOnTime c file lastWriteTime); [now left|].
  destruct (computeCrc W file) as [checksum|]; [|now left].
  destruct (skipsOnChecksum c file checksum); [now left|].
  destruct (parse W file) as [items|]; [|now left].
  destruct (openMedia W file) as [mediaFile|]; [|now left].
  destruct (getAudioStreams mediaFile); [now left|].
  destruct (durationSeconds mediaFile =? 0)%Z; cbn [fst].
  - destruct (stored c file) as [r|] eqn:Hr; cbn [option_map].
    + right. right. exists lastWriteTime, checksum, items, r. auto.
    + right. left. exists lastWriteTime, checksum, items. auto.
  - right. left. exists lastWriteTime, checksum, items. auto.
Qed.

(** *** Tables and their ids *)

Lemma map_fst_updated {A} (f : A -> A) id (l : list (nat * A)) :
  List.map fst (List.map (updated f id) l) = List.map fst l.
Proof.
  rewrite List.map_map. apply List.map_ext. intros r. unfold updated.
  now destruct (fst r =? id)%nat.
Qed.

Lemma NoDup_map_filter {A B} (h : A -> B) (g : A -> bool) (l : list A) :
  List.NoDup (List.map h l) -> List.NoDup (List.map h (List.filter g l)).
Proof.
  induction l as [|a l IH]; cbn; [auto|].
  intros Hnd. inversion Hnd as [|? ? Hnotin Hnd']; subst.
  destruct (g a); cbn; [|auto].
  constructor; [|auto]. intros Hin. apply Hnotin.
  apply in_map_iff in Hin. destruct Hin as (x & Hx & Hin).
  apply filter_In in Hin. rewrite <- Hx. apply in_map. tauto.
Qed.

Lemma distinctIds_update {A} (f : A -> A) id (t : Table A) :
  distinctIds t -> distinctIds (updateRow id f t).
Proof.
  intros [Hnd Hlt]. split; cbn.
  - now rewrite map_fst_updated.
  - apply List.Forall_forall. intros r Hr. apply in_map_iff in Hr.
    destruct Hr as (x & <- & Hx).
    rewrite List.Forall_forall in Hlt. specialize (Hlt x Hx).
    unfold updated. now destruct (fst x =? id)%nat.
Qed.

Lemma distinctIds_filter {A} (g : nat * A -> bool) (t : Table A) :
  distinctIds t -> distinctIds (mkTable (List.filter g (rows t)) (nextId t)).
Proof.
  intros [Hnd Hlt]. split; cbn.
  - now apply NoDup_map_filter.
  - rewrite List.Forall_forall in *. intros r Hr. apply filter_In in Hr.
    apply Hlt. tauto.
Qed.

Lemma distinctIds_delete {A} id (t : Table A) :
  distinctIds t -> distinctIds (deleteRow id t).
Proof. apply distinctIds_filter. Qed.

Lemma distinctIds_insert {A} (a : A) (t : Table A) :
  distinctIds t -> distinctIds (snd (insertRow a t)).
Proof.
  intros [Hnd Hlt]. split; cbn.
  - rewrite List.map_app. cbn. apply List.NoDup_app; auto.
    + constructor; [intros []|constructor].
    + intros x Hx [<-|[]]. apply in_map_iff in Hx.
      destruct Hx as (r & Hr & Hin).
      rewrite List.Forall_forall in Hlt. specialize (Hlt r Hin). lia.
  - rewrite List.Forall_forall in *. intros r Hr. apply in_app_or in Hr.
    destruct Hr as [Hr|[<-|[]]]; [specialize (Hlt r Hr)|cbn]; lia.
Qed.

Lemma extends_refl {A} (t : Table A) : extends t t.
Proof. exists []. now rewrite app_nil_r. Qed.

Lemma extends_trans {A} (t1 t2 t3 : Table A) :
  extends t1 t2 -> extends t2 t3 -> extends t1 t3.
Proof.
  intros [e1 H1] [e2 H2]. exists (e1 ++ e2).
  now rewrite H2, H1, app_assoc.
Qed.

Lemma hasId_extends {A} id (t t' : Table A) :
  extends t t' -> hasId id t -> hasId id t'.
Proof.
  intros [extra H] Hin. unfold hasId in *. rewrite H, List.map_app.
  apply in_or_app. now left.
Qed.

(** *** Named entities *)

Lemma pureGetOrCreate_grows k name w :
  let r := pureGetOrCreate k name w in
  hasId (fst r) (namedTable k (snd r)) /\
  (forall k', extends (namedTable k' w) (namedTable k' (snd r))) /\
  (namedOk w -> namedOk (snd r)) /\
  tracks (snd r) = tracks w.
Proof.
  destruct (pureGetOrCreate_spec k name w) as (Hin & _ & Hu & Hk & Ht).
  cbv zeta. split; [|split; [|split; [|exact Ht]]].
  - unfold hasId. apply in_map_iff. eexists. split; [|exact Hin]. reflexivity.
  - intros k'. unfold pureGetOrCreate in *.
    destruct (findRow _ _); [apply extends_refl|].
    destruct k, k', w as [tr ar re ge]; cbn;
      first [apply extends_refl | now eexists].
  - intros Hok k'. destruct (Hok k') as [Hd Hn].
    destruct (Named_eq_dec k' k) as [->|Hne].
    + split; [|auto]. unfold pureGetOrCreate.
      destruct (findRow _ _); [exact Hd|].
      pose proof (distinctIds_insert name _ Hd) as Hi.
      destruct k, w as [tr ar re ge]; exact Hi.
    + now rewrite (Hk k' Hne).
Qed.

Lemma pureResolveGenres_grows genreList :
  forall w,
    let r := pureResolveGenres genreList w in
    Forall (fun g => hasId g (genres (snd r))) (fst r) /\
    (forall k', extends (namedTable k' w) (namedTable k' (snd r))) /\
    (namedOk w -> namedOk (snd r)) /\
    tracks (snd r) = tracks w.
Proof.
  induction genreList as [|genre rest IH]; intros w; cbn.
  - split; [constructor|]. split; [intros; apply extends_refl|]. auto.
  - destruct (pureGetOrCreate_grows GenreT genre w) as (H1 & H2 & H3 & H4).
    destruct (IH (snd (pureGetOrCreate GenreT genre w)))
      as (I1 & I2 & I3 & I4).
    split; [|split; [|split]].
    + constructor; [|exact I1].
      exact (hasId_extends _ _ _ (I2 GenreT) H1).
    + intros k'. exact (extends_trans _ _ _ (H2 k') (I2 k')).
    + auto.
    + congruence.
Qed.

(** The ids the resolution of the names hands to the track are ids of
    rows; there is at least one genre; the named tables only gain rows and
    stay in order; the tracks are not touched. *)
Lemma pureResolveNames_grows items w :
  let '(artist, release, genres_, w1) := pureResolveNames items w in
  hasId artist (artists w1) /\
  hasId release (releases w1) /\
  genres_ <> [] /\
  Forall (fun g => hasId g (genres w1)) genres_ /\
  (forall k, extends (namedTable k w) (namedTable k w1)) /\
  (namedOk w -> namedOk w1) /\
  tracks w1 = tracks w.
Proof.
  unfold pureResolveNames.
  set (a := pureGetOrCreate ArtistT _ w).
  set (r := pureGetOrCreate ReleaseT _ (snd a)).
  set (g := pureResolveGenres _ (snd r)).
  set (n := pureGetOrCreate GenreT noneName (snd g)).
  destruct (pureGetOrCreate_grows ArtistT (nameOr (itemArtist items)) w)
    as (A1 & A2 & A3 & A4). fold a in A1, A2, A3, A4.
  destruct (pureGetOrCreate_grows ReleaseT (nameOr (itemAlbum items)) (snd a))
    as (R1 & R2 & R3 & R4). fold r in R1, R2, R3, R4.
  destruct (pureResolveGenres_grows (genreListOf items) (snd r))
    as (G1 & G2 & G3 & G4). fold g in G1, G2, G3, G4.
  destruct (pureGetOrCreate_grows GenreT noneName (snd g))
    as (N1 & N2 & N3 & N4). fold n in N1, N2, N3, N4.
  assert (Hag : hasId (fst a) (artists (snd g))).
  { apply (hasId_extends _ _ _ (G2 ArtistT)).
    apply (hasId_extends _ _ _ (R2 ArtistT)). exact A1. }
  assert (Hrg : hasId (fst r) (releases (snd g)))
    by (apply (hasId_extends _ _ _ (G2 ReleaseT)); exact R1).
  assert (Hext : forall k, extends (namedTable k w) (namedTable k (snd g))).
  { intros k. eapply extends_trans; [apply A2|].
    eapply extends_trans; [apply R2|apply G2]. }
  destruct (fst g) as [|g1 gs] eqn:Hg.
  - split; [|split; [|split; [|split; [|split; [|split]]]]].
    + exact (hasId_extends _ _ _ (N2 ArtistT) Hag).
    + exact (hasId_extends _ _ _ (N2 ReleaseT) Hrg).
    + discriminate.
    + constructor; [exact N1|constructor].
    + intros k. exact (extends_trans _ _ _ (Hext k) (N2 k)).
    + auto.
    + congruence.
  - split; [exact Hag|]. split; [exact Hrg|]. split; [discriminate|].
    split; [exact G1|]. split; [exact Hext|]. split; [auto|congruence].
Qed.

(** *** The references of the tracks *)

Lemma resolved_grows c c' t :
  (forall k, extends (namedTable k c) (namedTable k c')) ->
  resolved c t -> resolved c' t.
Proof.
  intros Hext (Ha & Hr & Hg & Hgs).
  split; [exact (hasId_extends _ _ _ (Hext ArtistT) Ha)|].
  split; [exact (hasId_extends _ _ _ (Hext ReleaseT) Hr)|].
  split; [exact Hg|].
  eapply List.Forall_impl; [|exact Hgs]. intros g.
  exact (hasId_extends _ _ _ (Hext GenreT)).
Qed.

Lemma pureResolve_references file lastWriteTime checksum items track w :
  referencesResolved w ->
  referencesResolved (pureResolve file lastWriteTime checksum items track w).
Proof.
  intros Hw.
  pose proof (pureResolve_shape file lastWriteTime checksum items track w)
    as Hshape.
  pose proof (pureResolveNames_grows items w) as Hn.
  destruct (pureResolveNames items w) as [[[artist release] genres_] w1].
  cbv zeta in Hshape. destruct Hshape as [Hnamed Htracks].
  destruct Hn as (Ha & Hr & Hg & Hgs & Hext & _ & _).
  set (c' := pureResolve _ _ _ _ _ _) in *.
  set (write := writeFields _ _ _ _ _ _ _ _) in *.
  assert (Hext' : forall k, extends (namedTable k w) (namedTable k c'))
    by (intros k; rewrite Hnamed; apply Hext).
  assert (Hold : forall r, In r (rows (tracks w)) -> resolved c' (snd r))
    by (intros r Hr'; exact (resolved_grows _ _ _ Hext' (Hw r Hr'))).
  assert (Hwrite : forall t, resolved c' (write t)).
  { intros t. unfold resolved, write. rewrite writeFields_fields. cbn.
    pose proof (Hnamed ArtistT) as H1. pose proof (Hnamed ReleaseT) as H2.
    pose proof (Hnamed GenreT) as H3. cbn in H1, H2, H3.
    rewrite H1, H2, H3. auto. }
  assert (Hupd : forall id r, resolved c' (snd r) ->
                              resolved c' (snd (updated write id r))).
  { intros id r H. unfold updated. destruct (fst r =? id)%nat; cbn; auto. }
  intros r' Hr'. rewrite Htracks in Hr'.
  destruct track as [p|].
  - destruct (ptr_removed p); [auto|].
    cbn in Hr'. apply in_map_iff in Hr'. destruct Hr' as (r & <- & Hin).
    auto.
  - cbn in Hr'. apply in_map_iff in Hr'. destruct Hr' as (r & <- & Hin).
    apply in_app_or in Hin. destruct Hin as [Hin|[<-|[]]]; [auto|].
    unfold updated. cbn. rewrite Nat.eqb_refl. apply Hwrite.
Qed.

Lemma references_delete id c :
  referencesResolved c ->
  referencesResolved (setTracks (deleteRow id (tracks c)) c).
Proof.
  intros Hc r Hr. cbn in Hr. apply filter_In in Hr.
  destruct (Hc r (proj1 Hr)) as (H1 & H2 & H3 & H4).
  now destruct c.
Qed.

Lemma pureProcess_references W file c :
  referencesResolved c -> referencesResolved (fst (pureProcess W file c)).
Proof.
  intros Hc.
  destruct (pureProcess_cases W file c)
    as [->|[(lastWriteTime & checksum & items & _ & ->)
           |(lastWriteTime & checksum & items & r & _ & ->)]].
  - exact Hc.
  - now apply pureResolve_references.
  - apply pureResolve_references. now apply references_delete.
Qed.

(** *** The order of a store *)

Lemma paths_updated (f : Track -> Track) id (l : list (nat * Track)) :
  (forall t, track_path (f t) = track_path t) ->
  List.map (fun r => track_path (snd r)) (List.map (updated f id) l)
  = List.map (fun r => track_path (snd r)) l.
Proof.
  intros Hf. rewrite List.map_map. apply List.map_ext. intros r.
  unfold updated. destruct (fst r =? id)%nat; cbn; auto.
Qed.

Lemma writeFields_keeps_path lastWriteTime checksum title genreList genres_
    artist release items t :
  track_path (writeFields lastWriteTime checksum title genreList genres_
                artist release items t) = track_path t.
Proof. now rewrite writeFields_fields. Qed.

Lemma stored_none_path c file :
  stored c file = None ->
  ~ In file (List.map (fun r => track_path (snd r)) (rows (tracks c))).
Proof.
  unfold stored, findRow. intros Hnone Hin.
  apply in_map_iff in Hin. destruct Hin as (r & Hr & Hin).
  pose proof (find_none _ _ Hnone r Hin) as H. cbn in H.
  rewrite Hr, String.eqb_refl in H. discriminate.
Qed.

Lemma wellFormed_delete id c :
  wellFormed c -> wellFormed (setTracks (deleteRow id (tracks c)) c).
Proof.
  intros (Hd & Hp & Hn). split; [|split].
  - cbn. now apply distinctIds_delete.
  - cbn. now apply NoDup_map_filter.
  - intros k. specialize (Hn k). now destruct k, c.
Qed.

(** Written for the file the store holds (or does not hold), or through
    a pointer to a removed row, the store stays in order. *)
Lemma pureResolve_wellFormed file lastWriteTime checksum items track w :
  wellFormed w ->
  track = option_map loaded (stored w file) \/
  (exists p, track = Some p /\ ptr_removed p = true) ->
  wellFormed (pureResolve file lastWriteTime checksum items track w).
Proof.
  intros (Hd & Hp & Hn) Htrack.
  pose proof (pureResolve_shape file lastWriteTime checksum items track w)
    as Hshape.
  pose proof (pureResolveNames_grows items w) as Hnames.
  destruct (pureResolveNames items w) as [[[artist release] genres_] w1].
  cbv zeta in Hshape. destruct Hshape as [Hnamed Htracks].
  destruct Hnames as (_ & _ & _ & _ & _ & Hok & _).
  set (c' := pureResolve _ _ _ _ _ _) in *.
  set (write := writeFields _ _ _ _ _ _ _ _) in *.
  assert (Hwp : forall t, track_path (write t) = track_path t)
    by (intros t; apply writeFields_keeps_path).
  assert (Hn' : namedOk c').
  { intros k. rewrite Hnamed. apply Hok. exact Hn. }
  assert (Hremoved : forall p, track = Some p -> ptr_removed p = true ->
                               wellFormed c').
  { intros p -> Hrem. rewrite Hrem in Htracks.
    split; [|split]; [rewrite Htracks..|]; assumption. }
  destruct Htrack as [Htrack|(p & Hp' & Hrem)]; [|eauto].
  destruct (stored w file) as [r|] eqn:Hst; cbn [option_map] in Htrack;
    subst track; cbn [loaded ptr_removed ptr_id] in Htracks.
  - split; [|split]; [rewrite Htracks..|exact Hn'].
    + now apply distinctIds_update.
    + unfold onePerPath. cbn. now rewrite paths_updated.
  - split; [|split]; [rewrite Htracks..|exact Hn'].
    + apply distinctIds_update. now apply distinctIds_insert.
    + unfold onePerPath. cbn. rewrite paths_updated by exact Hwp.
      rewrite List.map_app. cbn. apply List.NoDup_app; auto.
      * constructor; [intros []|constructor].
      * intros x Hx [<-|[]]. exact (stored_none_path _ _ Hst Hx).
Qed.

Lemma pureProcess_wellFormed W file c :
  wellFormed c -> wellFormed (fst (pureProcess W file c)).
Proof.
  intros Hc.
  destruct (pureProcess_cases W file c)
    as [->|[(lastWriteTime & checksum & items & _ & ->)
           |(lastWriteTime & checksum & items & r & _ & ->)]].
  - exact Hc.
  - apply pureResolve_wellFormed; auto.
  - apply pureResolve_wellFormed; [now apply wellFormed_delete|].
    right. eexists. split; reflexivity.
Qed.

(** *** The reconciler, run *)

(** However the reconciler ends, the session is at rest again, and the
    committed store is the one it found or that store with the track
    table the loop computes. *)
Lemma removeMissingAudioFiles_outcome W c fk tr :
  exists r tr',
    removeMissingAudioFiles W (mkSession c None fk tr)
    = (r,
       mkSession
         match r with
         | Ok _ =>
             setTracks (pureRemoveMissing W (rows (tracks c)) (tracks c)) c
         | Throw _ => c
         end None fk tr') /\
    ((forall row, In row (rows (tracks c)) ->
                  status W (track_path (snd row)) <> StatusError) ->
     r = Ok tt).
Proof.
  unfold removeMissingAudioFiles.
  rewrite (bind_ok _ _ _ _ _ (emit_idle _ _ _ _)).
  set (tr1 := tr ++ [Log RemovingMissingFiles]).
  destruct (removeMissing_run W (rows (tracks c)) c c fk tr1)
    as (r & w' & tr' & Hrun & Hok & Hall).
  destruct r as [[]|e].
  - erewrite bind_ok.
    2:{ rewrite withTransaction_run.
        rewrite (bind_ok _ _ _ _ _ (Track_getAll_run _ _ _ _)).
        rewrite (bind_ok _ _ _ _ _ Hrun), commit_run. reflexivity. }
    exists (Ok tt). eexists. split; [|auto].
    cbn. rewrite (Hok eq_refl). reflexivity.
  - erewrite bind_throw.
    2:{ rewrite withTransaction_run.
        rewrite (bind_ok _ _ _ _ _ (Track_getAll_run _ _ _ _)).
        rewrite (bind_throw _ _ _ _ _ Hrun). reflexivity. }
    exists (Throw e). eexists. split; [reflexivity|exact Hall].
Qed.

Lemma pureRemoveMissing_wellFormed W c :
  wellFormed c ->
  wellFormed (setTracks (pureRemoveMissing W (rows (tracks c)) (tracks c)) c).
Proof.
  intros (Hd & Hp & Hn).
  destruct (pureRemoveMissing_rows W (rows (tracks c)) (tracks c))
    as [Hrows Hnext].
  destruct (pureRemoveMissing W _ _) as [rs n] eqn:E. cbn in Hrows, Hnext.
  subst rs n. split; [|split].
  - cbn. now apply distinctIds_filter.
  - cbn. now apply NoDup_map_filter.
  - intros k. specialize (Hn k). now destruct k, c.
Qed.

(** *** The tracks of the other files *)

Lemma find_updated_other {A} (P : A -> bool) (f : A -> A) id
    (l : list (nat * A)) :
  (forall a, P (f a) = P a) ->
  (forall r, In r l -> fst r = id -> P (snd r) = false) ->
  List.find (fun r => P (snd r)) (List.map (updated f id) l)
  = List.find (fun r => P (snd r)) l.
Proof.
  intros Hf. induction l as [|x l IH]; intros Hid; cbn; [reflexivity|].
  rewrite (P_updated P f Hf).
  destruct (P (snd x)) eqn:E.
  - unfold updated. destruct (Nat.eqb_spec (fst x) id) as [Heq|]; [|reflexivity].
    rewrite (Hid x (or_introl eq_refl) Heq) in E. discriminate.
  - apply IH. intros r Hr. apply Hid. now right.
Qed.

Lemma find_filter_other {A} (Q g : A -> bool) (l : list A) :
  (forall r, In r l -> g r = false -> Q r = false) ->
  List.find Q (List.filter g l) = List.find Q l.
Proof.
  induction l as [|x l IH]; intros H; cbn; [reflexivity|].
  destruct (g x) eqn:Eg; cbn.
  - destruct (Q x); [reflexivity|]. apply IH. intros r Hr. apply H. now right.
  - rewrite (H x (or_introl eq_refl) Eg). apply IH. intros r Hr. apply H.
    now right.
Qed.

Lemma find_app_last {A} (Q : A -> bool) (l : list A) a :
  Q a = false -> List.find Q (l ++ [a]) = List.find Q l.
Proof.
  intros Ha. induction l as [|x l IH]; cbn; [now rewrite Ha|].
  now destruct (Q x).
Qed.

Lemma stored_some c file r :
  stored c file = Some r ->
  In r (rows (tracks c)) /\ track_path (snd r) = file.
Proof.
  unfold stored, findRow. intros H. apply find_some in H.
  destruct H as [Hin Heq]. cbn in Heq. apply String.eqb_eq in Heq. auto.
Qed.

Lemma stored_delete_other c file other r :
  distinctIds (tracks c) ->
  stored c file = Some r ->
  other <> file ->
  stored (setTracks (deleteRow (fst r) (tracks c)) c) other = stored c other.
Proof.
  intros [Hnd _] Hr Hne. destruct (stored_some _ _ _ Hr) as [Hin Hpath].
  unfold stored, findRow. cbn. apply find_filter_other.
  intros x Hx Hg. apply negb_false_iff, Nat.eqb_eq in Hg.
  rewrite (same_id_same_row _ x r Hnd Hx Hin Hg), Hpath.
  apply String.eqb_neq. congruence.
Qed.

Lemma pureResolve_other file other lastWriteTime checksum items track w :
  distinctIds (tracks w) ->
  other <> file ->
  track = option_map loaded (stored w file) \/
  (exists p, track = Some p /\ ptr_removed p = true) ->
  stored (pureResolve file lastWriteTime checksum items track w) other
  = stored w other.
Proof.
  intros [Hnd Hlt] Hne Htrack.
  pose proof (pureResolve_shape file lastWriteTime checksum items track w)
    as Hshape.
  destruct (pureResolveNames items w) as [[[artist release] genres_] w1].
  cbv zeta in Hshape. destruct Hshape as [_ Htracks].
  set (write := writeFields _ _ _ _ _ _ _ _) in *.
  assert (Hwp : forall t, String.eqb (track_path (write t)) other
                          = String.eqb (track_path t) other)
    by (intros t; apply writeFields_path).
  assert (Hfile : String.eqb file other = false)
    by (apply String.eqb_neq; congruence).
  unfold stored at 1. unfold findRow. rewrite Htracks.
  destruct Htrack as [->|(p & -> & Hrem)]; [|now rewrite Hrem].
  destruct (stored w file) as [r|] eqn:Hst;
    cbn [option_map loaded ptr_removed ptr_id].
  - destruct (stored_some _ _ _ Hst) as [Hin Hpath].
    cbn. apply (find_updated_other
                  (fun t => String.eqb (track_path t) other)); [exact Hwp|].
    intros x Hx Hid.
    now rewrite (same_id_same_row _ x r Hnd Hx Hin Hid), Hpath.
  - cbn. rewrite (find_updated_other
                    (fun t => String.eqb (track_path t) other));
      [|exact Hwp|].
    + now apply find_app_last.
    + intros x Hx Hid. apply in_app_or in Hx.
      destruct Hx as [Hx|[<-|[]]]; [|exact Hfile].
      rewrite List.Forall_forall in Hlt. specialize (Hlt x Hx). lia.
Qed.

Lemma pureProcess_other W file other c :
  distinctIds (tracks c) ->
  other <> file ->
  stored (fst (pureProcess W file c)) other = stored c other.
Proof.
  intros Hd Hne.
  destruct (pureProcess_cases W file c)
    as [->|[(lastWriteTime & checksum & items & _ & ->)
           |(lastWriteTime & checksum & items & r & Hr & ->)]].
  - reflexivity.
  - apply pureResolve_other; auto.
  - rewrite pureResolve_other.
    + exact (stored_delete_other c file other r Hd Hr Hne).
    + cbn. now apply distinctIds_delete.
    + exact Hne.
    + right. eexists. split; reflexivity.
Qed.

Lemma pureProcess_extends W file c k :
  extends (namedTable k c) (namedTable k (fst (pureProcess W file c))).
Proof.
  assert (H : forall lastWriteTime checksum items track w,
             extends (namedTable k w)
               (namedTable k (pureResolve file lastWriteTime checksum items
                                track w))).
  { intros lastWriteTime checksum items track w.
    pose proof (pureResolve_shape file lastWriteTime checksum items track w)
      as Hshape.
    pose proof (pureResolveNames_grows items w) as Hn.
    destruct (pureResolveNames items w) as [[[artist release] genres_] w1].
    cbv zeta in Hshape. destruct Hshape as [Hnamed _].
    destruct Hn as (_ & _ & _ & _ & Hext & _). rewrite Hnamed. apply Hext. }
  destruct (pureProcess_cases W file c)
    as [->|[(lastWriteTime & checksum & items & _ & ->)
           |(lastWriteTime & checksum & items & r & _ & ->)]].
  - apply extends_refl.
  - apply H.
  - specialize (H lastWriteTime checksum items
                  (Some (mkTrackPtr (fst r) (snd r) true))
                  (setTracks (deleteRow (fst r) (tracks c)) c)).
    now destruct k, c.
Qed.

(** *** The genre list *)

Lemma append_nil_r (a : string) : (a ++ EmptyString)%string = a.
Proof.
  induction a as [|ch a IH]; [reflexivity|exact (f_equal (String ch) IH)].
Qed.

Lemma append_assoc (a b c : string) :
  ((a ++ b) ++ c)%string = (a ++ (b ++ c))%string.
Proof.
  induction a as [|ch a IH]; [reflexivity|exact (f_equal (String ch) IH)].
Qed.

Lemma append_not_empty (a b : string) :
  a <> EmptyString -> (a ++ b)%string <> EmptyString.
Proof. destruct a; [congruence|discriminate]. Qed.

Lemma concat_cons sep (x y : string) l :
  String.concat sep (x :: y :: l)
  = (x ++ sep ++ String.concat sep (y :: l))%string.
Proof. reflexivity. Qed.

(** The names joined, each one after a separator. *)
Lemma concat_separated (l : list string) :
  String.concat EmptyString
    (List.map (fun genre => (", " ++ genre)%string) l)
  = match l with
    | [] => EmptyString
    | g :: l' => (", " ++ String.concat ", " (g :: l'))%string
    end.
Proof.
  induction l as [|g l IH]; [reflexivity|].
  destruct l as [|g2 l]; [reflexivity|].
  cbn [List.map] in *. rewrite concat_cons, IH, concat_cons.
  change (EmptyString ++ ?s)%string with s.
  now rewrite !append_assoc.
Qed.

(** The loop from a list built so far that is not empty: every further
    name comes after a separator. *)
Lemma joinGenres_from (l : list string) :
  forall acc,
    acc <> EmptyString ->
    fold_left
      (fun acc genre =>
         ((if String.eqb acc EmptyString then acc else acc ++ ", ")
          ++ genre)%string)
      l acc
    = (acc ++ String.concat EmptyString
                (List.map (fun genre => (", " ++ genre)%string) l))%string.
Proof.
  induction l as [|genre l IH]; intros acc Hacc; cbn [fold_left List.map].
  - symmetry. apply append_nil_r.
  - destruct (String.eqb_spec acc EmptyString) as [|_]; [contradiction|].
    rewrite IH by now apply append_not_empty, append_not_empty.
    destruct l as [|g2 l]; cbn [List.map].
    + cbn [String.concat]. now rewrite append_nil_r, append_assoc.
    + rewrite (concat_cons EmptyString).
      change (EmptyString ++ ?s)%string with s.
      now rewrite !append_assoc.
Qed.

(** *** Properties of the scan *)

(** X8.  [processAudioFile] contains its failures: run on a session at
    rest it always returns, leaves the session at rest and the pragma
    alone, and only adds to the trace; and when the timestamp, the
    checksum, the metadata or the media information of the file cannot
    be had, the committed store is the one it started from. *)
Theorem processAudioFile_contains_failures W s file :
  transaction s = None ->
  let s' := snd (processAudioFile W file s) in
  fst (processAudioFile W file s) = Ok tt /\
  transaction s' = None /\
  foreignKeys s' = foreignKeys s /\
  (exists evs, trace s' = trace s ++ evs) /\
  (last_write_time W file = None \/ computeCrc W file = None \/
   parse W file = None \/ openMedia W file = None ->
   committed s' = committed s).
Proof.
  intros Hs. cbv zeta. rewrite (processAudioFile_spec W file s Hs). cbn.
  repeat split; eauto.
  intros H. unfold pureProcess.
  destruct (last_write_time W file); [|reflexivity].
  destruct (skipsOnTime _ _ _); [reflexivity|].
  destruct (computeCrc W file); [|reflexivity].
  destruct (skipsOnChecksum _ _ _); [reflexivity|].
  destruct (parse W file); [|reflexivity].
  destruct (openMedia W file); [|reflexivity].
  destruct H as [H|[H|[H|H]]]; discriminate.
Qed.

(** X9.  A scan that stored a file makes the next one cheap: when the
    file was resolved, scanning it again in the same world skips it on
    its last-write time, with one log line and nothing else: no
    checksum, no parse, no write. *)
Theorem rescan_is_skipped W s file items :
  transaction s = None ->
  resolves W (committed s) file items ->
  let s1 := snd (processAudioFile W file s) in
  processAudioFile W file s1
  = (Ok tt,
     mkSession (committed s1) None (foreignKeys s1)
       (trace s1 ++ [Log (SkippedLastWriteTime file)])).
Proof.
  intros Hs Hres. cbv zeta.
  destruct (resolves_pure W _ _ _ Hres)
    as (lastWriteTime & checksum & Ht & _ & _ & _ & Hpure).
  rewrite (processAudioFile_spec W file s Hs).
  cbn [snd committed foreignKeys trace].
  rewrite processAudioFile_run. rewrite Hpure.
  pose proof (stored_pureResolve file lastWriteTime checksum items
                (committed s)) as Hst.
  destruct (pureResolveNames items (committed s))
    as [[[artist release] genres_] w1].
  cbv zeta in Hst. destruct Hst as [_ Hst].
  set (c1 := pureResolve _ _ _ _ _ _) in *.
  assert (Hskip : skipsOnTime c1 file lastWriteTime = true).
  { unfold skipsOnTime. rewrite Hst.
    destruct (stored (committed s) file); cbn [snd];
      rewrite writeFields_fields; cbn; apply Z.eqb_refl. }
  assert (Hp2 : pureProcess W file c1
                = (c1, [Log (SkippedLastWriteTime file)]))
    by (unfold pureProcess; now rewrite Ht, Hskip).
  rewrite Hp2. reflexivity.
Qed.

(** X10.  The reconciler is idempotent: after a run in which every status
    could be read, every track left is backed by a regular file, and a
    second run in the same world returns and leaves the committed store
    as the first one left it. *)
Theorem removeMissingAudioFiles_idempotent W s :
  transaction s = None ->
  (forall row, In row (rows (tracks (committed s))) ->
               status W (track_path (snd row)) <> StatusError) ->
  let s1 := snd (removeMissingAudioFiles W s) in
  (forall row, In row (rows (tracks (committed s1))) ->
               status W (track_path (snd row)) = RegularFile) /\
  fst (removeMissingAudioFiles W s1) = Ok tt /\
  committed (snd (removeMissingAudioFiles W s1)) = committed s1.
Proof.
  destruct s as [c [w|] fk tr]; cbn [transaction committed]; [discriminate|].
  intros _ Hall. cbv zeta.
  destruct (removeMissingAudioFiles_outcome W c fk tr)
    as (r & tr1 & E & Hok).
  rewrite (Hok Hall) in E. rewrite E. cbn [snd committed].
  set (c1 := setTracks _ c).
  destruct (pureRemoveMissing_rows W (rows (tracks c)) (tracks c))
    as [Hrows Hnext].
  assert (Hreg : forall row, In row (rows (tracks c1)) ->
                             status W (track_path (snd row)) = RegularFile).
  { intros row Hrow. cbn in Hrow. rewrite Hrows in Hrow.
    apply filter_In in Hrow. destruct Hrow as [Hin Hsurv].
    pose proof (proj1 (forallb_forall _ _) Hsurv row Hin) as H. cbn in H.
    rewrite Nat.eqb_refl, orb_false_r in H.
    destruct (status W (track_path (snd row))); now try discriminate. }
  split; [exact Hreg|].
  destruct (removeMissingAudioFiles_outcome W c1 fk tr1)
    as (r2 & tr2 & E2 & Hok2).
  rewrite Hok2 in E2.
  2:{ intros row Hrow. rewrite (Hreg row Hrow). discriminate. }
  rewrite E2. cbn [fst snd committed]. split; [reflexivity|].
  destruct (pureRemoveMissing_rows W (rows (tracks c1)) (tracks c1))
    as [Hrows2 Hnext2].
  assert (Hsame : List.filter (survives W (rows (tracks c1)))
                    (rows (tracks c1)) = rows (tracks c1)).
  { apply forallb_filter_id. apply forallb_forall. intros row Hrow.
    apply forallb_forall. intros x Hx. now rewrite (Hreg x Hx). }
  rewrite Hsame in Hrows2.
  destruct (pureRemoveMissing W (rows (tracks c1)) (tracks c1)) as [rs n].
  cbn in Hrows2, Hnext2. subst rs n.
  unfold c1. generalize (pureRemoveMissing W (rows (tracks c)) (tracks c)).
  now intros [rs n].
Qed.

(** X11.  The loop that builds the genre list of a track joins the names
    with a comma and a space, provided none of them is empty. *)
Theorem joinGenres_concat (genreList : list string) :
  Forall (fun genre => genre <> EmptyString) genreList ->
  joinGenres genreList = String.concat ", " genreList.
Proof.
  destruct genreList as [|g l]; [reflexivity|]. intros Hne.
  unfold joinGenres. cbn [fold_left].
  change (String.eqb EmptyString EmptyString) with true. cbv iota.
  change (EmptyString ++ g)%string with g.
  rewrite joinGenres_from by now inversion Hne.
  rewrite concat_separated. destruct l as [|g2 l].
  - apply append_nil_r.
  - now rewrite (concat_cons ", " g).
Qed.

(** An empty name at the head of the list leaves no separator behind. *)
Example joinGenres_empty_name :
  joinGenres [EmptyString; "Rock"] = "Rock" /\
  String.concat ", " [EmptyString; "Rock"] = ", Rock".
Proof. split; reflexivity. Qed.

(** X12.  No track is left with a dangling reference: if the artist, the
    release and the genres of every stored track are rows of the store,
    and every track has a genre, the same holds after
    [processAudioFile], whatever the file and its tags. *)
Theorem processAudioFile_keeps_references W s file :
  transaction s = None ->
  referencesResolved (committed s) ->
  referencesResolved (committed (snd (processAudioFile W file s))).
Proof.
  intros Hs Hc. rewrite (committed_run W file s Hs).
  now apply pureProcess_references.
Qed.

(** X13.  The scan keeps the store in order: ids given once in every
    table, one track per path, one row per artist, release and genre
    name.  Both [processAudioFile] and [removeMissingAudioFiles] take a
    store in that state to a store in that state. *)
Theorem scan_keeps_store_in_order W s file :
  transaction s = None ->
  wellFormed (committed s) ->
  wellFormed (committed (snd (processAudioFile W file s))) /\
  wellFormed (committed (snd (removeMissingAudioFiles W s))).
Proof.
  intros Hs Hc. split.
  - rewrite (committed_run W file s Hs). now apply pureProcess_wellFormed.
  - destruct s as [c [w|] fk tr]; cbn [transaction committed] in *;
      [discriminate|].
    destruct (removeMissingAudioFiles_outcome W c fk tr)
      as (r & tr1 & E & _).
    rewrite E. cbn [snd committed].
    destruct r; [now apply pureRemoveMissing_wellFormed|exact Hc].
Qed.

(** X14.  [processAudioFile] touches the track of its file only: in a
    store whose track ids are given once, the row stored for any other
    path is after the run what it was before. *)
Theorem processAudioFile_leaves_other_tracks W s file other :
  transaction s = None ->
  distinctIds (tracks (committed s)) ->
  other <> file ->
  stored (committed (snd (processAudioFile W file s))) other
  = stored (committed s) other.
Proof.
  intros Hs Hd Hne. rewrite (committed_run W file s Hs).
  now apply pureProcess_other.
Qed.

(** X15.  [processAudioFile] never deletes or renames an artist, a
    release or a genre: each of the three tables is after the run the
    table it was, with new rows at its end at most. *)
Theorem processAudioFile_keeps_named_rows W s file k :
  transaction s = None ->
  extends (namedTable k (committed s))
    (namedTable k (committed (snd (processAudioFile W file s)))).
Proof.
  intros Hs. rewrite (committed_run W file s Hs). apply pureProcess_extends.
Qed.

(** *** The properties on concrete stores *)

Lemma storedDb_references : referencesResolved storedDb.
Proof.
  intros r [<-|[]]. unfold resolved, hasId. cbn.
  split; [now left|]. split; [now left|]. split; [discriminate|].
  constructor; [now left|constructor].
Qed.

Lemma single_row_distinctIds {A} (a : A) : distinctIds (mkTable [(1, a)] 2).
Proof.
  split; cbn.
  - constructor; [intros []|constructor].
  - constructor; [cbn; lia|constructor].
Qed.

Lemma single_row_NoDup {A} (a : A) : List.NoDup [a].
Proof. constructor; [intros []|constructor]. Qed.

Lemma storedDb_wellFormed : wellFormed storedDb.
Proof.
  split; [apply single_row_distinctIds|].
  split; [apply single_row_NoDup|].
  intros []; (split; [apply single_row_distinctIds|apply single_row_NoDup]).
Qed.

Lemma twoTracksDb_distinctIds : distinctIds (tracks twoTracksDb).
Proof.
  split; cbn.
  - constructor; [intros [H|[]]; discriminate H|apply single_row_NoDup].
  - repeat constructor; cbn; lia.
Qed.

Lemma twoTracksDb_readable :
  forall row, In row (rows (tracks twoTracksDb)) ->
              status otherOnlyWorld (track_path (snd row)) <> StatusError.
Proof. intros row [<-|[<-|[]]]; cbn; discriminate. Qed.

(** A path the world does not hold: the timestamp cannot be read. *)
Lemma processAudioFile_contains_failures_witness :
  transaction (idle storedDb) = None /\
  fst (processAudioFile unchangedWorld otherPath (idle storedDb)) = Ok tt /\
  transaction (snd (processAudioFile unchangedWorld otherPath
                      (idle storedDb))) = None /\
  foreignKeys (snd (processAudioFile unchangedWorld otherPath
                      (idle storedDb))) = true /\
  (exists evs,
      trace (snd (processAudioFile unchangedWorld otherPath (idle storedDb)))
      = [] ++ evs) /\
  (last_write_time unchangedWorld otherPath = None \/
   computeCrc unchangedWorld otherPath = None \/
   parse unchangedWorld otherPath = None \/
   openMedia unchangedWorld otherPath = None ->
   committed (snd (processAudioFile unchangedWorld otherPath
                     (idle storedDb))) = storedDb).
Proof.
  split; [reflexivity|].
  exact (processAudioFile_contains_failures unchangedWorld (idle storedDb)
           otherPath eq_refl).
Defined.

(** The stored track re-processed, then scanned again. *)
Lemma rescan_is_skipped_witness :
  transaction (idle storedDb) = None /\
  resolves taggedWorld storedDb songPath (entry_items taggedFile) /\
  processAudioFile taggedWorld songPath
    (snd (processAudioFile taggedWorld songPath (idle storedDb)))
  = (Ok tt,
     mkSession
       (committed (snd (processAudioFile taggedWorld songPath
                          (idle storedDb))))
       None
       (foreignKeys (snd (processAudioFile taggedWorld songPath
                            (idle storedDb))))
       (trace (snd (processAudioFile taggedWorld songPath (idle storedDb)))
        ++ [Log (SkippedLastWriteTime songPath)])).
Proof.
  split; [reflexivity|]. split; [exact taggedFile_resolves|].
  exact (rescan_is_skipped taggedWorld (idle storedDb) songPath
           (entry_items taggedFile) eq_refl taggedFile_resolves).
Defined.

(** Two stored tracks, the file of the first one gone: reconciled
    twice. *)
Lemma removeMissingAudioFiles_idempotent_witness :
  transaction (idle twoTracksDb) = None /\
  (forall row, In row (rows (tracks twoTracksDb)) ->
               status otherOnlyWorld (track_path (snd row)) <> StatusError) /\
  (forall row,
      In row
        (rows (tracks (committed (snd (removeMissingAudioFiles otherOnlyWorld
                                         (idle twoTracksDb)))))) ->
      status otherOnlyWorld (track_path (snd row)) = RegularFile) /\
  fst (removeMissingAudioFiles otherOnlyWorld
         (snd (removeMissingAudioFiles otherOnlyWorld (idle twoTracksDb))))
  = Ok tt /\
  committed
    (snd (removeMissingAudioFiles otherOnlyWorld
            (snd (removeMissingAudioFiles otherOnlyWorld
                    (idle twoTracksDb)))))
  = committed (snd (removeMissingAudioFiles otherOnlyWorld
                      (idle twoTracksDb))).
Proof.
  split; [reflexivity|]. split; [exact twoTracksDb_readable|].
  exact (removeMissingAudioFiles_idempotent otherOnlyWorld (idle twoTracksDb)
           eq_refl twoTracksDb_readable).
Defined.

Lemma two_genres_not_empty :
  Forall (fun genre => genre <> EmptyString) ["Rock"; "Pop"].
Proof. repeat constructor; discriminate. Qed.

Lemma joinGenres_concat_witness :
  Forall (fun genre => genre <> EmptyString) ["Rock"; "Pop"] /\
  joinGenres ["Rock"; "Pop"] = "Rock, Pop".
Proof.
  split; [exact two_genres_not_empty|].
  exact (joinGenres_concat ["Rock"; "Pop"] two_genres_not_empty).
Defined.

Lemma processAudioFile_keeps_references_witness :
  transaction (idle storedDb) = None /\
  referencesResolved storedDb /\
  referencesResolved
    (committed (snd (processAudioFile taggedWorld songPath (idle storedDb)))).
Proof.
  split; [reflexivity|]. split; [exact storedDb_references|].
  exact (processAudioFile_keeps_references taggedWorld (idle storedDb)
           songPath eq_refl storedDb_references).
Defined.

Lemma scan_keeps_store_in_order_witness :
  transaction (idle storedDb) = None /\
  wellFormed storedDb /\
  wellFormed
    (committed (snd (processAudioFile taggedWorld songPath (idle storedDb))))
  /\
  wellFormed
    (committed (snd (removeMissingAudioFiles taggedWorld (idle storedDb)))).
Proof.
  split; [reflexivity|]. split; [exact storedDb_wellFormed|].
  exact (scan_keeps_store_in_order taggedWorld (idle storedDb) songPath
           eq_refl storedDb_wellFormed).
Defined.

Lemma song_is_not_other : otherPath <> songPath.
Proof. discriminate. Qed.

(** Two stored tracks, the file of the first one re-processed. *)
Lemma processAudioFile_leaves_other_tracks_witness :
  transaction (idle twoTracksDb) = None /\
  distinctIds (tracks twoTracksDb) /\
  otherPath <> songPath /\
  stored
    (committed (snd (processAudioFile taggedWorld songPath
                       (idle twoTracksDb))))
    otherPath
  = Some (2, newTrack otherPath 1 1).
Proof.
  split; [reflexivity|]. split; [exact twoTracksDb_distinctIds|].
  split; [exact song_is_not_other|].
  exact (processAudioFile_leaves_other_tracks taggedWorld (idle twoTracksDb)
           songPath otherPath eq_refl twoTracksDb_distinctIds
           song_is_not_other).
Defined.

Lemma processAudioFile_keeps_named_rows_witness :
  transaction (idle storedDb) = None /\
  extends (artists storedDb)
    (artists
       (committed (snd (processAudioFile taggedWorld songPath
                          (idle storedDb))))).
Proof.
  split; [reflexivity|].
  exact (processAudioFile_keeps_named_rows taggedWorld (idle storedDb)
           songPath ArtistT eq_refl).
Defined.

End ScannerProperties.

(** ** The library refresh *)

Module LibraryFacts.
Import Scanner Consistency Library.

(** *** Watched directories *)

Section Watched.
Variable same : WatchedDirectory -> WatchedDirectory -> bool.

Lemma unwatchDirectory_absent directory dirs :
  (forall x, In x dirs -> same x directory = false) ->
  unwatchDirectory same directory dirs = dirs.
Proof.
  induction dirs as [|x dirs IH]; intros H; cbn; [reflexivity|].
  rewrite (H x (or_introl eq_refl)). f_equal. apply IH.
  intros y Hy. apply H. now right.
Qed.

Lemma unwatchDirectory_app directory before after :
  (forall x, In x before -> same x directory = false) ->
  unwatchDirectory same directory (before ++ after)
  = before ++ unwatchDirectory same directory after.
Proof.
  induction before as [|x before IH]; intros H; cbn; [reflexivity|].
  rewrite (H x (or_introl eq_refl)). f_equal. apply IH.
  intros y Hy. apply H. now right.
Qed.

Lemma unwatchDirectory_present directory dirs extra :
  existsb (fun x => same x directory) dirs = true ->
  unwatchDirectory same directory (dirs ++ extra)
  = unwatchDirectory same directory dirs ++ extra.
Proof.
  induction dirs as [|x dirs IH]; cbn; [discriminate|].
  destruct (same x directory); cbn; [reflexivity|].
  intros H. f_equal. now apply IH.
Qed.

(** X16.  [unwatchDirectory] erases one entry, the first that equals the
    directory: the entries before it and after it stay, in order, equal
    entries further on included; and when no entry equals the directory
    the list is left as it is. *)
Theorem unwatchDirectory_erases_first directory before after :
  (forall x, In x before -> same x directory = false) ->
  unwatchDirectory same directory before = before /\
  forall it,
    same it directory = true ->
    unwatchDirectory same directory (before ++ it :: after) = before ++ after.
Proof.
  intros H. split; [now apply unwatchDirectory_absent|].
  intros it Hit. rewrite unwatchDirectory_app by exact H. cbn.
  now rewrite Hit.
Qed.

(** X17.  Watching a directory and unwatching it again gives the list
    back when the directory was not watched before; when it was, the
    earlier entry is the one erased and the new one stays at the end.
    The directory is taken to equal itself. *)
Theorem unwatch_after_watch directory dirs :
  same directory directory = true ->
  unwatchDirectory same directory (watchDirectory directory dirs)
  = if existsb (fun x => same x directory) dirs
    then watchDirectory directory (unwatchDirectory same directory dirs)
    else dirs.
Proof.
  intros Hrefl. unfold watchDirectory.
  destruct (existsb _ dirs) eqn:E.
  - now apply unwatchDirectory_present.
  - rewrite unwatchDirectory_app.
    + cbn. now rewrite Hrefl, app_nil_r.
    + intros x Hx. destruct (same x directory) eqn:Hs; [|reflexivity].
      assert (existsb (fun x => same x directory) dirs = true)
        by (apply existsb_exists; eauto).
      congruence.
Qed.

End Watched.

Lemma unwatchDirectory_erases_first_witness :
  (forall x, In x [filmsWatched] -> sameDirectory x musicWatched = false) /\
  unwatchDirectory sameDirectory musicWatched [filmsWatched]
  = [filmsWatched] /\
  forall it,
    sameDirectory it musicWatched = true ->
    unwatchDirectory sameDirectory musicWatched
      ([filmsWatched] ++ it :: [musicWatched])
    = [filmsWatched] ++ [musicWatched].
Proof.
  assert (H : forall x, In x [filmsWatched] ->
                        sameDirectory x musicWatched = false).
  { intros x [<-|[]]. reflexivity. }
  split; [exact H|].
  exact (unwatchDirectory_erases_first sameDirectory musicWatched
           [filmsWatched] [musicWatched] H).
Defined.

Lemma unwatch_after_watch_witness :
  sameDirectory musicWatched musicWatched = true /\
  unwatchDirectory sameDirectory musicWatched
    (watchDirectory musicWatched [filmsWatched; musicWatched])
  = if existsb (fun x => sameDirectory x musicWatched)
         [filmsWatched; musicWatched]
    then watchDirectory musicWatched
           (unwatchDirectory sameDirectory musicWatched
              [filmsWatched; musicWatched])
    else [filmsWatched; musicWatched].
Proof.
  split; [reflexivity|].
  exact (unwatch_after_watch sameDirectory musicWatched
           [filmsWatched; musicWatched] eq_refl).
Defined.

(** *** Running the scan in the session of the library *)

Lemma emit_rest {Store Event} (e : Event) (c : Store) fk tr :
  emit e (mkSession c None fk tr) = (Ok tt, mkSession c None fk (tr ++ [e])).
Proof. reflexivity. Qed.

Lemma setAudio_audio c : setAudio (audio c) c = c.
Proof. now destruct c. Qed.

Lemma setAudio_setAudio a b c : setAudio a (setAudio b c) = setAudio a c.
Proof. reflexivity. Qed.

Lemma liftScan_processAudioFile W file c fk tr :
  liftScan (processAudioFile W file) (mkSession c None fk tr)
  = (Ok tt,
     mkSession (setAudio (fst (pureProcess W file (audio c))) c) None fk
       (tr ++ List.map Scan (snd (pureProcess W file (audio c))))).
Proof.
  unfold liftScan. cbn [committed transaction foreignKeys trace option_map].
  now rewrite ScannerFacts.processAudioFile_run.
Qed.

Lemma scanned_app W l1 l2 c :
  scanned W (l1 ++ l2) c = scanned W l2 (scanned W l1 c).
Proof. apply fold_left_app. Qed.

(** *** The audio walk *)

Section Walk.
Variable W : World.
Variable directory_iterator : path -> option (list path).

Abbreviation refreshAudioDirectory :=
  (refreshAudioDirectory W directory_iterator).
Abbreviation audioFiles := (audioFiles W directory_iterator).
Abbreviation fuelSuffices := (fuelSuffices W directory_iterator).
Abbreviation rootReadable := (rootReadable W directory_iterator).

Abbreviation walkResult := (walkResult W directory_iterator).

Lemma refreshAudioDirectory_run fuel :
  forall p c fk tr,
    fuelSuffices fuel p = true ->
    exists tr',
      refreshAudioDirectory fuel p (mkSession c None fk tr)
      = (walkResult p,
         mkSession (setAudio (scanned W (audioFiles fuel p) (audio c)) c)
           None fk tr').
Proof.
  induction fuel as [|fuel IH]; intros p c fk tr Hfuel; [discriminate|].
  cbn [Library.refreshAudioDirectory Library.audioFiles
         Library.fuelSuffices] in *.
  rewrite (bind_ok _ _ _ _ _ (emit_rest _ _ _ _)).
  unfold Library.walkResult, exists_, is_directory, listDirectory.
  destruct (status W p) eqn:Hst;
    try (eexists; cbn; rewrite ?setAudio_audio; reflexivity).
  destruct (directory_iterator p) as [files|] eqn:Hdir;
    [|eexists; cbn; rewrite ?setAudio_audio; reflexivity].
  cbn [bind ret].
  set (body := fun file : path => tryCatch _ _).
  set (visit := fun file : path => match status W file with
                                   | DirectoryFile => audioFiles fuel file
                                   | RegularFile => [file]
                                   | _ => []
                                   end).
  assert (Hloop : forall files c tr,
             forallb (fun file => match status W file with
                                  | DirectoryFile => fuelSuffices fuel file
                                  | _ => true
                                  end) files = true ->
             exists tr',
               forEach body files (mkSession c None fk tr)
               = (Ok Finished,
                  mkSession
                    (setAudio (scanned W (flat_map visit files) (audio c)) c)
                    None fk tr')).
  { clear files Hdir Hfuel c tr.
    induction files as [|file files IHf]; intros c tr Hall.
    - eexists. cbn. now rewrite setAudio_audio.
    - cbn [forallb] in Hall. apply andb_prop in Hall.
      destruct Hall as [Hfile Hall].
      cbn [forEach flat_map]. rewrite scanned_app.
      assert (Hbody : exists tr1,
                 body file (mkSession c None fk tr)
                 = (Ok Finished,
                    mkSession (setAudio (scanned W (visit file) (audio c)) c)
                      None fk tr1)).
      { unfold body, visit, tryCatch, is_directory, is_regular.
        destruct (status W file) eqn:Hf.
        - eexists. cbn. now rewrite setAudio_audio.
        - eexists. cbn. now rewrite setAudio_audio.
        - eexists. cbn [bind ret].
          rewrite (bind_ok _ _ _ _ _ (liftScan_processAudioFile _ _ _ _ _)).
          reflexivity.
        - cbn [bind ret].
          destruct (IH file c fk tr Hfile) as [tr1 E]. rewrite E.
          unfold Library.walkResult. rewrite Hf.
          destruct (directory_iterator file); eexists; reflexivity.
        - eexists. cbn. now rewrite setAudio_audio. }
      destruct Hbody as [tr1 E]. rewrite (bind_ok _ _ _ _ _ E).
      destruct (IHf (setAudio (scanned W (visit file) (audio c)) c) tr1 Hall)
        as [tr2 E2].
      exists tr2. rewrite E2. reflexivity. }
  destruct (Hloop files c (tr ++ [Refresh (RefreshingAudioDirectory p)])
              Hfuel) as [tr1 E].
  rewrite (bind_ok _ _ _ _ _ E). eexists. reflexivity.
Qed.

(** X18.  The audio walk scans the regular files below its root, depth
    first and in the order of the listings, each with
    [processAudioFile]; entries that are neither files nor directories,
    entries whose status cannot be read and directories that cannot be
    listed are passed over.  When the root can be checked and listed and
    [fuel] covers the depth of the tree, the walk finishes, and the
    audio side of the committed store is the one those scans leave, the
    rest of the store being untouched. *)
Theorem refreshAudioDirectory_scans_files fuel p s :
  transaction s = None ->
  fuelSuffices fuel p = true ->
  rootReadable p = true ->
  exists tr',
    refreshAudioDirectory fuel p s
    = (Ok Finished,
       mkSession
         (setAudio (scanned W (audioFiles fuel p) (audio (committed s)))
            (committed s))
         None (foreignKeys s) tr').
Proof.
  destruct s as [c [w|] fk tr]; cbn [transaction committed foreignKeys];
    [discriminate|]. intros _ Hfuel Hroot.
  destruct (refreshAudioDirectory_run fuel p c fk tr Hfuel) as [tr' E].
  exists tr'. rewrite E. f_equal.
  unfold Library.rootReadable in Hroot. unfold Library.walkResult.
  destruct (status W p); try reflexivity; try discriminate.
  destruct (directory_iterator p); [reflexivity|discriminate].
Qed.

(** X19.  Nothing below the root makes the audio walk throw: with
    [fuel] for the depth of the tree, the walk throws exactly when the
    root itself cannot be checked or listed, and then the committed store
    is the one it started from; in every other case it finishes. *)
Theorem refreshAudioDirectory_fails_at_root_only fuel p s :
  transaction s = None ->
  fuelSuffices fuel p = true ->
  match fst (refreshAudioDirectory fuel p s) with
  | Ok r => r = Finished /\ rootReadable p = true
  | Throw _ =>
      rootReadable p = false /\
      committed (snd (refreshAudioDirectory fuel p s)) = committed s
  end.
Proof.
  destruct s as [c [w|] fk tr]; cbn [transaction committed foreignKeys];
    [discriminate|]. intros _ Hfuel.
  destruct (refreshAudioDirectory_run fuel p c fk tr Hfuel) as [tr' E].
  rewrite E. cbn [fst snd committed].
  unfold Library.walkResult, Library.rootReadable.
  destruct fuel as [|fuel]; [discriminate|].
  cbn [Library.audioFiles].
  destruct (status W p); try (split; reflexivity).
  - split; [reflexivity|]. apply setAudio_audio.
  - destruct (directory_iterator p); split; try reflexivity.
    apply setAudio_audio.
Qed.

End Walk.

(** The tree under [/music]: the two songs are scanned, the directory
    that cannot be listed and the special file are passed over. *)
Lemma refreshAudioDirectory_scans_files_witness :
  transaction (mkSession emptyLibrary None true [] : Session _ LibEvent)
  = None /\
  fuelSuffices treeWorld treeListing 2 musicDir = true /\
  rootReadable treeWorld treeListing musicDir = true /\
  audioFiles treeWorld treeListing 2 musicDir = [songPath; otherPath] /\
  exists tr',
    refreshAudioDirectory treeWorld treeListing 2 musicDir
      (mkSession emptyLibrary None true [])
    = (Ok Finished,
       mkSession
         (setAudio
            (scanned treeWorld (audioFiles treeWorld treeListing 2 musicDir)
               emptyDb)
            emptyLibrary)
         None true tr').
Proof.
  split; [reflexivity|]. split; [reflexivity|]. split; [reflexivity|].
  split; [reflexivity|].
  exact (refreshAudioDirectory_scans_files treeWorld treeListing 2 musicDir
           (mkSession emptyLibrary None true []) eq_refl eq_refl eq_refl).
Defined.

(** The same walk started on the directory that cannot be listed. *)
Lemma refreshAudioDirectory_fails_at_root_only_witness :
  transaction (mkSession emptyLibrary None true [] : Session _ LibEvent)
  = None /\
  fuelSuffices treeWorld treeListing 1 lockedDir = true /\
  match fst (refreshAudioDirectory treeWorld treeListing 1 lockedDir
               (mkSession emptyLibrary None true [])) with
  | Ok r => r = Finished /\ rootReadable treeWorld treeListing lockedDir = true
  | Throw _ =>
      rootReadable treeWorld treeListing lockedDir = false /\
      committed (snd (refreshAudioDirectory treeWorld treeListing 1 lockedDir
                        (mkSession emptyLibrary None true [])))
      = emptyLibrary
  end.
Proof.
  split; [reflexivity|]. split; [reflexivity|].
  exact (refreshAudioDirectory_fails_at_root_only treeWorld treeListing 1
           lockedDir (mkSession emptyLibrary None true []) eq_refl eq_refl).
Defined.

Example walk_of_the_tree :
  fst (refreshAudioDirectory treeWorld treeListing 2 musicDir
         (mkSession emptyLibrary None true []))
  = Ok Finished /\
  List.map (fun r => track_path (snd r))
    (rows (tracks (audio (committed
       (snd (refreshAudioDirectory treeWorld treeListing 2 musicDir
               (mkSession emptyLibrary None true [])))))))
  = [songPath; otherPath] /\
  fst (refreshAudioDirectory treeWorld treeListing 1 lockedDir
         (mkSession emptyLibrary None true []))
  = Throw (StdException "boost::filesystem::directory_iterator").
Proof. vm_compute. repeat split. Qed.

(** *** The video walk *)

Section VideoWalk.
Variable W : World.
Variable directory_iterator : path -> option (list path).
Variable parent_path : path -> option path.
Variable assertions : bool.

Abbreviation refreshVideoDirectory :=
  (refreshVideoDirectory W directory_iterator parent_path assertions).

Lemma forEach_stops {St} (body : path -> M St Outcome) files bad :
  In bad files ->
  (forall s, exists e s', body bad s = (Throw e, s')) ->
  forall s, fst (forEach body files s) <> Ok Finished.
Proof.
  intros Hin Hbad. induction files as [|file files IH]; [destruct Hin|].
  intros s. cbn [forEach]. unfold bind.
  destruct Hin as [->|Hin].
  - destruct (Hbad s) as (e & s' & ->). discriminate.
  - destruct (body file s) as [[[]|e] s']; cbn; try discriminate.
    now apply IH.
Qed.

Lemma bind_never {St A B} (m : M St A) (k : A -> M St B) (b : B) s :
  (forall a s', fst (k a s') <> Ok b) -> fst (bind m k s) <> Ok b.
Proof.
  intros H. unfold bind. destruct (m s) as [[a|e] s']; [apply H|discriminate].
Qed.

Lemma bind_done {St} (m k : M St Outcome) s :
  fst (m s) <> Ok Finished ->
  fst (bind m (fun r => match r with
                        | Finished => k
                        | _ => ret r
                        end) s) <> Ok Finished.
Proof.
  unfold bind. destruct (m s) as [[[]|e] s']; cbn; congruence.
Qed.

(** With an entry whose status cannot be read, the walk of the
    directory does not finish. *)
Lemma refreshVideoDirectory_unfinished fuel p files bad s :
  status W p = DirectoryFile ->
  directory_iterator p = Some files ->
  In bad files ->
  status W bad = StatusError ->
  fst (refreshVideoDirectory fuel p s) <> Ok Finished.
Proof.
  intros Hp Hfiles Hin Hbad.
  destruct fuel as [|fuel]; [discriminate|].
  cbn [Library.refreshVideoDirectory].
  apply bind_never. intros [] s1.
  unfold exists_. rewrite Hp, bind_ret. cbv beta iota.
  unfold is_directory at 1. rewrite Hp, bind_ret. cbv beta iota.
  apply bind_done. unfold bind at 1.
  destruct (registerDirectory _ _ _ _ _) as [[[]|e] s2]; try discriminate.
  unfold listDirectory. rewrite Hfiles, bind_ret.
  apply (forEach_stops _ files bad Hin).
  intros s0. unfold is_directory, bind, throw. rewrite Hbad. eauto.
Qed.

Lemma forEach_never {St A} (body : A -> M St Outcome) l b :
  b <> Finished ->
  (forall a, In a l -> forall s, fst (body a s) <> Ok b) ->
  forall s, fst (forEach body l s) <> Ok b.
Proof.
  intros Hb. induction l as [|a l IH]; intros H s; cbn [forEach].
  - cbn. congruence.
  - unfold bind. pose proof (H a (or_introl eq_refl) s) as Ha.
    destruct (body a s) as [[[]|e] s']; cbn in *; try assumption;
      try discriminate.
    apply IH. intros a' Ha'. apply H. now right.
Qed.

Lemma bind_outcome_never {St} (m k : M St Outcome) b s :
  fst (m s) <> Ok b ->
  (forall s', fst (k s') <> Ok b) ->
  fst (bind m (fun r => match r with
                        | Finished => k
                        | _ => ret r
                        end) s) <> Ok b.
Proof.
  unfold bind. intros Hm Hk.
  destruct (m s) as [[[]|e] s']; cbn in *;
    [apply Hk|exact Hm|exact Hm|discriminate].
Qed.

(** The block that registers the directory leaves the walk to go on, or
    stops the program on its assertion. *)
Lemma registerDirectory_outcome p s r :
  fst (registerDirectory W parent_path assertions p s) = Ok r ->
  r = Finished \/ (r = Aborted /\ assertions = true).
Proof.
  unfold registerDirectory, withTransaction, bind.
  destruct (getAddPath _ _ _ _) as [[id|e] s1]; [|discriminate].
  destruct (Path_read id s1) as [[node|e] s2]; [|discriminate].
  destruct (assertions && negb (path_isDirectory node)) eqn:E; cbn;
    intros [= <-]; [right|now left].
  apply andb_prop in E. now split.
Qed.

(** The walk is only cut short when the fuel does not cover the tree,
    and only stopped when assertions are compiled in. *)
Lemma refreshVideoDirectory_never b :
  b <> Finished ->
  (b = Aborted -> assertions = false) ->
  forall fuel p s,
    (b = OutOfFuel -> fuelSuffices W directory_iterator fuel p = true) ->
    fst (refreshVideoDirectory fuel p s) <> Ok b.
Proof.
  intros Hb Hassert. induction fuel as [|fuel IH]; intros p s Hfuel.
  - cbn. intros [= <-]. now specialize (Hfuel eq_refl).
  - cbn [Library.refreshVideoDirectory Library.fuelSuffices] in *.
    apply bind_never. intros [] s1.
    unfold exists_.
    destruct (status W p) eqn:Hp;
      try (unfold bind, throw; cbn; discriminate);
      rewrite bind_ret; cbv beta iota;
      first [ rewrite bind_ret
            | unfold is_directory at 1; rewrite Hp, bind_ret ];
      cbv beta iota;
      try (rewrite bind_ret; unfold bind, emit, modify, ret; cbn;
           congruence).
    apply bind_outcome_never;
      [|intros s'; unfold bind, emit, modify, ret; cbn; congruence].
    apply bind_outcome_never.
    + intros E. apply registerDirectory_outcome in E.
      destruct E as [->|[-> E]]; [congruence|].
      rewrite (Hassert eq_refl) in E. discriminate.
    + intros s2. unfold listDirectory.
      destruct (directory_iterator p) as [files|];
        [|unfold bind, throw; cbn; discriminate].
      rewrite bind_ret. apply forEach_never; [exact Hb|].
      intros child Hchild s3. unfold is_directory, is_regular.
      assert (Hsub : b = OutOfFuel ->
                     match status W child with
                     | DirectoryFile =>
                         fuelSuffices W directory_iterator fuel child
                     | _ => true
                     end = true).
      { intros Hout. specialize (Hfuel Hout).
        exact (proj1 (forallb_forall _ _) Hfuel child Hchild). }
      destruct (status W child);
        try (unfold bind, throw; cbn; discriminate);
        rewrite bind_ret; cbv beta iota;
        try (rewrite bind_ret; cbv beta iota);
        try (apply bind_never; intros [] s4; cbn; congruence).
      apply IH. exact Hsub.
Qed.

(** X20.  The video walk has no handler around its entries: when the
    status of one entry of a directory cannot be read, the walk of that
    directory ends with an exception, unless the program was stopped
    before by the assertion on a directory, which takes assertions to be
    compiled in.  With [fuel] for the depth of the tree these are the
    only ways out: the walk does not finish, and the closing log line is
    not written. *)
Theorem refreshVideoDirectory_stops_at_unreadable_entry fuel p files bad s :
  fuelSuffices W directory_iterator fuel p = true ->
  status W p = DirectoryFile ->
  directory_iterator p = Some files ->
  In bad files ->
  status W bad = StatusError ->
  match fst (refreshVideoDirectory fuel p s) with
  | Throw _ => True
  | Ok r => r = Aborted /\ assertions = true
  end.
Proof.
  intros Hfuel Hp Hfiles Hin Hbad.
  pose proof (refreshVideoDirectory_unfinished fuel p files bad s
                Hp Hfiles Hin Hbad) as Hfinished.
  pose proof (refreshVideoDirectory_never OutOfFuel ltac:(discriminate)
                ltac:(discriminate) fuel p s (fun _ => Hfuel)) as Hout.
  destruct (fst (refreshVideoDirectory fuel p s)) as [[]|e] eqn:E;
    [congruence|congruence| |exact I].
  split; [reflexivity|].
  destruct (Bool.bool_dec assertions true) as [Ha|Ha]; [exact Ha|].
  apply Bool.not_true_is_false in Ha. exfalso.
  apply (refreshVideoDirectory_never Aborted ltac:(discriminate)
           (fun _ => Ha) fuel p s ltac:(discriminate)).
  exact E.
Qed.

End VideoWalk.

(** The directory with the unreadable entry: the walk throws the error
    of the status check. *)
Lemma refreshVideoDirectory_stops_at_unreadable_entry_witness :
  fuelSuffices brokenWorld brokenListing 2 musicDir = true /\
  status brokenWorld musicDir = DirectoryFile /\
  brokenListing musicDir = Some [fifoPath; songPath] /\
  In fifoPath [fifoPath; songPath] /\
  status brokenWorld fifoPath = StatusError /\
  fst (refreshVideoDirectory brokenWorld brokenListing parentOf true 2
         musicDir (mkSession emptyLibrary None true []))
  = Throw (StdException "boost::filesystem::status") /\
  match
    fst (refreshVideoDirectory brokenWorld brokenListing parentOf true 2
           musicDir (mkSession emptyLibrary None true []))
  with
  | Throw _ => True
  | Ok r => r = Aborted /\ true = true
  end.
Proof.
  split; [reflexivity|]. split; [reflexivity|]. split; [reflexivity|].
  split; [now left|]. split; [reflexivity|].
  split; [vm_compute; reflexivity|].
  exact (refreshVideoDirectory_stops_at_unreadable_entry brokenWorld
           brokenListing parentOf true 2 musicDir [fifoPath; songPath]
           fifoPath (mkSession emptyLibrary None true [])
           eq_refl eq_refl eq_refl (or_introl eq_refl) eq_refl).
Defined.

(** The audio walk of the same directory goes on to the song. *)
Example audio_walk_passes_unreadable_entry :
  fst (refreshAudioDirectory brokenWorld brokenListing 2 musicDir
         (mkSession emptyLibrary None true []))
  = Ok Finished /\
  fst (refreshVideoDirectory brokenWorld brokenListing parentOf true 2
         musicDir (mkSession emptyLibrary None true []))
  = Throw (StdException "boost::filesystem::status").
Proof. vm_compute. split; reflexivity. Qed.

(** *** Video files *)

Lemma find_by_id {A} (l : list (nat * A)) r :
  List.NoDup (List.map fst l) -> In r l ->
  List.find (fun x => (fst x =? fst r)%nat) l = Some r.
Proof.
  induction l as [|x l IH]; cbn; [tauto|].
  intros Hnd Hin. inversion Hnd as [|? ? Hnotin Hnd']; subst.
  destruct (Nat.eqb_spec (fst x) (fst r)) as [Heq|Hne].
  - destruct Hin as [->|Hin]; [reflexivity|].
    exfalso. apply Hnotin. rewrite Heq. now apply in_map.
  - destruct Hin as [->|Hin]; [congruence|auto].
Qed.

Lemma find_fresh_id {A} (l : list (nat * A)) id a :
  Forall (fun r => (fst r < id)%nat) l ->
  List.find (fun x => (fst x =? id)%nat) (l ++ [(id, a)]) = Some (id, a).
Proof.
  induction l as [|x l IH]; cbn; intros H.
  - now rewrite Nat.eqb_refl.
  - inversion H as [|? ? Hx Hl]; subst.
    destruct (Nat.eqb_spec (fst x) id); [lia|auto].
Qed.

Lemma map_updated_fresh {A} (f : A -> A) id (l : list (nat * A)) :
  Forall (fun r => (fst r < id)%nat) l ->
  List.map (updated f id) l = l.
Proof.
  induction l as [|x l IH]; cbn; intros H; [reflexivity|].
  inversion H as [|? ? Hx Hl]; subst. rewrite IH by assumption.
  unfold updated. destruct (Nat.eqb_spec (fst x) id); [lia|reflexivity].
Qed.

Lemma updateRow_updateRow {A} (f g : A -> A) id (t : Table A) :
  updateRow id g (updateRow id f t) = updateRow id (fun a => g (f a)) t.
Proof.
  unfold updateRow. cbn. f_equal. rewrite List.map_map.
  apply List.map_ext. intros [i a]. unfold updated. cbn.
  destruct (i =? id)%nat eqn:E; cbn; now rewrite E.
Qed.

Lemma updateRow_inserted {A} (f : A -> A) (a : A) (t : Table A) :
  Forall (fun r => (fst r < nextId t)%nat) (rows t) ->
  updateRow (nextId t) f
    (mkTable (rows t ++ [(nextId t, a)]) (S (nextId t)))
  = mkTable (rows t ++ [(nextId t, f a)]) (S (nextId t)).
Proof.
  intros H. unfold updateRow. cbn. f_equal.
  rewrite List.map_app, (map_updated_fresh _ _ _ H).
  cbn. unfold updated. cbn. now rewrite Nat.eqb_refl.
Qed.

Section VideoFile.
Variable W : World.
Variable parent_path : path -> option path.

Abbreviation processVideoFile := (processVideoFile W parent_path).
Abbreviation processVideoFileBody := (processVideoFileBody W parent_path).
Abbreviation getAddPath := (getAddPath W parent_path).
Abbreviation registeredParent := (registeredParent parent_path).

Lemma Path_getByPath_run p (c w : Library) fk (tr : list LibEvent) :
  Path_getByPath p (inTx c w fk tr)
  = (Ok (option_map fst (registered w p)), inTx c w fk tr).
Proof. reflexivity. Qed.

Lemma Path_read_run id r (c w : Library) fk (tr : list LibEvent) :
  List.find (fun x => (fst x =? id)%nat) (rows (paths w)) = Some r ->
  Path_read id (inTx c w fk tr) = (Ok (snd r), inTx c w fk tr).
Proof.
  intros H. unfold Path_read, bind, getStore, inTx. cbn. now rewrite H.
Qed.

Lemma registered_some (w : Library) p r :
  registered w p = Some r ->
  In r (rows (paths w)) /\ path_filePath (snd r) = p.
Proof.
  unfold registered, findRow. intros H. apply find_some in H.
  destruct H as [Hin Heq]. cbn in Heq. apply String.eqb_eq in Heq. auto.
Qed.

Lemma registered_read (w : Library) p r :
  distinctIds (paths w) ->
  registered w p = Some r ->
  List.find (fun x => (fst x =? fst r)%nat) (rows (paths w)) = Some r.
Proof.
  intros [Hnd _] Hr. apply find_by_id; [exact Hnd|].
  exact (proj1 (registered_some _ _ _ Hr)).
Qed.

(** The path is not registered: [getAddPath] registers it, under its
    parent if that is registered. *)
Lemma getAddPath_new_run p (c w : Library) fk (tr : list LibEvent) :
  registered w p = None ->
  status W p <> StatusError ->
  getAddPath p (inTx c w fk tr)
  = (Ok (nextId (paths w)),
     inTx c
       (setPaths
          (snd (insertRow
                  (mkPath p
                     match status W p with
                     | DirectoryFile => true
                     | _ => false
                     end
                     (registeredParent w p) None)
                  (paths w)))
          w)
       fk tr).
Proof.
  intros Hnone Hst. unfold Library.getAddPath, Library.registeredParent.
  destruct (parent_path p) as [parent|].
  - rewrite (bind_ok _ _ _ _ _ (Path_getByPath_run _ _ _ _ _)).
    rewrite (bind_ok _ _ _ _ _ (Path_getByPath_run _ _ _ _ _)).
    rewrite Hnone. cbn [option_map].
    unfold Path_create, is_directory.
    destruct (status W p); try reflexivity. congruence.
  - rewrite bind_ret.
    rewrite (bind_ok _ _ _ _ _ (Path_getByPath_run _ _ _ _ _)).
    rewrite Hnone. cbn [option_map].
    unfold Path_create, is_directory.
    destruct (status W p); try reflexivity. congruence.
Qed.

Lemma withTransaction_rest {A} (body : ML A) (c : Library) fk tr :
  withTransaction body (mkSession c None fk tr)
  = match body (inTx c c fk tr) with
    | (Ok a, s') => (Ok a, commit_ s')
    | (Throw e, s') => (Throw e, rollback_ s')
    end.
Proof. reflexivity. Qed.

Lemma keeps_ret {A} (a : A) : keeps (ret a : ML A).
Proof.
  intros c w fk tr. exists (Ok a), w, []. now rewrite app_nil_r.
Qed.

Lemma keeps_throw {A} e : keeps (throw e : ML A).
Proof.
  intros c w fk tr. exists (Throw e), w, []. now rewrite app_nil_r.
Qed.

Lemma keeps_emit e : keeps (emit e : ML unit).
Proof. intros c w fk tr. now exists (Ok tt), w, [e]. Qed.

Lemma keeps_bind {A B} (m : ML A) (k : A -> ML B) :
  keeps m -> (forall a, keeps (k a)) -> keeps (bind m k).
Proof.
  intros Hm Hk c w fk tr.
  destruct (Hm c w fk tr) as (r & w1 & tr1 & E & Ha).
  unfold bind. rewrite E. destruct r as [a|e].
  - destruct (Hk a c w1 fk (tr ++ tr1)) as (r2 & w2 & tr2 & E2 & Ha2).
    exists r2, w2, (tr1 ++ tr2). rewrite app_assoc.
    split; [exact E2|congruence].
  - now exists (Throw e), w1, tr1.
Qed.

Ltac keeps_here :=
  intros c w fk tr; eexists _, _, []; rewrite app_nil_r;
  split; reflexivity.

Lemma keeps_Path_getByPath p : keeps (Path_getByPath p).
Proof. keeps_here. Qed.

Lemma keeps_Path_read id : keeps (Path_read id).
Proof.
  intros c w fk tr. unfold Path_read, bind, getStore, inTx. cbn.
  destruct (List.find _ _); eexists _, _, []; rewrite app_nil_r;
    split; reflexivity.
Qed.

Lemma keeps_Path_create p parent : keeps (Path_create W p parent).
Proof.
  intros c w fk tr. unfold Path_create, is_directory.
  destruct (status W p); eexists _, _, []; rewrite app_nil_r;
    split; reflexivity.
Qed.

Lemma keeps_Path_addChild parent child : keeps (Path_addChild parent child).
Proof. keeps_here. Qed.

Lemma keeps_Path_setLastWriteTime id time :
  keeps (Path_setLastWriteTime id time).
Proof. keeps_here. Qed.

Lemma keeps_Path_getVideo id : keeps (Path_getVideo id).
Proof. keeps_here. Qed.

Lemma keeps_Path_remove id : keeps (Path_remove id).
Proof. keeps_here. Qed.

Lemma keeps_Video_create id : keeps (Video_create id).
Proof. keeps_here. Qed.

Lemma keeps_Video_modify id f : keeps (Video_modify id f).
Proof. keeps_here. Qed.

Lemma keeps_getAddPath p : keeps (getAddPath p).
Proof.
  unfold Library.getAddPath. apply keeps_bind.
  - destruct (parent_path p);
      [apply keeps_Path_getByPath|apply keeps_ret].
  - intros parentDirectory. apply keeps_bind;
      [apply keeps_Path_getByPath|].
    intros [res|]; [|apply keeps_Path_create].
    apply keeps_bind; [apply keeps_Path_read|]. intros node.
    apply keeps_bind; [|intros; apply keeps_ret].
    destruct parentDirectory, (path_parent node);
      first [apply keeps_Path_addChild|apply keeps_ret].
Qed.

Lemma settles_keeps {A} (m : ML A) : keeps m -> settles m.
Proof.
  intros Hm c w fk tr. destruct (Hm c w fk tr) as (r & w1 & tr1 & E & Ha).
  exists r, (inTx c w1 fk (tr ++ tr1)), tr1.
  repeat split; try assumption. now destruct r.
Qed.

Lemma settles_bind {A B} (m : ML A) (k : A -> ML B) :
  keeps m -> (forall a, settles (k a)) -> settles (bind m k).
Proof.
  intros Hm Hk c w fk tr.
  destruct (Hm c w fk tr) as (r & w1 & tr1 & E & Ha).
  unfold bind. rewrite E. destruct r as [a|e].
  - destruct (Hk a c w1 fk (tr ++ tr1))
      as (r2 & s2 & tr2 & E2 & Hfk & Htr & Hr).
    exists r2, s2, (tr1 ++ tr2). rewrite app_assoc.
    repeat split; try assumption.
    destruct r2; [congruence|assumption].
  - exists (Throw e), (inTx c w1 fk (tr ++ tr1)), tr1. now repeat split.
Qed.

Lemma settles_commit {A} (m : ML A) :
  keeps m -> settles (m ;;; commit).
Proof.
  intros Hm c w fk tr.
  destruct (Hm c w fk tr) as (r & w1 & tr1 & E & Ha).
  unfold bind. rewrite E. destruct r as [a|e].
  - exists (Ok tt), (mkSession w1 None fk (tr ++ tr1)), tr1.
    now repeat split.
  - exists (Throw e), (inTx c w1 fk (tr ++ tr1)), tr1. now repeat split.
Qed.

Lemma processVideoFileBody_settles file lastWriteTime :
  settles (processVideoFileBody file lastWriteTime).
Proof.
  unfold Library.processVideoFileBody.
  apply settles_bind; [apply keeps_Path_getByPath|]. intros dbPath.
  apply settles_bind.
  { destruct dbPath; [|apply keeps_ret].
    apply keeps_bind; [apply keeps_Path_read|intros; apply keeps_ret]. }
  intros [|]; [apply settles_keeps, keeps_emit|].
  apply settles_bind; [apply keeps_emit|]. intros _.
  apply settles_bind; [apply keeps_emit|]. intros _.
  apply settles_bind.
  { destruct (openMedia W file); [apply keeps_ret|apply keeps_throw]. }
  intros mediaFile. apply settles_commit.
  destruct (getVideoStreams mediaFile).
  - apply keeps_bind; [apply keeps_emit|]. intros _.
    destruct dbPath; [apply keeps_Path_remove|apply keeps_ret].
  - destruct (durationSeconds mediaFile =? 0)%Z.
    + apply keeps_bind; [apply keeps_emit|]. intros _.
      destruct dbPath; [apply keeps_Path_remove|apply keeps_ret].
    + apply keeps_bind.
      { destruct dbPath; [apply keeps_ret|apply keeps_getAddPath]. }
      intros id. apply keeps_bind; [apply keeps_Path_setLastWriteTime|].
      intros _. apply keeps_bind; [apply keeps_Path_getVideo|].
      intros video. apply keeps_bind.
      { destruct video.
        - apply keeps_bind; [apply keeps_emit|intros; apply keeps_ret].
        - apply keeps_bind; [apply keeps_Video_create|]. intros created.
          apply keeps_bind; [apply keeps_emit|intros; apply keeps_ret]. }
      intros v. apply keeps_bind; [apply keeps_Video_modify|].
      intros _. apply keeps_Video_modify.
Qed.

(** X21.  [processVideoFile] never throws and never touches the audio
    side: whatever the file and the store, it returns with the
    transaction closed, the foreign-key setting as it was and the trace
    only longer, and the tracks, artists, releases and genres are those
    it started from.  When the modification time of the file cannot be
    read, or the file cannot be opened as media, nothing at all is
    changed in the store. *)
Theorem processVideoFile_contains_failures file s :
  transaction s = None ->
  exists c' tr',
    processVideoFile file s
    = (Ok tt, mkSession c' None (foreignKeys s) (trace s ++ tr'))
    /\ audio c' = audio (committed s)
    /\ (last_write_time W file = None \/ openMedia W file = None ->
        c' = committed s).
Proof.
  destruct s as [c t fk tr]. cbn. intros ->.
  unfold Library.processVideoFile, tryCatch.
  destruct (last_write_time W file) as [lwt|] eqn:Hlwt.
  - rewrite bind_ret, withTransaction_rest.
    destruct (processVideoFileBody_settles file lwt c c fk tr)
      as (r & s' & tr' & E & Hfk & Htr & Hr).
    rewrite E. destruct r as [[]|e].
    + exists (committed (commit_ s')), tr'. split; [|split].
      * unfold commit_. cbn. now rewrite Hfk, Htr.
      * exact Hr.
      * intros [Hno|Hopen]; [discriminate|].
        revert E. unfold Library.processVideoFileBody.
        rewrite (bind_ok _ _ _ _ _ (Path_getByPath_run _ _ _ _ _)).
        destruct (option_map fst (registered c file)) as [id|].
        -- unfold Path_read, getStore, inTx, bind, ret, throw. cbn.
           destruct (List.find _ _) as [node|]; cbn; [|discriminate].
           destruct (ptime_eqb _ _); cbn.
           ++ intros E. now inversion E.
           ++ rewrite Hopen. discriminate.
        -- rewrite bind_ret. unfold bind, throw. cbn.
           rewrite Hopen. discriminate.
    + exists c, (tr' ++ [Refresh (ExceptionWhileParsingVideo file e)]).
      split; [|split]; [|reflexivity|reflexivity].
      unfold rollback_, emit, modify. cbn.
      now rewrite Hfk, Htr, Hr, app_assoc.
  - exists c, [Refresh (ExceptionWhileParsingVideo file
                          (StdException "boost::filesystem::last_write_time"))].
    split; [reflexivity|]. split; reflexivity.
Qed.

Lemma cascade_incl fuel ids rs i :
  In i ids -> In i (cascade fuel ids rs).
Proof.
  revert ids. induction fuel as [|fuel IH]; cbn; intros ids H; [exact H|].
  apply IH. apply in_or_app. now left.
Qed.

Lemma withoutPath_gone id (w : Library) :
  ~ In id (List.map fst (rows (paths (withoutPath id w))))
  /\ Forall (fun v => video_path (snd v) <> id)
       (rows (videos (withoutPath id w))).
Proof.
  unfold withoutPath. cbn.
  set (doomed := cascade _ _ _).
  assert (Hd : existsb (Nat.eqb id) doomed = true).
  { apply existsb_exists. exists id. split; [|apply Nat.eqb_refl].
    apply cascade_incl. now left. }
  split.
  - intros Hin. apply in_map_iff in Hin. destruct Hin as (r & <- & Hr).
    apply filter_In in Hr. destruct Hr as [_ Hr].
    rewrite Hd in Hr. discriminate.
  - apply List.Forall_forall. intros v Hv.
    apply filter_In in Hv. destruct Hv as [_ Hv].
    intros Heq. rewrite Heq, Hd in Hv. discriminate.
Qed.

Lemma withoutPath_incl id (w : Library) :
  incl (rows (paths (withoutPath id w))) (rows (paths w))
  /\ incl (rows (videos (withoutPath id w))) (rows (videos w)).
Proof. split; apply incl_filter. Qed.

Ltac rejected_run :=
  unfold bind, emit, modify, ret, inTx; cbn;
  match goal with
  | Hnot : getVideoStreams ?m = [] \/ durationSeconds ?m = 0%Z |- _ =>
      destruct (getVideoStreams m);
      [|destruct Hnot as [Hnot|Hnot]; [discriminate|];
        apply Z.eqb_eq in Hnot; rewrite Hnot];
      cbn; eexists; rewrite <- !app_assoc; reflexivity
  end.

(** X22.  A file that is not a video leaves no trace in the library: when
    the file opens as media but has no video stream, or has one and a
    duration of zero seconds, [processVideoFile] creates nothing, and
    the node stored for the file, if there is one with another
    modification time, is deleted together with the videos that belong
    to it. *)
Theorem processVideoFile_rejects file s lastWriteTime mediaFile :
  transaction s = None ->
  distinctIds (paths (committed s)) ->
  last_write_time W file = Some lastWriteTime ->
  openMedia W file = Some mediaFile ->
  getVideoStreams mediaFile = [] \/ durationSeconds mediaFile = 0%Z ->
  (forall r, registered (committed s) file = Some r ->
             path_lastWriteTime (snd r) <> Some lastWriteTime) ->
  exists c' tr',
    processVideoFile file s
    = (Ok tt, mkSession c' None (foreignKeys s) (trace s ++ tr'))
    /\ c' = match registered (committed s) file with
            | Some r => withoutPath (fst r) (committed s)
            | None => committed s
            end
    /\ incl (rows (paths c')) (rows (paths (committed s)))
    /\ incl (rows (videos c')) (rows (videos (committed s)))
    /\ (forall r, registered (committed s) file = Some r ->
          ~ In (fst r) (List.map fst (rows (paths c')))
          /\ Forall (fun v => video_path (snd v) <> fst r)
               (rows (videos c'))).
Proof.
  destruct s as [c t fk tr]. cbn. intros -> Hids Hlwt Hopen Hnot Hold.
  assert (Hrun : exists tr',
             processVideoFile file (mkSession c None fk tr)
             = (Ok tt,
                mkSession
                  match registered c file with
                  | Some r => withoutPath (fst r) c
                  | None => c
                  end None fk (tr ++ tr'))).
  { unfold Library.processVideoFile, tryCatch.
    rewrite Hlwt, bind_ret, withTransaction_rest.
    unfold Library.processVideoFileBody.
    rewrite (bind_ok _ _ _ _ _ (Path_getByPath_run _ _ _ _ _)).
    destruct (registered c file) as [r|] eqn:Hreg; cbn [option_map].
    - rewrite bind_assoc.
      rewrite (bind_ok _ _ _ _ _
                 (Path_read_run (fst r) r c c fk tr
                    (registered_read c file r Hids Hreg))).
      cbv beta. rewrite bind_ret. cbv beta.
      match goal with
      | |- context [ptime_eqb ?a ?b] =>
          assert (Hne : ptime_eqb a b = false)
      end.
      { destruct (ptime_eqb _ _) eqn:E; [|reflexivity].
        apply ScannerFacts.ptime_eqb_eq in E.
        now apply (Hold r eq_refl) in E. }
      rewrite Hne, Hopen. rejected_run.
    - rewrite bind_ret, Hopen. rejected_run. }
  destruct Hrun as [tr' Hrun]. eexists _, tr'.
  split; [exact Hrun|]. split; [reflexivity|].
  destruct (registered c file) as [r|].
  - split; [apply withoutPath_incl|]. split; [apply withoutPath_incl|].
    intros r' Hr'. inversion Hr'; subst r'. apply withoutPath_gone.
  - split; [apply incl_refl|]. split; [apply incl_refl|]. discriminate.
Qed.

(** X23.  A file already stored with the modification time it has now
    is skipped without being opened: one line is logged and the store
    is committed as it was. *)
Theorem processVideoFile_skips_unchanged file s r lastWriteTime :
  transaction s = None ->
  distinctIds (paths (committed s)) ->
  last_write_time W file = Some lastWriteTime ->
  registered (committed s) file = Some r ->
  path_lastWriteTime (snd r) = Some lastWriteTime ->
  processVideoFile file s
  = (Ok tt,
     mkSession (committed s) None (foreignKeys s)
       (trace s ++ [Scan (Log (SkippedLastWriteTime file))])).
Proof.
  destruct s as [c t fk tr]. cbn. intros -> Hids Hlwt Hreg Htime.
  unfold Library.processVideoFile, tryCatch.
  rewrite Hlwt, bind_ret, withTransaction_rest.
  unfold Library.processVideoFileBody.
  rewrite (bind_ok _ _ _ _ _ (Path_getByPath_run _ _ _ _ _)).
  rewrite Hreg. cbn [option_map]. rewrite bind_assoc.
  rewrite (bind_ok _ _ _ _ _
             (Path_read_run (fst r) r c c fk tr
                (registered_read c file r Hids Hreg))).
  cbv beta. rewrite bind_ret. cbv beta.
  match goal with
  | |- context [ptime_eqb ?a ?b] => assert (Heq : ptime_eqb a b = true)
  end.
  { now apply ScannerFacts.ptime_eqb_eq. }
  rewrite Heq. reflexivity.
Qed.

Lemma find_video_created (rs : list (nat * Video)) id vid name d :
  List.find (fun v => (video_path (snd v) =? id)%nat) rs = None ->
  List.find (fun v => (video_path (snd v) =? id)%nat)
    (List.map
       (updated (fun v => setVideoDuration d (setVideoName name v)) vid)
       (rs ++ [(vid, mkVideo id EmptyString 0)]))
  = Some (vid, mkVideo id name d).
Proof.
  intros Hnone. rewrite List.map_app.
  rewrite (ScannerFacts.find_app_none
             (fun v => (video_path v =? id)%nat)).
  - cbn. unfold updated. cbn. rewrite !Nat.eqb_refl. cbn.
    rewrite ?Nat.eqb_refl. reflexivity.
  - apply (ScannerFacts.find_updated_none
             (fun v => (video_path v =? id)%nat)); [reflexivity|exact Hnone].
Qed.

Lemma find_video_updated (rs : list (nat * Video)) id v name d :
  List.find (fun v => (video_path (snd v) =? id)%nat) rs = Some v ->
  List.find (fun v => (video_path (snd v) =? id)%nat)
    (List.map
       (updated (fun v => setVideoDuration d (setVideoName name v)) (fst v))
       rs)
  = Some (fst v, mkVideo id name d).
Proof.
  intros Hv.
  rewrite (ScannerFacts.find_updated_nil
             (fun v => (video_path v =? id)%nat)
             (fun v => setVideoDuration d (setVideoName name v))
             (fun _ => eq_refl) (fst v) rs v Hv).
  apply find_some in Hv. destruct Hv as [_ Hv].
  apply Nat.eqb_eq in Hv. unfold updated. rewrite Nat.eqb_refl.
  unfold setVideoDuration, setVideoName. cbn. now rewrite Hv.
Qed.

(** X24.  A regular file that opens as a video and is not yet stored is
    stored: a node for the file is appended to the nodes, with the id
    the table hands out next, under the node of its parent directory if
    that is registered, and with the modification time of the file; the
    video of that node carries the file name and the duration of the
    media. *)
Theorem processVideoFile_stores_video file s lastWriteTime mediaFile :
  transaction s = None ->
  distinctIds (paths (committed s)) ->
  registered (committed s) file = None ->
  status W file = RegularFile ->
  last_write_time W file = Some lastWriteTime ->
  openMedia W file = Some mediaFile ->
  getVideoStreams mediaFile <> [] ->
  durationSeconds mediaFile <> 0%Z ->
  exists c' tr' video,
    processVideoFile file s
    = (Ok tt, mkSession c' None (foreignKeys s) (trace s ++ tr'))
    /\ rows (paths c')
       = rows (paths (committed s))
         ++ [(nextId (paths (committed s)),
              mkPath file false (registeredParent (committed s) file)
                (Some lastWriteTime))]
    /\ videoOf c' (nextId (paths (committed s)))
       = Some (video,
               mkVideo (nextId (paths (committed s))) (filename file)
                 (durationSeconds mediaFile))
    /\ audio c' = audio (committed s).
Proof.
  destruct s as [c t fk tr]. cbn.
  intros -> Hids Hreg Hst Hlwt Hopen Hstreams Hdur.
  apply Z.eqb_neq in Hdur.
  unfold Library.processVideoFile, tryCatch.
  rewrite Hlwt, bind_ret, withTransaction_rest.
  unfold Library.processVideoFileBody.
  rewrite (bind_ok _ _ _ _ _ (Path_getByPath_run _ _ _ _ _)).
  rewrite Hreg. cbn [option_map]. rewrite bind_ret.
  rewrite (bind_ok _ _ _ _ _ (ScannerFacts.emit_run _ _ _ _ _)).
  rewrite (bind_ok _ _ _ _ _ (ScannerFacts.emit_run _ _ _ _ _)).
  rewrite Hopen, bind_ret.
  destruct (getVideoStreams mediaFile) as [|stream streams];
    [congruence|].
  rewrite Hdur, bind_assoc.
  assert (Hok : status W file <> StatusError) by (rewrite Hst; discriminate).
  rewrite (bind_ok _ _ _ _ _
             (getAddPath_new_run file c c fk _ Hreg Hok)).
  rewrite Hst.
  pose proof (updateRow_inserted (setPathLastWriteTime lastWriteTime)
                (mkPath file false (registeredParent c file) None)
                (paths c) (proj2 Hids)) as Hpaths.
  destruct (videoOf c (nextId (paths c))) as [v|] eqn:Hv.
  - exists (mkLibrary (audio c)
              (mkTable
                 (rows (paths c)
                  ++ [(nextId (paths c),
                       mkPath file false (registeredParent c file)
                         (Some lastWriteTime))])
                 (S (nextId (paths c))))
              (updateRow (fst v)
                 (fun x => setVideoDuration (durationSeconds mediaFile)
                             (setVideoName (filename file) x))
                 (videos c))).
    eexists _, (fst v). split; [|split; [reflexivity|split; [|reflexivity]]].
    + unfold bind, Path_setLastWriteTime, Path_getVideo, Video_modify,
        Video_create, getStore, putStore, commit, emit, modify, ret, inTx.
      cbn. unfold videoOf in Hv. rewrite Hv. cbn.
      rewrite Hpaths, updateRow_updateRow.
      rewrite <- !app_assoc. reflexivity.
    + unfold videoOf, findRow. cbn.
      now apply find_video_updated.
  - exists (mkLibrary (audio c)
              (mkTable
                 (rows (paths c)
                  ++ [(nextId (paths c),
                       mkPath file false (registeredParent c file)
                         (Some lastWriteTime))])
                 (S (nextId (paths c))))
              (updateRow (nextId (videos c))
                 (fun x => setVideoDuration (durationSeconds mediaFile)
                             (setVideoName (filename file) x))
                 (snd (insertRow (mkVideo (nextId (paths c)) EmptyString 0)
                         (videos c))))).
    eexists _, (nextId (videos c)).
    split; [|split; [reflexivity|split; [|reflexivity]]].
    + unfold bind, Path_setLastWriteTime, Path_getVideo, Video_modify,
        Video_create, getStore, putStore, commit, emit, modify, ret, inTx.
      cbn. unfold videoOf in Hv. rewrite Hv. cbn.
      rewrite Hpaths, updateRow_updateRow.
      rewrite <- !app_assoc. reflexivity.
    + unfold videoOf, findRow. cbn.
      now apply find_video_created.
Qed.

End VideoFile.

Lemma movieLibrary_distinctIds : distinctIds (paths movieLibrary).
Proof.
  split.
  - cbn. constructor; [intros []|constructor].
  - cbn. constructor; [cbn; lia|constructor].
Qed.

Lemma emptyLibrary_distinctIds : distinctIds (paths emptyLibrary).
Proof. split; cbn; constructor. Qed.

Lemma movieLibrary_is_older :
  forall r, registered movieLibrary moviePath = Some r ->
            path_lastWriteTime (snd r) <> Some 500%Z.
Proof. intros r H. vm_compute in H. now inversion H. Qed.

(** The stored film has changed and cannot be opened any more: the
    exception is caught and logged, and the library, its film and its
    track are what they were. *)
Lemma processVideoFile_contains_failures_witness :
  transaction (mkSession filmAndSongLibrary None true [] : Session _ LibEvent)
  = None /\
  openMedia unopenableWorld moviePath = None /\
  rows (tracks (audio filmAndSongLibrary)) = [(1, storedTrack)] /\
  processVideoFile unopenableWorld parentOf moviePath
    (mkSession filmAndSongLibrary None true [])
  = (Ok tt,
     mkSession filmAndSongLibrary None true
       [ Refresh (VideoParsingFile moviePath);
         Scan (CallOpenMedia moviePath);
         Refresh (ExceptionWhileParsingVideo moviePath
                    (StdException "Transcode::InputMediaFile")) ]) /\
  exists c' tr',
    processVideoFile unopenableWorld parentOf moviePath
      (mkSession filmAndSongLibrary None true [])
    = (Ok tt, mkSession c' None true ([] ++ tr'))
    /\ audio c' = audio filmAndSongLibrary
    /\ (last_write_time unopenableWorld moviePath = None
        \/ openMedia unopenableWorld moviePath = None ->
        c' = filmAndSongLibrary).
Proof.
  split; [reflexivity|]. split; [reflexivity|]. split; [reflexivity|].
  split; [vm_compute; reflexivity|].
  exact (processVideoFile_contains_failures unopenableWorld parentOf
           moviePath (mkSession filmAndSongLibrary None true []) eq_refl).
Defined.

(** The film turned into a file without a video stream: its node and its
    video go. *)
Lemma processVideoFile_rejects_witness :
  transaction (mkSession movieLibrary None true [] : Session _ LibEvent)
  = None /\
  distinctIds (paths movieLibrary) /\
  last_write_time noMovieWorld moviePath = Some 500%Z /\
  openMedia noMovieWorld moviePath = Some (mkInputMediaFile [Audio] 5400) /\
  (getVideoStreams (mkInputMediaFile [Audio] 5400) = []
   \/ durationSeconds (mkInputMediaFile [Audio] 5400) = 0%Z) /\
  (forall r, registered movieLibrary moviePath = Some r ->
             path_lastWriteTime (snd r) <> Some 500%Z) /\
  exists c' tr',
    processVideoFile noMovieWorld parentOf moviePath
      (mkSession movieLibrary None true [])
    = (Ok tt, mkSession c' None true ([] ++ tr'))
    /\ c' = match registered movieLibrary moviePath with
            | Some r => withoutPath (fst r) movieLibrary
            | None => movieLibrary
            end
    /\ incl (rows (paths c')) (rows (paths movieLibrary))
    /\ incl (rows (videos c')) (rows (videos movieLibrary))
    /\ (forall r, registered movieLibrary moviePath = Some r ->
          ~ In (fst r) (List.map fst (rows (paths c')))
          /\ Forall (fun v => video_path (snd v) <> fst r)
               (rows (videos c'))).
Proof.
  split; [reflexivity|]. split; [exact movieLibrary_distinctIds|].
  split; [reflexivity|]. split; [reflexivity|].
  split; [left; reflexivity|]. split; [exact movieLibrary_is_older|].
  exact (processVideoFile_rejects noMovieWorld parentOf moviePath
           (mkSession movieLibrary None true []) 500%Z
           (mkInputMediaFile [Audio] 5400)
           eq_refl movieLibrary_distinctIds eq_refl eq_refl
           (or_introl eq_refl) movieLibrary_is_older).
Defined.

Example rejected_film_is_forgotten :
  committed
    (snd (processVideoFile noMovieWorld parentOf moviePath
            (mkSession movieLibrary None true [])))
  = mkLibrary emptyDb (mkTable [] 2) (mkTable [] 2).
Proof. vm_compute. reflexivity. Qed.

Lemma processVideoFile_skips_unchanged_witness :
  transaction (mkSession movieLibrary None true [] : Session _ LibEvent)
  = None /\
  distinctIds (paths movieLibrary) /\
  last_write_time movieWorld moviePath = Some 400%Z /\
  registered movieLibrary moviePath
  = Some (1, mkPath moviePath false None (Some 400%Z)) /\
  path_lastWriteTime (snd (1, mkPath moviePath false None (Some 400%Z)))
  = Some 400%Z /\
  processVideoFile movieWorld parentOf moviePath
    (mkSession movieLibrary None true [])
  = (Ok tt,
     mkSession movieLibrary None true
       ([] ++ [Scan (Log (SkippedLastWriteTime moviePath))])).
Proof.
  split; [reflexivity|]. split; [exact movieLibrary_distinctIds|].
  split; [reflexivity|]. split; [reflexivity|]. split; [reflexivity|].
  exact (processVideoFile_skips_unchanged movieWorld parentOf moviePath
           (mkSession movieLibrary None true [])
           (1, mkPath moviePath false None (Some 400%Z)) 400%Z
           eq_refl movieLibrary_distinctIds eq_refl eq_refl eq_refl).
Defined.

Lemma processVideoFile_stores_video_witness :
  transaction (mkSession emptyLibrary None true [] : Session _ LibEvent)
  = None /\
  distinctIds (paths emptyLibrary) /\
  registered emptyLibrary moviePath = None /\
  status movieWorld moviePath = RegularFile /\
  last_write_time movieWorld moviePath = Some 400%Z /\
  openMedia movieWorld moviePath
  = Some (mkInputMediaFile [Scanner.Video; Audio] 5400) /\
  getVideoStreams (mkInputMediaFile [Scanner.Video; Audio] 5400) <> [] /\
  durationSeconds (mkInputMediaFile [Scanner.Video; Audio] 5400) <> 0%Z /\
  exists c' tr' video,
    processVideoFile movieWorld parentOf moviePath
      (mkSession emptyLibrary None true [])
    = (Ok tt, mkSession c' None true ([] ++ tr'))
    /\ rows (paths c')
       = rows (paths emptyLibrary)
         ++ [(nextId (paths emptyLibrary),
              mkPath moviePath false
                (registeredParent parentOf emptyLibrary moviePath)
                (Some 400%Z))]
    /\ videoOf c' (nextId (paths emptyLibrary))
       = Some (video,
               mkVideo (nextId (paths emptyLibrary)) (filename moviePath)
                 (durationSeconds
                    (mkInputMediaFile [Scanner.Video; Audio] 5400)))
    /\ audio c' = audio emptyLibrary.
Proof.
  split; [reflexivity|]. split; [exact emptyLibrary_distinctIds|].
  split; [reflexivity|]. split; [reflexivity|]. split; [reflexivity|].
  split; [reflexivity|]. split; [discriminate|]. split; [discriminate|].
  exact (processVideoFile_stores_video movieWorld parentOf moviePath
           (mkSession emptyLibrary None true []) 400%Z
           (mkInputMediaFile [Scanner.Video; Audio] 5400)
           eq_refl emptyLibrary_distinctIds eq_refl eq_refl eq_refl eq_refl
           ltac:(discriminate) ltac:(discriminate)).
Defined.

(** Storing the film in the empty library gives [movieLibrary]. *)
Example film_is_stored :
  committed
    (snd (processVideoFile movieWorld parentOf moviePath
            (mkSession emptyLibrary None true [])))
  = movieLibrary.
Proof. vm_compute. reflexivity. Qed.

(** *** The refresh *)

Section Refresh.
Variable W : World.
Variable directory_iterator : path -> option (list path).
Variable parent_path : path -> option path.
Variable assertions : bool.

Abbreviation refresh :=
  (refresh W directory_iterator parent_path assertions).

(** The loop of the reconciler throws at the first track whose status
    cannot be read, whatever it did to the working copy before. *)
Lemma removeMissing_unreadable all :
  (exists row, In row all /\
               status W (track_path (snd row)) = StatusError) ->
  forall c w fk tr,
    exists w' tr',
      removeMissing W (List.map loaded all) (inTx c w fk tr)
      = (Throw (StdException "boost::filesystem::status"),
         inTx c w' fk tr').
Proof.
  induction all as [|x all IH]; intros (row & Hin & Hrow) c w fk tr;
    [destruct Hin|].
  assert (Hrest : status W (track_path (snd x)) <> StatusError ->
                  exists row, In row all /\
                    status W (track_path (snd row)) = StatusError).
  { intros Hx. destruct Hin as [->|Hin]; [contradiction|].
    now exists row. }
  cbn [List.map removeMissing loaded ptr_obj].
  unfold fs_exists, fs_is_regular.
  destruct (status W (track_path (snd x))) eqn:E;
    try (repeat first [ScannerFacts.run_step | progress cbn [negb]];
         apply IH, Hrest; discriminate).
  now exists w, tr.
Qed.

Lemma removeMissingAudioFiles_unreadable (c : Db) fk tr :
  (exists row, In row (rows (tracks c)) /\
               status W (track_path (snd row)) = StatusError) ->
  exists tr',
    removeMissingAudioFiles W (mkSession c None fk tr)
    = (Throw (StdException "boost::filesystem::status"),
       mkSession c None fk tr').
Proof.
  intros Hbad. unfold removeMissingAudioFiles.
  rewrite (bind_ok _ _ _ _ _ (ScannerFacts.emit_idle _ _ _ _)).
  destruct (removeMissing_unreadable _ Hbad c c fk
              (tr ++ [Log RemovingMissingFiles])) as (w' & tr' & Hrun).
  erewrite bind_throw.
  2:{ rewrite ScannerFacts.withTransaction_run.
      rewrite (bind_ok _ _ _ _ _ (ScannerFacts.Track_getAll_run _ _ _ _)).
      rewrite (bind_throw _ _ _ _ _ Hrun). reflexivity. }
  now exists tr'.
Qed.

(** X25.  A refresh does not survive a failing reconciliation: when the
    status of the path of one stored track cannot be read, [refresh]
    throws the error of the status check before any watched directory is
    looked at, whatever the directories, and nothing is committed - not
    even the removal of tracks the reconciler had found missing. *)
Theorem refresh_stops_when_reconciliation_fails fuel directories s row :
  transaction s = None ->
  In row (rows (tracks (audio (committed s)))) ->
  status W (track_path (snd row)) = StatusError ->
  exists lines,
    refresh fuel directories s
    = (Throw (StdException "boost::filesystem::status"),
       mkSession (committed s) None (foreignKeys s)
         (trace s ++ List.map Scan lines)).
Proof.
  destruct s as [c t fk tr]. cbn. intros -> Hin Hrow.
  destruct (removeMissingAudioFiles_unreadable (audio c) fk []
              (ex_intro _ row (conj Hin Hrow))) as [lines Hrun].
  exists lines. unfold Library.refresh.
  erewrite bind_throw; [reflexivity|].
  unfold liftScan. cbn [committed transaction foreignKeys trace option_map].
  rewrite Hrun. cbn. now rewrite setAudio_audio.
Qed.

Lemma walkResult_readable p :
  rootReadable W directory_iterator p = true ->
  walkResult W directory_iterator p = Ok Finished.
Proof.
  unfold rootReadable, walkResult.
  destruct (status W p); try reflexivity; try discriminate.
  destruct (directory_iterator p); [reflexivity|discriminate].
Qed.

Lemma refresh_loop fuel directories :
  Forall
    (fun directory =>
       getType directory = WatchedAudio
       /\ fuelSuffices W directory_iterator fuel (getPath directory) = true
       /\ rootReadable W directory_iterator (getPath directory) = true)
    directories ->
  forall c fk tr,
    exists tr',
      forEach
        (fun directory =>
           match getType directory with
           | WatchedAudio =>
               refreshAudioDirectory W directory_iterator fuel
                 (getPath directory)
           | WatchedVideo =>
               refreshVideoDirectory W directory_iterator parent_path
                 assertions fuel (getPath directory)
           end)
        directories (mkSession c None fk tr)
      = (Ok Finished,
         mkSession
           (setAudio
              (scanned W
                 (flat_map
                    (fun directory =>
                       audioFiles W directory_iterator fuel
                         (getPath directory))
                    directories)
                 (audio c))
              c)
           None fk tr').
Proof.
  induction 1 as [|directory directories (Hty & Hfuel & Hroot) _ IH];
    intros c fk tr.
  - exists tr. cbn. now rewrite setAudio_audio.
  - cbn [forEach flat_map]. rewrite Hty, scanned_app.
    destruct (refreshAudioDirectory_run W directory_iterator fuel
                (getPath directory) c fk tr Hfuel) as [tr1 E].
    rewrite (walkResult_readable _ Hroot) in E.
    rewrite (bind_ok _ _ _ _ _ E).
    destruct (IH (setAudio
                    (scanned W
                       (audioFiles W directory_iterator fuel
                          (getPath directory))
                       (audio c))
                    c)
                fk tr1) as [tr2 E2].
    exists tr2. rewrite E2. reflexivity.
Qed.

(** X26.  A refresh of audio directories reconciles, then scans: when
    the status of every stored track can be read and every watched
    directory is an audio directory that can be checked and listed,
    [refresh] finishes, and the audio side it commits is the one left by
    first removing the tracks whose file is gone and then scanning the
    files of the directories, directory after directory in the order
    they are watched. *)
Theorem refresh_reconciles_then_scans fuel directories s :
  transaction s = None ->
  (forall row, In row (rows (tracks (audio (committed s)))) ->
               status W (track_path (snd row)) <> StatusError) ->
  Forall
    (fun directory =>
       getType directory = WatchedAudio
       /\ fuelSuffices W directory_iterator fuel (getPath directory) = true
       /\ rootReadable W directory_iterator (getPath directory) = true)
    directories ->
  exists tr',
    refresh fuel directories s
    = (Ok Finished,
       mkSession
         (setAudio
            (scanned W
               (flat_map
                  (fun directory =>
                     audioFiles W directory_iterator fuel
                       (getPath directory))
                  directories)
               (setTracks
                  (pureRemoveMissing W
                     (rows (tracks (audio (committed s))))
                     (tracks (audio (committed s))))
                  (audio (committed s))))
            (committed s))
         None (foreignKeys s) tr').
Proof.
  destruct s as [c t fk tr]. cbn. intros -> Hread Hdirs.
  destruct (ScannerProperties.removeMissingAudioFiles_outcome
              W (audio c) fk []) as (r & tr1 & Hrun & Hok).
  specialize (Hok Hread). subst r.
  unfold Library.refresh.
  erewrite bind_ok.
  2:{ unfold liftScan.
      cbn [committed transaction foreignKeys trace option_map].
      rewrite Hrun. reflexivity. }
  cbn [committed transaction foreignKeys trace option_map].
  destruct (refresh_loop fuel directories Hdirs
              (setAudio
                 (setTracks
                    (pureRemoveMissing W (rows (tracks (audio c)))
                       (tracks (audio c)))
                    (audio c))
                 c)
              fk (tr ++ List.map Scan tr1)) as [tr' E].
  exists tr'. exact E.
Qed.

End Refresh.

Lemma refresh_stops_when_reconciliation_fails_witness :
  transaction
    (mkSession (setAudio storedDb emptyLibrary) None true []
     : Session _ LibEvent)
  = None /\
  In (1, storedTrack)
    (rows (tracks (audio (setAudio storedDb emptyLibrary)))) /\
  status unreadableWorld (track_path (snd (1, storedTrack))) = StatusError /\
  exists lines,
    refresh unreadableWorld treeListing parentOf true 2 [musicWatched]
      (mkSession (setAudio storedDb emptyLibrary) None true [])
    = (Throw (StdException "boost::filesystem::status"),
       mkSession (setAudio storedDb emptyLibrary) None true
         ([] ++ List.map Scan lines)).
Proof.
  split; [reflexivity|]. split; [now left|]. split; [reflexivity|].
  exact (refresh_stops_when_reconciliation_fails unreadableWorld
           treeListing parentOf true 2 [musicWatched]
           (mkSession (setAudio storedDb emptyLibrary) None true [])
           (1, storedTrack) eq_refl (or_introl eq_refl) eq_refl).
Defined.

Lemma staleLibrary_readable :
  forall row, In row (rows (tracks (audio staleLibrary))) ->
              status twoDirsWorld (track_path (snd row)) <> StatusError.
Proof. intros row [<-|[<-|[]]]; vm_compute; discriminate. Qed.

Lemma watched_walkable :
  Forall
    (fun directory =>
       getType directory = WatchedAudio
       /\ fuelSuffices twoDirsWorld twoDirsListing 2 (getPath directory)
          = true
       /\ rootReadable twoDirsWorld twoDirsListing (getPath directory)
          = true)
    [moreWatched; musicWatched].
Proof. repeat constructor. Qed.

(** A library with a track for a song that changed and a track whose
    file is gone, and two watched directories: the track without file is
    removed, then the song of [/more], watched first, is scanned before
    the songs of [/music]. *)
Lemma refresh_reconciles_then_scans_witness :
  transaction (mkSession staleLibrary None true [] : Session _ LibEvent)
  = None /\
  (forall row, In row (rows (tracks (audio staleLibrary))) ->
               status twoDirsWorld (track_path (snd row)) <> StatusError) /\
  Forall
    (fun directory =>
       getType directory = WatchedAudio
       /\ fuelSuffices twoDirsWorld twoDirsListing 2 (getPath directory)
          = true
       /\ rootReadable twoDirsWorld twoDirsListing (getPath directory)
          = true)
    [moreWatched; musicWatched] /\
  List.map (fun row => (fst row, track_path (snd row)))
    (rows (tracks (audio staleLibrary)))
  = [(1, songPath); (2, gonePath)] /\
  List.map (fun row => (fst row, track_path (snd row)))
    (rows (tracks
             (audio
                (committed
                   (snd (refresh twoDirsWorld twoDirsListing parentOf true 2
                           [moreWatched; musicWatched]
                           (mkSession staleLibrary None true [])))))))
  = [(1, songPath); (3, thirdPath); (4, otherPath)] /\
  exists tr',
    refresh twoDirsWorld twoDirsListing parentOf true 2
      [moreWatched; musicWatched] (mkSession staleLibrary None true [])
    = (Ok Finished,
       mkSession
         (setAudio
            (scanned twoDirsWorld
               (flat_map
                  (fun directory =>
                     audioFiles twoDirsWorld twoDirsListing 2
                       (getPath directory))
                  [moreWatched; musicWatched])
               (setTracks
                  (pureRemoveMissing twoDirsWorld
                     (rows (tracks (audio staleLibrary)))
                     (tracks (audio staleLibrary)))
                  (audio staleLibrary)))
            staleLibrary)
         None true tr').
Proof.
  split; [reflexivity|]. split; [exact staleLibrary_readable|].
  split; [exact watched_walkable|]. split; [reflexivity|].
  split; [vm_compute; reflexivity|].
  exact (refresh_reconciles_then_scans twoDirsWorld twoDirsListing parentOf
           true 2 [moreWatched; musicWatched]
           (mkSession staleLibrary None true [])
           eq_refl staleLibrary_readable watched_walkable).
Defined.

End LibraryFacts.
